(** * CArchive: the archive codec of [archive.c]

    A shallow embedding of [mkpath], [next_block], [pack] and [unpack]
    over an explicit model of the file system, the working directory and
    the byte streams, followed by the properties of the codec. *)

From Stdlib Require Import Ascii String List ZArith NArith Bool Lia Arith.
Import ListNotations.

Local Open Scope Z_scope.

(** ** Bytes and C strings *)

Definition bytes := list ascii.

(** A string literal of the source. *)
Definition str (s : string) : bytes := list_ascii_of_string s.

Definition NUL : ascii := ascii_of_N 0.
Definition SLASH : ascii := "/"%char.
Definition COLON : ascii := ":"%char.
Definition LF : ascii := ascii_of_N 10.

Definition bytes_eqb (a b : bytes) : bool :=
  if list_eq_dec ascii_dec a b then true else false.

(** What [strlen], [atoi], [%s] and the system calls see of an array that
    holds [b] followed by a terminating NUL: the bytes before the first
    NUL. *)
Fixpoint cstr (b : bytes) : bytes :=
  match b with
  | [] => []
  | c :: b' => if Ascii.eqb c NUL then [] else c :: cstr b'
  end.

Definition strlen (s : bytes) : N := N.of_nat (length s).

(** ** Outcomes of a run *)

Inductive fault : Type :=
| OutOfBounds      (* an array is accessed outside its declared size *)
| NullStream       (* a NULL [FILE*] is handed to fwrite or fclose *)
| Uninitialised    (* an object is read before anything was stored in it *)
| IntRange.        (* atoi on a value that [int] cannot represent *)

(** How the process leaves early. *)
Inductive exit_status : Type :=
| ExitFailure      (* exit(1) *)
| ExitErrno.       (* err(errno, ...): the status is the current errno *)

Inductive outcome (A : Type) : Type :=
| Ok (a : A)                  (* control reaches the end of the code modelled *)
| Exit (e : exit_status)      (* the process leaves through exit() or err() *)
| Undefined (f : fault)       (* the C standard gives the run no meaning *)
| Blocked                     (* a system call does not return *)
| OutOfFuel.                  (* the model ran out of steps *)

Arguments Ok {A} a.
Arguments Exit {A} e.
Arguments Undefined {A} f.
Arguments Blocked {A}.
Arguments OutOfFuel {A}.

Definition bind {A B} (m : outcome A) (k : A -> outcome B) : outcome B :=
  match m with
  | Ok a => k a
  | Exit e => Exit e
  | Undefined f => Undefined f
  | Blocked => Blocked
  | OutOfFuel => OutOfFuel
  end.

Notation "x <- m ;; k" := (bind m (fun x => k))
  (at level 61, m at next level, right associativity).
Notation "' p <- m ;; k" := (bind m (fun x => let 'p := x in k))
  (at level 61, p pattern, m at next level, right associativity).

(** ** [%ld] and [atoi] *)

Definition digit_char (d : N) : ascii := ascii_of_N (48 + d).

Fixpoint print_digits (fuel : nat) (n : N) (acc : bytes) : bytes :=
  match fuel with
  | O => acc
  | S f =>
      let acc' := digit_char (n mod 10) :: acc in
      if (n / 10 =? 0)%N then acc' else print_digits f (n / 10) acc'
  end.

(** [fprintf("%ld", n)] for a non-negative [n]: strlen results and the
    st_size of a regular file. *)
Definition print_ld (n : N) : bytes :=
  print_digits (S (N.to_nat (N.log2 n))) n [].

Definition isspace (c : ascii) : bool :=
  let n := N_of_ascii c in ((n =? 32) || ((9 <=? n) && (n <=? 13)))%N.

Definition isdigit (c : ascii) : bool :=
  let n := N_of_ascii c in ((48 <=? n) && (n <=? 57))%N.

Definition digit_val (c : ascii) : Z := Z.of_N (N_of_ascii c) - 48.

Fixpoint skip_spaces (s : bytes) : bytes :=
  match s with
  | c :: s' => if isspace c then skip_spaces s' else s
  | [] => []
  end.

Fixpoint digits_value (acc : Z) (s : bytes) : Z :=
  match s with
  | c :: s' => if isdigit c then digits_value (10 * acc + digit_val c) s' else acc
  | [] => acc
  end.

(** The number strtol(s, NULL, 10) reads: blanks, an optional sign, the
    longest run of digits; 0 when there is no digit. *)
Definition strtol_value (s : bytes) : Z :=
  match skip_spaces s with
  | c :: r =>
      if Ascii.eqb c "-"%char then - digits_value 0 r
      else if Ascii.eqb c "+"%char then digits_value 0 r
      else digits_value 0 (c :: r)
  | [] => 0
  end.

Definition INT_MAX : Z := 2147483647.
Definition INT_MIN : Z := -2147483648.

(** [atoi]: the value, when an [int] can hold it (C11 7.22.1: otherwise
    the behaviour is undefined). *)
Definition atoi (s : bytes) : outcome Z :=
  let v := strtol_value s in
  if (INT_MIN <=? v) && (v <=? INT_MAX) then Ok v else Undefined IntRange.

(** ** [next_block] *)

(** [#define NAME_MAX 255]: the size of both arrays of [unpack]. *)
Definition NAME_MAX : nat := 255.

(** [output[i] = '\0'] after the loop, [i] being the number of bytes
    stored; [fp] is what is left of the input. *)
Definition next_block_close (output fp : bytes) : outcome (bytes * bytes) :=
  if (length output <? NAME_MAX)%nat then Ok (output, fp)
  else Undefined OutOfBounds.

(** [next_block(fp, output, delim, max_reads)], [output] pointing to an
    array of NAME_MAX chars as at every call site.  The argument [output]
    of the model is what the loop has stored so far, [output[0..i-1]], so
    that [i] is its length; the result is the bytes stored before the
    final NUL and the rest of the input.  A byte equal to [delim] is
    consumed and not stored; when [i] reaches [max_reads] nothing more is
    read.  [i] is an unsigned short, which cannot wrap before the array
    is overrun. *)
Fixpoint next_block (fp : bytes) (output : bytes) (delim : ascii)
         (max_reads : Z) : outcome (bytes * bytes) :=
  match fp with
  | [] => next_block_close output []
  | buff :: fp' =>
      if Z.of_nat (length output) <? max_reads then
        if Ascii.eqb buff delim then next_block_close output fp'
        else if (length output <? NAME_MAX)%nat
             then next_block fp' (output ++ [buff]) delim max_reads
             else Undefined OutOfBounds
      else next_block_close output fp
  end.

(** ** The file system *)

Definition name := bytes.
Definition path := list name.

Inductive special : Type := Fifo | Socket | CharDev | BlockDev.

(** A directory lists its entries in the order readdir returns them. *)
#[warnings="-register-all"]
Inductive node : Type :=
| Reg (data : bytes)
| Dir (entries : list (name * node))
| Lnk (target : bytes)
| Special (k : special).

Fixpoint assoc (c : name) (es : list (name * node)) : option node :=
  match es with
  | [] => None
  | (c', n) :: es' => if bytes_eqb c c' then Some n else assoc c es'
  end.

(** The node at a physical path (no symbolic link is followed). *)
Fixpoint get (n : node) (p : path) {struct p} : option node :=
  match p with
  | [] => Some n
  | c :: p' =>
      match n with
      | Dir es => match assoc c es with Some m => get m p' | None => None end
      | _ => None
      end
  end.

Fixpoint alter (f : node -> node) (c : name) (es : list (name * node))
  : list (name * node) :=
  match es with
  | [] => []
  | (c', n) :: es' =>
      if bytes_eqb c c' then (c', f n) :: es' else (c', n) :: alter f c es'
  end.

(** Replace the node at a physical path by its image under [f]. *)
Fixpoint update (n : node) (p : path) (f : node -> node) {struct p} : node :=
  match p with
  | [] => f n
  | c :: p' =>
      match n with
      | Dir es => Dir (alter (fun m => update m p' f) c es)
      | _ => n
      end
  end.

(** A new entry goes to the end of its directory. *)
Definition add_entry (c : name) (m : node) (d : node) : node :=
  match d with
  | Dir es => Dir (es ++ [(c, m)])
  | _ => d
  end.

(** *** Path names *)

(** The components of a path name, split at every '/'. *)
Fixpoint split_path (cur : bytes) (s : bytes) : list name :=
  match s with
  | [] => [cur]
  | c :: s' =>
      if Ascii.eqb c SLASH then cur :: split_path [] s'
      else split_path (cur ++ [c]) s'
  end.

Definition components (s : bytes) : list name := split_path [] s.

Definition is_absolute (s : bytes) : bool :=
  match s with
  | c :: _ => Ascii.eqb c SLASH
  | [] => false
  end.

Definition DOT : name := str ".".
Definition DOTDOT : name := str "..".

(** NAME_MAX of <limits.h>: the longest entry name the file system
    holds.  A longer component makes a call fail (ENAMETOOLONG). *)
Definition FS_NAME_MAX : nat := 255.

Definition too_long (c : name) : bool := (FS_NAME_MAX <? length c)%nat.

Arguments too_long : simpl never.

(** PATH_MAX of <limits.h>: a path name handed to a system call has
    fewer bytes than this, its NUL not counted, or the call fails
    (ENAMETOOLONG). *)
Definition PATH_MAX : Z := 4096.

Definition path_too_long (s : bytes) : bool :=
  PATH_MAX <=? Z.of_nat (length s).

Arguments path_too_long : simpl never.

(** Where a path walk ends. *)
Inductive walked : Type :=
| Found (p : path)               (* an existing object, links followed *)
| Missing (parent : path) (c : name)
                                 (* the last component is absent from the
                                    directory [parent], which exists *)
| NoEntry.                       (* ENOENT, ENOTDIR, ELOOP or
                                    ENAMETOOLONG *)

Section Walk.
Variable root : node.
(** What to do at a symbolic link: walk on from a directory along the
    components of its target and what follows. *)
Variable follow : path -> list name -> walked.

(** [cur] is the physical path of the directory reached so far. *)
Fixpoint walk (cur : path) (comps : list name) : walked :=
  match comps with
  | [] => Found cur
  | c :: rest =>
      if bytes_eqb c [] || bytes_eqb c DOT then walk cur rest
      else if bytes_eqb c DOTDOT then walk (removelast cur) rest
      else if too_long c then NoEntry
      else
        match get root (cur ++ [c]) with
        | None =>
            match rest, get root cur with
            | [], Some (Dir _) => Missing cur c
            | _, _ => NoEntry
            end
        | Some (Dir _) => walk (cur ++ [c]) rest
        | Some (Lnk t) =>
            follow (if is_absolute t then [] else cur) (components t ++ rest)
        | Some _ => match rest with [] => Found (cur ++ [c]) | _ => NoEntry end
        end
  end.
End Walk.

(** At most [fuel] symbolic links are followed in one walk. *)
Fixpoint namei_from (fuel : nat) (root : node) : path -> list name -> walked :=
  match fuel with
  | O => walk root (fun _ _ => NoEntry)
  | S f => walk root (namei_from f root)
  end.

Definition SYMLOOP_MAX : nat := 40.

(** Resolution of a path name by the system calls that follow links.
    The empty path name resolves to nothing (ENOENT), and so does one of
    PATH_MAX bytes or more. *)
Definition namei (root : node) (cwd : path) (s : bytes) : walked :=
  match s with
  | [] => NoEntry
  | _ =>
      if path_too_long s then NoEntry
      else namei_from SYMLOOP_MAX root (if is_absolute s then [] else cwd)
                      (components s)
  end.

(** *** System calls *)

(** The part of [struct stat] the program looks at. *)
Record stat_t : Type := { st_node : node; st_size : N }.

Definition S_ISDIR (st : stat_t) : bool :=
  match st_node st with Dir _ => true | _ => false end.

Definition S_ISREG (st : stat_t) : bool :=
  match st_node st with Reg _ => true | _ => false end.

Definition size_of (n : node) : N :=
  match n with
  | Reg d => N.of_nat (length d)
  | _ => 0%N
  end.

(** [stat(s, &st)]: [None] when the call fails and leaves [st] alone. *)
Definition stat (root : node) (cwd : path) (s : bytes) : option stat_t :=
  match namei root cwd s with
  | Found p =>
      match get root p with
      | Some n => Some {| st_node := n; st_size := size_of n |}
      | None => None
      end
  | _ => None
  end.

(** [chdir(s)], whose result the program never looks at: the working
    directory changes when [s] resolves to a directory and stays
    otherwise. *)
Definition chdir (root : node) (cwd : path) (s : bytes) : path :=
  match namei root cwd s with
  | Found p => match get root p with Some (Dir _) => p | _ => cwd end
  | _ => cwd
  end.

(** [opendir(s)] with the names readdir will return, "." and ".."
    included; [None] is the NULL result. *)
Definition opendir (root : node) (cwd : path) (s : bytes) : option (list name) :=
  match namei root cwd s with
  | Found p =>
      match get root p with
      | Some (Dir es) => Some (DOT :: DOTDOT :: map fst es)
      | _ => None
      end
  | _ => None
  end.

(** [fopen(s, "r")] with the bytes the stream will deliver; [None] is NULL. *)
Definition fopen_r (root : node) (cwd : path) (s : bytes) : option bytes :=
  match namei root cwd s with
  | Found p =>
      match get root p with
      | Some (Reg d) => Some d
      | Some (Dir _) => Some []
      | _ => None
      end
  | _ => None
  end.

(** An output stream opened by [fopen(s, "w")]. *)
Inductive wstream : Type :=
| ToFile (p : path)      (* a regular file, created or truncated *)
| ToDevice.              (* a device: nothing is stored *)

(** What [fopen(s, "w")] comes to. *)
Inductive opened : Type :=
| Opened (root' : node) (fp : wstream)
                         (* the file system after the call, the stream *)
| Null                   (* fopen returns NULL *)
| Blocks.                (* open does not return *)

(** [fopen(s, "w")].  A regular file is truncated, a missing last
    component is made as an empty regular file.  A FIFO has no reader in
    the model, where no other process runs, and open waits for one; a
    socket cannot be opened (ENXIO), nor a directory for writing
    (EISDIR). *)
Definition fopen_w (root : node) (cwd : path) (s : bytes) : opened :=
  match namei root cwd s with
  | Found p =>
      match get root p with
      | Some (Reg _) => Opened (update root p (fun _ => Reg [])) (ToFile p)
      | Some (Special Fifo) => Blocks
      | Some (Special Socket) => Null
      | Some (Special _) => Opened root ToDevice
      | _ => Null
      end
  | Missing parent c =>
      Opened (update root parent (add_entry c (Reg []))) (ToFile (parent ++ [c]))
  | NoEntry => Null
  end.

(** The writes to a stream reach the file when it is closed. *)
Definition fclose_w (root : node) (w : wstream) (written : bytes) : node :=
  match w with
  | ToFile p => update root p (fun _ => Reg written)
  | ToDevice => root
  end.

Fixpoint strip_trailing_empty (rev_comps : list name) : list name :=
  match rev_comps with
  | c :: r => if bytes_eqb c [] then strip_trailing_empty r else rev_comps
  | [] => []
  end.

(** [mkdir(s, mode)]: the new file system, or [None] when the call fails.
    The parent is resolved with links followed; the last component must be
    a name that its directory does not hold yet, of FS_NAME_MAX bytes at
    most; the path name has fewer than PATH_MAX bytes. *)
Definition mkdir (root : node) (cwd : path) (s : bytes) (mode : Z)
  : option node :=
  match s with
  | [] => None
  | _ =>
      if path_too_long s then None
      else
        match strip_trailing_empty (rev (components s)) with
        | [] => None
        | c :: rev_parent =>
            if bytes_eqb c DOT || bytes_eqb c DOTDOT then None
            else if too_long c then None
            else
              match namei_from SYMLOOP_MAX root
                      (if is_absolute s then [] else cwd) (rev rev_parent) with
              | Found parent =>
                  match get root parent, get root (parent ++ [c]) with
                  | Some (Dir _), None =>
                      Some (update root parent (add_entry c (Dir [])))
                  | _, _ => None
                  end
              | _ => None
              end
        end
  end.

(** ** [mkpath] *)

(** The loop of [mkpath]: [tmp] holds the bytes before [p], which is what
    the C string [tmp] reads while the '/' at [p] is overwritten by NUL.
    The result is the value returned and the file system left behind. *)
Fixpoint mkpath_loop (root : node) (cwd : path) (tmp p : bytes) (mode : Z)
  : Z * node :=
  match p with
  | [] => (0, root)
  | c :: p' =>
      if Ascii.eqb c SLASH then
        match stat root cwd tmp with
        | None =>
            match mkdir root cwd tmp mode with
            | None => (-1, root)
            | Some root' => mkpath_loop root' cwd (tmp ++ [c]) p' mode
            end
        | Some st =>
            if negb (S_ISDIR st) then (-1, root)
            else mkpath_loop root cwd (tmp ++ [c]) p' mode
        end
      else mkpath_loop root cwd (tmp ++ [c]) p' mode
  end.

Definition mkpath (root : node) (cwd : path) (pathname : bytes) (mode : Z)
  : Z * node :=
  mkpath_loop root cwd [] pathname mode.

(** ** [pack] *)

(** One record per frame written to the archive, taken where the source
    writes it, with the arguments of the call: the value printed by [%ld]
    and the name for a name frame; for a file also the size printed and
    the bytes the copy loop wrote. *)
Inductive event : Type :=
| EvDir (depth : Z) (declared : N) (fn : bytes)
| EvFile (depth : Z) (declared : N) (fn : bytes) (size : N) (content : bytes)
| EvEnd (depth : Z).

Record pworld : Type := {
  p_cwd : path;          (* the working directory of the process *)
  p_out : bytes;         (* what has been written to outfp *)
  p_stdout : bytes;
  p_stderr : bytes;
  p_log : list event
}.

Definition indent (depth : Z) : bytes :=
  concat (repeat (str "  ") (Z.to_nat depth)).

Definition to_stdout (w : pworld) (b : bytes) : pworld :=
  {| p_cwd := p_cwd w; p_out := p_out w; p_stdout := p_stdout w ++ b;
     p_stderr := p_stderr w; p_log := p_log w |}.

Definition to_stderr (w : pworld) (b : bytes) : pworld :=
  {| p_cwd := p_cwd w; p_out := p_out w; p_stdout := p_stdout w;
     p_stderr := p_stderr w ++ b; p_log := p_log w |}.

Definition to_outfp (w : pworld) (b : bytes) (e : event) : pworld :=
  {| p_cwd := p_cwd w; p_out := p_out w ++ b; p_stdout := p_stdout w;
     p_stderr := p_stderr w; p_log := p_log w ++ [e] |}.

Definition set_cwd (w : pworld) (d : path) : pworld :=
  {| p_cwd := d; p_out := p_out w; p_stdout := p_stdout w;
     p_stderr := p_stderr w; p_log := p_log w |}.

(** The copy loop of [pack]: one byte read, one byte written, until
    fread delivers nothing. *)
Fixpoint copy_stream (infp : bytes) (written : bytes) : bytes :=
  match infp with
  | [] => written
  | buff :: infp' => copy_stream infp' (written ++ [buff])
  end.

Definition strcmp_eq (a b : bytes) : bool := bytes_eqb a b.

(** [fprintf(stderr, "Skipping non-regular file `%s'.\n", fn)]. *)
Definition skip_warning (fn : bytes) : bytes :=
  str "Skipping non-regular file `" ++ fn ++ str "'." ++ [LF].

Section ReaddirLoop.
(** The recursive call [pack(f->d_name, outfp, depth + 1)]. *)
Variable pack_entry : bytes -> pworld -> outcome pworld.

(** The [while ((f = readdir(indir)) != NULL)] loop over the names
    that readdir still has to return. *)
Fixpoint readdir_loop (ds : list name) (w : pworld) : outcome pworld :=
  match ds with
  | [] => Ok w
  | d_name :: ds' =>
      if strcmp_eq d_name DOT || strcmp_eq d_name DOTDOT
      then readdir_loop ds' w
      else w' <- pack_entry d_name w ;; readdir_loop ds' w'
  end.
End ReaddirLoop.

(** [pack(fn, outfp, depth)] in the world [w], over the file system
    [root], which packing only reads.  [fn] is the bytes of the C string.
    [fuel] bounds the depth of the recursion.  The result of stat is not
    looked at by the source: when the call fails, [st] is read without
    ever having been written.  [depth] only feeds the indentation and is
    kept as an integer. *)
Fixpoint pack (fuel : nat) (root : node) (fn : bytes) (depth : Z) (w : pworld)
  : outcome pworld :=
  match fuel with
  | O => OutOfFuel
  | S fuel' =>
      match stat root (p_cwd w) fn with
      | None => Undefined Uninitialised
      | Some st =>
          if S_ISDIR st then
            let w := to_stdout w (indent depth ++ fn ++ str "/" ++ [LF]) in
            match opendir root (p_cwd w) fn with
            | None => Exit ExitFailure
            | Some indir =>
                let w := to_outfp w
                           (print_ld (strlen fn + 1) ++ [COLON] ++ fn ++ [SLASH])
                           (EvDir depth (strlen fn + 1) fn) in
                let w := set_cwd w (chdir root (p_cwd w) fn) in
                w <- readdir_loop
                       (fun d_name w => pack fuel' root d_name (depth + 1) w)
                       indir w ;;
                let w := to_outfp w (str "0:") (EvEnd depth) in
                let w := set_cwd w (chdir root (p_cwd w) DOTDOT) in
                Ok w
            end
          else if S_ISREG st then
            let w := to_stdout w (indent depth ++ fn ++ [LF]) in
            match fopen_r root (p_cwd w) fn with
            | None => Exit ExitFailure
            | Some infp =>
                let content := copy_stream infp [] in
                Ok (to_outfp w
                      (print_ld (strlen fn) ++ [COLON] ++ fn
                       ++ print_ld (st_size st) ++ [COLON] ++ content)
                      (EvFile depth (strlen fn) fn (st_size st) content))
            end
          else
            Ok (to_stderr w (skip_warning fn))
      end
  end.

(** ** [unpack] *)

Record ustate : Type := {
  u_root : node;         (* the file system *)
  u_cwd : path;          (* the working directory of the process *)
  u_fp : bytes;          (* what is left to read of the archive *)
  u_depth : Z;
  u_stdout : bytes
}.

(** The payload loop of [unpack]: [n] rounds of one fread and one fwrite.
    When fread delivers nothing, [buffer] keeps what it held; [None] is
    the state of [buffer] before the first successful read.  The result
    is the bytes written and the rest of the input. *)
Fixpoint copy_payload (n : nat) (fp : bytes) (buffer : option ascii)
         (written : bytes) : outcome (bytes * bytes) :=
  match n with
  | O => Ok (written, fp)
  | S n' =>
      match fp with
      | b :: fp' => copy_payload n' fp' (Some b) (written ++ [b])
      | [] =>
          match buffer with
          | None => Undefined Uninitialised
          | Some b => copy_payload n' [] buffer (written ++ [b])
          end
      end
  end.

(** One round of the [while(1)] loop, up to the end-of-file test.  Both
    arrays are filled by [next_block] before they are read, as C strings.
    [fopen] returning NULL is not tested by the source, and the stream
    goes to fwrite and fclose. *)
Definition unpack_frame (s : ustate) : outcome ustate :=
  '(b1, fp1) <- next_block (u_fp s) [] COLON (Z.of_nat NAME_MAX) ;;
  fn_length <- atoi (cstr b1) ;;
  '(b2, fp2) <- next_block fp1 [] COLON fn_length ;;
  let fn := cstr b2 in
  if fn_length =? 0 then
    Ok {| u_root := u_root s;
          u_cwd := chdir (u_root s) (u_cwd s) DOTDOT;
          u_fp := fp2;
          u_depth := u_depth s - 1;
          u_stdout := u_stdout s |}
  else
    match rev fn with
    | [] => Undefined OutOfBounds          (* fn[strlen(fn)-1] with strlen 0 *)
    | c :: _ =>
        if Ascii.eqb c SLASH then
          let '(r, root') := mkpath (u_root s) (u_cwd s) fn 448 in
          if negb (r =? 0) then Exit ExitErrno
          else
            Ok {| u_root := root';
                  u_cwd := chdir root' (u_cwd s) fn;
                  u_fp := fp2;
                  u_depth := u_depth s + 1;
                  u_stdout := u_stdout s ++ indent (u_depth s) ++ fn ++ [LF] |}
        else
          let out := u_stdout s ++ indent (u_depth s) ++ fn ++ [LF] in
          '(b3, fp3) <- next_block fp2 [] COLON (Z.of_nat NAME_MAX) ;;
          file_length <- atoi (cstr b3) ;;
          match fopen_w (u_root s) (u_cwd s) fn with
          | Blocks => Blocked
          | Null => Undefined NullStream
          | Opened root' newfile =>
              '(written, fp4) <- copy_payload (Z.to_nat file_length) fp3 None [] ;;
              Ok {| u_root := fclose_w root' newfile written;
                    u_cwd := u_cwd s;
                    u_fp := fp4;
                    u_depth := u_depth s;
                    u_stdout := out |}
          end
    end.

(** The loop: after a frame, stop when getc meets the end of the input. *)
Fixpoint unpack_loop (fuel : nat) (s : ustate) : outcome ustate :=
  match fuel with
  | O => OutOfFuel
  | S fuel' =>
      s' <- unpack_frame s ;;
      match u_fp s' with
      | [] => Ok s'
      | _ :: _ => unpack_loop fuel' s'
      end
  end.

(** [unpack(fp, depth)]; [Ok] is the normal return (of 0). *)
Definition unpack (fuel : nat) (root : node) (cwd : path) (fp : bytes)
           (depth : Z) : outcome ustate :=
  unpack_loop fuel
    {| u_root := root; u_cwd := cwd; u_fp := fp; u_depth := depth;
       u_stdout := str "Contents of Extracted Archive:" ++ [LF] |}.

(** The program is started with an empty archive and empty streams. *)
Definition fresh_world (cwd : path) : pworld :=
  {| p_cwd := cwd; p_out := []; p_stdout := []; p_stderr := []; p_log := [] |}.

Definition run_pack (fuel : nat) (root : node) (cwd : path) (fn : bytes)
           (depth : Z) : outcome pworld :=
  pack fuel root fn depth (fresh_world cwd).

(** ** Trees: shape, names and the wire format *)

Section NodeInduction.
Variable P : node -> Prop.
Hypothesis HReg : forall d, P (Reg d).
Hypothesis HLnk : forall t, P (Lnk t).
Hypothesis HSpecial : forall k, P (Special k).
Hypothesis HDir : forall es, Forall (fun cm => P (snd cm)) es -> P (Dir es).

Fixpoint node_induction (n : node) : P n :=
  match n with
  | Reg d => HReg d
  | Lnk t => HLnk t
  | Special k => HSpecial k
  | Dir es =>
      HDir es ((fix go (es : list (name * node))
               : Forall (fun cm => P (snd cm)) es :=
               match es with
               | [] => Forall_nil _
               | cm :: es' => Forall_cons cm (node_induction (snd cm)) (go es')
               end) es)
  end.
End NodeInduction.

Definition has_byte (c : ascii) (b : bytes) : bool :=
  existsb (Ascii.eqb c) b.

(** What the file system allows as the name of a directory entry: not
    empty, no '/' and no NUL in it, not "." or "..", and FS_NAME_MAX
    bytes at most. *)
Definition entry_name (c : name) : bool :=
  negb (bytes_eqb c []) && negb (has_byte SLASH c) && negb (has_byte NUL c)
  && negb (bytes_eqb c DOT) && negb (bytes_eqb c DOTDOT)
  && negb (too_long c).

Fixpoint nodupb (l : list name) : bool :=
  match l with
  | [] => true
  | c :: l' => negb (existsb (bytes_eqb c) l') && nodupb l'
  end.

(** A tree as a file system holds it: entry names are names and no two
    entries of a directory share one. *)
Fixpoint wf (n : node) : bool :=
  match n with
  | Dir es =>
      nodupb (map fst es)
      && forallb (fun cm => entry_name (fst cm) && wf (snd cm)) es
  | _ => true
  end.

(** No symbolic link anywhere in the tree. *)
Fixpoint linkless (n : node) : bool :=
  match n with
  | Dir es => forallb (fun cm => linkless (snd cm)) es
  | Lnk _ => false
  | _ => true
  end.

(** Only regular files and directories. *)
Fixpoint regular_only (n : node) : bool :=
  match n with
  | Dir es => forallb (fun cm => regular_only (snd cm)) es
  | Reg _ => true
  | _ => false
  end.

Definition is_special (n : node) : bool :=
  match n with Special _ => true | _ => false end.

Definition is_lnk (n : node) : bool :=
  match n with Lnk _ => true | _ => false end.

(** The tree without its FIFOs, sockets and devices. *)
Fixpoint prune (n : node) : node :=
  match n with
  | Dir es =>
      Dir (flat_map (fun cm => if is_special (snd cm) then []
                               else [(fst cm, prune (snd cm))]) es)
  | _ => n
  end.

(** What the decoder can take in: a name it reads whole (no ':' in it,
    and short enough for the array with its NUL, the '/' of a directory
    counted) and a file size that atoi can return. *)
Definition codec_name (extra : nat) (c : name) : bool :=
  negb (has_byte COLON c) && (length c + extra <? NAME_MAX)%nat.

Fixpoint codec_ok (c : name) (n : node) : bool :=
  match n with
  | Reg d => codec_name 0 c && (Z.of_nat (length d) <=? INT_MAX)
  | Dir es => codec_name 1 c && forallb (fun cm => codec_ok (fst cm) (snd cm)) es
  | _ => true
  end.

Fixpoint height (n : node) : nat :=
  match n with
  | Dir es => S (fold_right (fun cm h => Nat.max (height (snd cm)) h) O es)
  | _ => O
  end.

(** The number of frames of an entry. *)
Fixpoint nframes (n : node) : nat :=
  match n with
  | Reg _ => 1
  | Dir es => S (S (fold_right (fun cm k => (nframes (snd cm) + k)%nat) O es))
  | _ => O
  end.

(** The wire format as the specification writes it:
      dirEntry  := decimal ":" name "/" entry* "0:"
      fileEntry := decimal ":" name decimal ":" raw-bytes
    the first decimal being len(name), plus one for a directory, and the
    second the byte count of the payload.  Other entries have no frame. *)
Fixpoint wire_entry (c : name) (n : node) : bytes :=
  match n with
  | Reg d =>
      print_ld (strlen c) ++ [COLON] ++ c
      ++ print_ld (N.of_nat (length d)) ++ [COLON] ++ d
  | Dir es =>
      print_ld (strlen c + 1) ++ [COLON] ++ c ++ [SLASH]
      ++ flat_map (fun cm => wire_entry (fst cm) (snd cm)) es
      ++ str "0:"
  | _ => []
  end.

(** The frames of an entry packed at [depth]. *)
Fixpoint frames (depth : Z) (c : name) (n : node) : list event :=
  match n with
  | Reg d => [EvFile depth (strlen c) c (N.of_nat (length d)) d]
  | Dir es =>
      EvDir depth (strlen c + 1) c
      :: flat_map (fun cm => frames (depth + 1) (fst cm) (snd cm)) es
      ++ [EvEnd depth]
  | _ => []
  end.

(** The progress listing on stdout, the same for both directions. *)
Fixpoint listing (depth : Z) (c : name) (n : node) : bytes :=
  match n with
  | Reg _ => indent depth ++ c ++ [LF]
  | Dir es =>
      indent depth ++ c ++ str "/" ++ [LF]
      ++ flat_map (fun cm => listing (depth + 1) (fst cm) (snd cm)) es
  | _ => []
  end.

(** The warnings on stderr. *)
Fixpoint warnings (c : name) (n : node) : bytes :=
  match n with
  | Reg _ => []
  | Dir es => flat_map (fun cm => warnings (fst cm) (snd cm)) es
  | _ => skip_warning c
  end.

(** The bytes of a frame. *)
Definition render_event (e : event) : bytes :=
  match e with
  | EvDir _ declared fn => print_ld declared ++ [COLON] ++ fn ++ [SLASH]
  | EvFile _ declared fn size content =>
      print_ld declared ++ [COLON] ++ fn ++ print_ld size ++ [COLON] ++ content
  | EvEnd _ => str "0:"
  end.

Definition render (log : list event) : bytes := flat_map render_event log.

(** Matching of directory frames and sentinels: the depths of the
    directories still open are kept on a stack; a frame below an open
    directory lies one level deeper, and a sentinel closes the innermost
    open directory, whose depth it carries. *)
Definition below (stack : list Z) (depth : Z) : bool :=
  match stack with
  | [] => true
  | top :: _ => depth =? top + 1
  end.

Fixpoint nest (stack : list Z) (log : list event) : option (list Z) :=
  match log with
  | [] => Some stack
  | EvDir d _ _ :: log' =>
      if below stack d then nest (d :: stack) log' else None
  | EvFile d _ _ _ _ :: log' =>
      if below stack d then nest stack log' else None
  | EvEnd d :: log' =>
      match stack with
      | top :: stack' => if d =? top then nest stack' log' else None
      | [] => None
      end
  end.

Definition is_dir_event (e : event) : bool :=
  match e with EvDir _ _ _ => true | _ => false end.

Definition is_end_event (e : event) : bool :=
  match e with EvEnd _ => true | _ => false end.

(** ** Statements about runs *)

(** Equal up to the bracketing of appends. *)
Ltac assoc_eq :=
  repeat (rewrite <- app_assoc || rewrite <- app_comm_cons);
  simpl app; reflexivity.

(** A frame says what it holds: the declared length of a name is its
    length (one more for a directory, for the '/'), the declared size of
    a payload is the number of bytes that follow, and the name is not
    empty. *)
Definition faithful (e : event) : Prop :=
  match e with
  | EvDir _ declared fn => declared = (strlen fn + 1)%N /\ fn <> []
  | EvFile _ declared fn size content =>
      declared = strlen fn /\ size = N.of_nat (length content) /\ fn <> []
  | EvEnd _ => True
  end.

(** [w'] is [w] with the frames [evs] written at [depth]: the archive
    grew by their bytes, and they are faithful and matched. *)
Definition appended (depth : Z) (w w' : pworld) : Prop :=
  exists evs,
    p_log w' = p_log w ++ evs
    /\ p_out w' = p_out w ++ render evs
    /\ Forall faithful evs
    /\ forall stack, below stack depth = true -> nest stack evs = Some stack.

(** The world [w] after more output. *)
Definition grow (w : pworld) (out so se : bytes) (lg : list event) : pworld :=
  {| p_cwd := p_cwd w; p_out := p_out w ++ out; p_stdout := p_stdout w ++ so;
     p_stderr := p_stderr w ++ se; p_log := p_log w ++ lg |}.

(** After a frame: stop at the end of the input, go on otherwise. *)
Definition continue (fuel : nat) (s : ustate) : outcome ustate :=
  match u_fp s with
  | [] => Ok s
  | _ :: _ => unpack_loop fuel s
  end.

(** Several new entries at the end of a directory. *)
Definition add_entries (l : list (name * node)) (d : node) : node :=
  match d with
  | Dir es => Dir (es ++ l)
  | _ => d
  end.

(** The entries that unpacking a packed directory brings back. *)
Definition prune_entries (es : list (name * node)) : list (name * node) :=
  flat_map (fun cm => if is_special (snd cm) then []
                      else [(fst cm, prune (snd cm))]) es.

Definition nframes_list (es : list (name * node)) : nat :=
  fold_right (fun cm k => (nframes (snd cm) + k)%nat) O es.

(** The state once the entry [c], unpacked as [X], is in place. *)
Definition placed (s : ustate) (c : name) (X : node) (rest lst : bytes)
  : ustate :=
  {| u_root := update (u_root s) (u_cwd s) (add_entry c X);
     u_cwd := u_cwd s;
     u_fp := rest;
     u_depth := u_depth s;
     u_stdout := u_stdout s ++ lst |}.

(** The frames of the entry [c], holding [m], are decoded into a
    directory that has no [c] yet: the pruned tree is put there, and the
    decoder is back in the directory and at the depth it started from. *)
Definition entry_decodes (c : name) (m : node) : Prop :=
  forall s es rest f,
    get (u_root s) (u_cwd s) = Some (Dir es) ->
    assoc c es = None ->
    u_fp s = wire_entry c m ++ rest ->
    unpack_loop (nframes m + f) s
    = continue f (placed s c (prune m) rest (listing (u_depth s) c m)).

(** The bytes of a frame before its first ':': the field the decoder
    hands to atoi to decide what the frame is. *)
Definition length_field (e : event) : bytes :=
  match e with
  | EvDir _ declared _ => print_ld declared
  | EvFile _ declared _ _ _ => print_ld declared
  | EvEnd _ => str "0"
  end.

(** The frame of an actual entry declares a name of at least one byte,
    two for a directory. *)
Definition names_entry (e : event) : Prop :=
  match e with
  | EvDir _ declared _ => (2 <= declared)%N
  | EvFile _ declared _ _ _ => (1 <= declared)%N
  | EvEnd _ => True
  end.

Definition starts_with (p b : bytes) : Prop := exists r, b = p ++ r.

Definition count_dirs (log : list event) : nat :=
  length (filter is_dir_event log).

Definition count_ends (log : list event) : nat :=
  length (filter is_end_event log).

(** ** File systems to run the program on *)

Module Examples.

(** The tree of the specification's example, with a FIFO added. *)
Definition tree : node :=
  Dir [(str "a.txt", Reg (str "hi"));
       (str "pipe", Special Fifo);
       (str "sub", Dir [(str "b.txt", Reg (str "ok"))])].

Definition plain_tree : node :=
  Dir [(str "a.txt", Reg (str "hi"));
       (str "sub", Dir [(str "b.txt", Reg (str "ok"))])].

(** A file whose name holds the delimiter, and whose bytes look like
    sentinels. *)
Definition colon_tree : node := Dir [(str "a:b", Reg (str "0:0:"))].

(** A symbolic link to the regular file next to it. *)
Definition link_tree : node :=
  Dir [(str "f", Reg (str "hi")); (str "l", Lnk (str "f"));
       (str "g", Reg (str "yo"))].

(** A name as long as NAME_MAX allows. *)
Definition long_name : name := repeat "a"%char 255.

Definition fs : node :=
  Dir [(str "src",
        Dir [(str "root", tree); (str "plain", plain_tree);
             (str "d", colon_tree); (str "links", link_tree);
             (long_name, Reg []);
             (str "a", Dir [(str "b", Dir [(str "f", Reg (str "x"))])]);
             (str "lnk", Lnk (str "/dst"))]);
       (str "dst", Dir [(str "x", Dir [])])].

Definition src : path := [str "src"].
Definition dst : path := [str "dst"; str "x"].

End Examples.

(** ** Path names of several components *)

(** The path name c1/c2/.../cn/ of a directory frame. *)
Fixpoint slashed (cs : list name) : bytes :=
  match cs with
  | [] => []
  | c :: cs' => c ++ [SLASH] ++ slashed cs'
  end.

(** The directory at [D] and every directory below it along [cs]
    exists. *)
Fixpoint chain (R : node) (D : path) (cs : list name) : Prop :=
  (exists es, get R D = Some (Dir es))
  /\ match cs with
     | [] => True
     | c :: cs' => chain R (D ++ [c]) cs'
     end.

(** The file system with the directories along [cs] below [D], the
    missing ones made empty; nothing when a component exists and is not
    a directory. *)
Fixpoint ensure (R : node) (D : path) (cs : list name) : option node :=
  match cs with
  | [] => Some R
  | c :: cs' =>
      match get R (D ++ [c]) with
      | None => ensure (update R D (add_entry c (Dir []))) (D ++ [c]) cs'
      | Some (Dir _) => ensure R (D ++ [c]) cs'
      | Some _ => None
      end
  end.

(** ** [main] *)

(** What the process leaves behind when [main] returns. *)
Record mstate : Type := {
  m_root : node;         (* the file system *)
  m_cwd : path;          (* the working directory *)
  m_stdout : bytes;
  m_stderr : bytes
}.

(** The loop [for (argind = 1; argind < argc - 1; ++argind)] over the
    arguments still to pack: each is packed at depth 1, in the world the
    one before left. *)
Fixpoint pack_args (fuel : nat) (root : node) (args : list bytes) (w : pworld)
  : outcome pworld :=
  match args with
  | [] => Ok w
  | a :: args' =>
      w' <- pack fuel root a 1 w ;; pack_args fuel root args' w'
  end.

(** [main(argc, argv)], [argv] with the program name first; [Ok] is the
    return at the end of [main].  With fewer than two arguments: usage
    and exit(1).  The last argument is the archive.  With more than two,
    the archive is opened for writing and the arguments between are
    packed; the archive's bytes reach the file when the stream is closed,
    and the file is there, empty, while [pack] runs (what the stream
    flushes earlier shows only to a run that packs its own archive).
    With two, the archive is opened for reading and unpacked; the stream
    delivers the bytes the file held when it was opened.  [fuel] bounds
    the recursion of [pack] and the rounds of [unpack]. *)
Definition main (fuel : nat) (root : node) (cwd : path) (argv : list bytes)
  : outcome mstate :=
  let argc := length argv in
  if (argc <? 2)%nat then Exit ExitFailure
  else
    let fn := last argv [] in
    if (2 <? argc)%nat then
      match fopen_w root cwd fn with
      | Blocks => Blocked
      | Null => Exit ExitFailure
      | Opened root' fp =>
          w <- pack_args fuel root' (removelast (tl argv))
                 {| p_cwd := cwd; p_out := [];
                    p_stdout := str "Contents of Archive:" ++ [LF];
                    p_stderr := []; p_log := [] |} ;;
          Ok {| m_root := fclose_w root' fp (p_out w);
                m_cwd := p_cwd w;
                m_stdout := p_stdout w;
                m_stderr := p_stderr w |}
      end
    else
      match fopen_r root cwd fn with
      | None => Exit ExitFailure
      | Some fp =>
          s <- unpack fuel root cwd fp 1 ;;
          Ok {| m_root := u_root s;
                m_cwd := u_cwd s;
                m_stdout := u_stdout s;
                m_stderr := [] |}
      end.

(** ** Statements about the further properties *)

(** What [buffer] holds; NUL stands in where nothing was read yet and
    nothing is written from it. *)
Definition held (buffer : option ascii) : ascii :=
  match buffer with Some b => b | None => NUL end.

(** [x] holds what the archive of [m] holds: every regular file of [m]
    is in [x] at the same place with the same bytes, and every directory
    of [m] is a directory of [x].  [x] may hold more. *)
Fixpoint covers (x m : node) : bool :=
  match m with
  | Reg d => match x with Reg d' => bytes_eqb d' d | _ => false end
  | Dir kids =>
      match x with
      | Dir es =>
          forallb (fun cm => is_special (snd cm)
                             || match assoc (fst cm) es with
                                | Some x' => covers x' (snd cm)
                                | None => false
                                end) kids
      | _ => false
      end
  | _ => true
  end.

(** The frames of the entry [c], holding [m], are decoded in a
    directory where [c] holds all of it already: the file system is left
    as it is, and the decoder is back in the directory and at the depth
    it started from. *)
Definition entry_redecodes (c : name) (m : node) : Prop :=
  forall s x rest f,
    get (u_root s) (u_cwd s ++ [c]) = Some x -> covers x m = true ->
    u_fp s = wire_entry c m ++ rest ->
    unpack_loop (nframes m + f) s
    = continue f {| u_root := u_root s;
                    u_cwd := u_cwd s;
                    u_fp := rest;
                    u_depth := u_depth s;
                    u_stdout := u_stdout s ++ listing (u_depth s) c m |}.

(** An entry that [pack] writes a frame for. *)
Definition framed (cm : name * node) : bool := negb (is_special (snd cm)).

(** Two nodes of one type: both regular files, both directories, the
    same symbolic link or the same special file. *)
Definition same_kind (a b : node) : Prop :=
  match a, b with
  | Reg _, Reg _ => True
  | Dir _, Dir _ => True
  | Lnk t, Lnk t' => t = t'
  | Special k, Special k' => k = k'
  | _, _ => False
  end.

(** Everything the file system [R] holds, [R'] holds at the same path
    and with the same type. *)
Definition kept (R R' : node) : Prop :=
  forall p x, get R p = Some x ->
              exists x', get R' p = Some x' /\ same_kind x x'.

(** * Properties *)

(** ** Bytes *)

Lemma bytes_eqb_true (a b : bytes) : bytes_eqb a b = true <-> a = b.
Proof.
  unfold bytes_eqb. destruct (list_eq_dec ascii_dec a b); split; congruence.
Qed.

Lemma bytes_eqb_false (a b : bytes) : bytes_eqb a b = false <-> a <> b.
Proof.
  unfold bytes_eqb. destruct (list_eq_dec ascii_dec a b); split; congruence.
Qed.

Lemma bytes_eqb_refl (a : bytes) : bytes_eqb a a = true.
Proof. now apply bytes_eqb_true. Qed.

Lemma has_byte_false (c : ascii) (b : bytes) :
  has_byte c b = false <-> Forall (fun x => x <> c) b.
Proof.
  unfold has_byte. induction b as [|x b IH]; simpl.
  - split; auto.
  - rewrite orb_false_iff, IH. split.
    + intros [H1 H2]. constructor; auto.
      intros ->. now rewrite Ascii.eqb_refl in H1.
    + intros H. inversion H; subst. split; auto.
      apply Ascii.eqb_neq. congruence.
Qed.

Lemma cstr_id (b : bytes) : Forall (fun x => x <> NUL) b -> cstr b = b.
Proof.
  induction 1 as [|x b Hx _ IH]; simpl; auto.
  destruct (Ascii.eqb_spec x NUL); [contradiction|]. now rewrite IH.
Qed.

(** ** Decimal fields *)

Lemma digit_char_spec (d : N) :
  (d < 10)%N ->
  isdigit (digit_char d) = true /\ digit_val (digit_char d) = Z.of_N d.
Proof.
  intros H. unfold isdigit, digit_val, digit_char.
  rewrite N_ascii_embedding by lia.
  split; [|lia].
  apply andb_true_iff. split; apply N.leb_le; lia.
Qed.

Lemma isdigit_facts (c : ascii) :
  isdigit c = true ->
  isspace c = false /\ c <> NUL /\ c <> COLON /\ c <> SLASH
  /\ Ascii.eqb c "-"%char = false /\ Ascii.eqb c "+"%char = false.
Proof.
  destruct c as [[] [] [] [] [] [] [] []]; intros H; try discriminate H;
    repeat split; try reflexivity; discriminate.
Qed.

Lemma print_digits_isdigit (fuel : nat) : forall n acc,
  Forall (fun c => isdigit c = true) acc ->
  Forall (fun c => isdigit c = true) (print_digits fuel n acc).
Proof.
  induction fuel as [|f IH]; intros n acc Hacc; simpl; auto.
  assert (Hd : isdigit (digit_char (n mod 10)) = true).
  { apply digit_char_spec. apply N.mod_lt. discriminate. }
  destruct (n / 10 =? 0)%N; [|apply IH]; constructor; auto.
Qed.

Lemma print_digits_length (fuel : nat) : forall n acc,
  (length acc < length (print_digits (S fuel) n acc)
   /\ length (print_digits fuel n acc) <= fuel + length acc)%nat.
Proof.
  induction fuel as [|f IH]; intros n acc.
  - simpl. destruct (n / 10 =? 0)%N; simpl; lia.
  - destruct (IH (n / 10)%N (digit_char (n mod 10) :: acc)) as [H1 H2].
    split.
    + change (print_digits (S (S f)) n acc)
        with (let acc' := digit_char (n mod 10) :: acc in
              if (n / 10 =? 0)%N then acc'
              else print_digits (S f) (n / 10) acc').
      cbv zeta. destruct (n / 10 =? 0)%N; simpl length in *; lia.
    + change (print_digits (S f) n acc)
        with (let acc' := digit_char (n mod 10) :: acc in
              if (n / 10 =? 0)%N then acc'
              else print_digits f (n / 10) acc').
      cbv zeta. destruct (n / 10 =? 0)%N; simpl length in *; lia.
Qed.

(** With enough fuel the digits read back as the number. *)
Lemma print_digits_value (fuel : nat) : forall n acc,
  (n < 10 ^ N.of_nat fuel)%N ->
  digits_value 0 (print_digits fuel n acc) = digits_value (Z.of_N n) acc.
Proof.
  induction fuel as [|f IH]; intros n acc Hn.
  - simpl in Hn. assert (n = 0%N) by lia. subst. reflexivity.
  - assert (Hd := digit_char_spec (n mod 10) (N.mod_lt n 10 ltac:(discriminate))).
    destruct Hd as [Hd1 Hd2].
    assert (Hdiv : n = (10 * (n / 10) + n mod 10)%N)
      by (apply N.div_mod; discriminate).
    simpl print_digits. destruct (n / 10 =? 0)%N eqn:E.
    + apply N.eqb_eq in E. simpl digits_value. rewrite Hd1, Hd2. f_equal.
      rewrite E in Hdiv. simpl in Hdiv. congruence.
    + rewrite IH.
      * simpl digits_value. rewrite Hd1, Hd2. f_equal.
        transitivity (Z.of_N (10 * (n / 10) + n mod 10)).
        -- now rewrite N2Z.inj_add, N2Z.inj_mul.
        -- now rewrite <- Hdiv.
      * rewrite Nat2N.inj_succ, N.pow_succ_r' in Hn.
        apply N.Div0.div_lt_upper_bound. lia.
Qed.

Lemma print_digits_head (fuel : nat) : forall n acc,
  (n < 10 ^ N.of_nat fuel)%N -> n <> 0%N ->
  exists d r, print_digits fuel n acc = d :: r /\ d <> "0"%char.
Proof.
  induction fuel as [|f IH]; intros n acc Hn Hz.
  - simpl in Hn. lia.
  - simpl print_digits. destruct (n / 10 =? 0)%N eqn:E.
    + apply N.eqb_eq in E. exists (digit_char (n mod 10)), acc. split; auto.
      assert (n < 10)%N.
      { destruct (N.lt_ge_cases n 10) as [|Hge]; auto.
        apply (N.Div0.div_le_mono _ _ 10) in Hge.
        rewrite E in Hge. exfalso. revert Hge. apply N.lt_nge. reflexivity. }
      rewrite N.mod_small by auto. unfold digit_char.
      intros Heq. apply (f_equal N_of_ascii) in Heq.
      rewrite N_ascii_embedding in Heq by (clear - H; lia).
      change (N_of_ascii "0") with 48%N in Heq. clear - Heq Hz. lia.
    + apply IH.
      * rewrite Nat2N.inj_succ, N.pow_succ_r' in Hn.
        apply N.Div0.div_lt_upper_bound. lia.
      * apply N.eqb_neq in E. auto.
Qed.

Lemma print_ld_fuel (n : N) : (n < 10 ^ N.of_nat (S (N.to_nat (N.log2 n))))%N.
Proof.
  rewrite Nat2N.inj_succ, N2Nat.id.
  destruct (N.eq_dec n 0) as [->|Hz]; [reflexivity|].
  apply N.lt_le_trans with (2 ^ N.succ (N.log2 n))%N.
  - apply N.log2_spec. lia.
  - apply N.pow_le_mono_l. lia.
Qed.

Lemma print_ld_isdigit (n : N) : Forall (fun c => isdigit c = true) (print_ld n).
Proof. apply print_digits_isdigit. constructor. Qed.

Lemma print_ld_value (n : N) : digits_value 0 (print_ld n) = Z.of_N n.
Proof. unfold print_ld. rewrite print_digits_value; [reflexivity|apply print_ld_fuel]. Qed.

Lemma print_ld_nonempty (n : N) : print_ld n <> [].
Proof.
  unfold print_ld. intros H.
  destruct (print_digits_length (N.to_nat (N.log2 n)) n []) as [H1 _].
  rewrite H in H1. simpl in H1. lia.
Qed.

Lemma print_ld_length (n : N) :
  (length (print_ld n) <= S (N.to_nat (N.log2 n)))%nat.
Proof.
  unfold print_ld.
  destruct (print_digits_length (S (N.to_nat (N.log2 n))) n []) as [_ H].
  now rewrite Nat.add_0_r in H.
Qed.

Lemma print_ld_short (n : N) :
  (n < 2 ^ 64)%N -> (length (print_ld n) < NAME_MAX)%nat.
Proof.
  intros H. pose proof (print_ld_length n) as L.
  assert (N.log2 n < 64)%N.
  { destruct (N.eq_dec n 0) as [->|Hz]; [reflexivity|].
    apply N.log2_lt_pow2; lia. }
  unfold NAME_MAX. lia.
Qed.

Lemma print_ld_head (n : N) :
  n <> 0%N -> exists d r, print_ld n = d :: r /\ d <> "0"%char.
Proof. intros H. apply print_digits_head; auto. apply print_ld_fuel. Qed.

Lemma print_ld_no (c : ascii) (n : N) :
  isdigit c = false -> Forall (fun x => x <> c) (print_ld n).
Proof.
  intros Hc. eapply Forall_impl; [|apply print_ld_isdigit].
  intros a Ha ->. congruence.
Qed.

Lemma strtol_print_ld (n : N) : strtol_value (print_ld n) = Z.of_N n.
Proof.
  pose proof (print_ld_isdigit n) as Hd. pose proof (print_ld_value n) as Hv.
  unfold strtol_value. destruct (print_ld n) as [|c r] eqn:E.
  - now destruct (print_ld_nonempty n).
  - inversion Hd as [|? ? Hc _]; subst.
    destruct (isdigit_facts _ Hc) as (Hs & _ & _ & _ & Hm & Hp).
    simpl skip_spaces. now rewrite Hs, Hm, Hp.
Qed.

(** [atoi] reads back what [%ld] printed, as long as an int holds it. *)
Lemma atoi_print_ld (n : N) :
  Z.of_N n <= INT_MAX -> atoi (cstr (print_ld n)) = Ok (Z.of_N n).
Proof.
  intros H. rewrite cstr_id.
  - unfold atoi. rewrite strtol_print_ld.
    replace (INT_MIN <=? Z.of_N n) with true
      by (symmetry; apply Z.leb_le; unfold INT_MIN; lia).
    replace (Z.of_N n <=? INT_MAX) with true by (symmetry; now apply Z.leb_le).
    reflexivity.
  - apply print_ld_no. reflexivity.
Qed.

(** ** [next_block] on the fields of a well-formed frame *)

(** A field closed by the delimiter: the field is stored, the delimiter
    consumed. *)
Lemma next_block_delim (delim : ascii) (max_reads : Z) (rest : bytes) :
  forall s output,
    Forall (fun x => x <> delim) s ->
    (length output + length s < NAME_MAX)%nat ->
    Z.of_nat (length output + length s) < max_reads ->
    next_block (s ++ delim :: rest) output delim max_reads
    = Ok (output ++ s, rest).
Proof.
  induction s as [|x s IH]; intros output Hs Hlen Hmax; simpl.
  - replace (Z.of_nat (length output) <? max_reads) with true
      by (symmetry; apply Z.ltb_lt; simpl in Hmax; lia).
    rewrite Ascii.eqb_refl. unfold next_block_close.
    replace (length output <? NAME_MAX)%nat with true
      by (symmetry; apply Nat.ltb_lt; lia).
    now rewrite app_nil_r.
  - inversion Hs as [|? ? Hx Hs']; subst. simpl in Hlen, Hmax.
    replace (Z.of_nat (length output) <? max_reads) with true
      by (symmetry; apply Z.ltb_lt; lia).
    replace (Ascii.eqb x delim) with false
      by (symmetry; now apply Ascii.eqb_neq).
    replace (length output <? NAME_MAX)%nat with true
      by (symmetry; apply Nat.ltb_lt; lia).
    rewrite IH; auto.
    + now rewrite <- app_assoc.
    + rewrite length_app. simpl. lia.
    + rewrite length_app. simpl. lia.
Qed.

(** A field of exactly [max_reads] bytes: nothing is read beyond it. *)
Lemma next_block_exact (delim : ascii) (rest : bytes) :
  forall s output,
    Forall (fun x => x <> delim) s ->
    (length output + length s < NAME_MAX)%nat ->
    next_block (s ++ rest) output delim (Z.of_nat (length output + length s))
    = Ok (output ++ s, rest).
Proof.
  induction s as [|x s IH]; intros output Hs Hlen.
  - rewrite Nat.add_0_r, app_nil_r. simpl app. simpl in Hlen.
    assert (Hc : next_block_close output rest = Ok (output, rest)).
    { unfold next_block_close.
      replace (length output <? NAME_MAX)%nat with true
        by (symmetry; apply Nat.ltb_lt; lia). reflexivity. }
    destruct rest as [|b rest]; simpl; auto.
    now rewrite Z.ltb_irrefl.
  - inversion Hs as [|? ? Hx Hs']; subst. simpl in Hlen. simpl.
    replace (Z.of_nat (length output) <? Z.of_nat (length output + S (length s)))
      with true by (symmetry; apply Z.ltb_lt; lia).
    replace (Ascii.eqb x delim) with false
      by (symmetry; now apply Ascii.eqb_neq).
    replace (length output <? NAME_MAX)%nat with true
      by (symmetry; apply Nat.ltb_lt; lia).
    specialize (IH (output ++ [x]) Hs').
    rewrite length_app in IH. simpl in IH.
    replace (length output + 1 + length s)%nat
      with (length output + S (length s))%nat in IH by lia.
    rewrite IH by lia. now rewrite <- app_assoc.
Qed.

(** With nothing to read, or nothing allowed, nothing is stored. *)
Lemma next_block_nil (delim : ascii) (max_reads : Z) :
  next_block [] [] delim max_reads = Ok ([], []).
Proof. reflexivity. Qed.

Lemma next_block_zero (fp : bytes) (delim : ascii) :
  next_block fp [] delim 0 = Ok ([], fp).
Proof. destruct fp; reflexivity. Qed.






(** A payload that is all there is copied as it is. *)
Lemma copy_payload_exact : forall d rest buffer written,
  copy_payload (length d) (d ++ rest) buffer written = Ok (written ++ d, rest).
Proof.
  induction d as [|b d IH]; intros rest buffer written; simpl.
  - now rewrite app_nil_r.
  - rewrite IH. now rewrite <- app_assoc.
Qed.

Lemma copy_stream_app : forall infp written,
  copy_stream infp written = written ++ infp.
Proof.
  induction infp as [|b infp IH]; intros written; simpl.
  - now rewrite app_nil_r.
  - rewrite IH. now rewrite <- app_assoc.
Qed.


(** ** The file system: lookups and updates *)

Lemma get_app (p q : path) : forall n,
  get n (p ++ q) = match get n p with Some m => get m q | None => None end.
Proof.
  induction p as [|c p IH]; intros n; simpl; auto.
  destruct n; auto. destruct (assoc c entries); auto.
Qed.

Lemma assoc_app (c : name) (es es' : list (name * node)) :
  assoc c (es ++ es')
  = match assoc c es with Some n => Some n | None => assoc c es' end.
Proof.
  induction es as [|[c' n] es IH]; simpl; auto.
  destruct (bytes_eqb c c'); auto.
Qed.

Lemma assoc_fresh_snoc (c : name) (X : node) (es : list (name * node)) :
  assoc c es = None -> assoc c (es ++ [(c, X)]) = Some X.
Proof. intros H. rewrite assoc_app, H. simpl. now rewrite bytes_eqb_refl. Qed.

Lemma assoc_none (c : name) (es : list (name * node)) :
  assoc c es = None <-> existsb (bytes_eqb c) (map fst es) = false.
Proof.
  induction es as [|[c' n] es IH]; simpl.
  - split; auto.
  - destruct (bytes_eqb c c'); simpl; [split; discriminate|exact IH].
Qed.

Lemma alter_ext_at (f g : node -> node) (c : name) (es : list (name * node)) :
  (forall n, assoc c es = Some n -> f n = g n) -> alter f c es = alter g c es.
Proof.
  induction es as [|[c' n] es IH]; intros H; simpl in *; auto.
  destruct (bytes_eqb c c').
  - now rewrite (H n eq_refl).
  - now rewrite IH.
Qed.

Lemma alter_alter (f g : node -> node) (c : name) (es : list (name * node)) :
  alter g c (alter f c es) = alter (fun n => g (f n)) c es.
Proof.
  induction es as [|[c' n] es IH]; simpl; auto.
  destruct (bytes_eqb c c') eqn:E; simpl; rewrite E; auto. now rewrite IH.
Qed.

Lemma assoc_alter (f : node -> node) (c : name) (es : list (name * node)) :
  assoc c (alter f c es)
  = match assoc c es with Some n => Some (f n) | None => None end.
Proof.
  induction es as [|[c' n] es IH]; simpl; auto.
  destruct (bytes_eqb c c') eqn:E; simpl; rewrite E; auto.
Qed.

Lemma alter_fresh (f : node -> node) (c : name) (es : list (name * node)) :
  assoc c es = None -> alter f c es = es.
Proof.
  induction es as [|[c' n] es IH]; simpl; auto.
  destruct (bytes_eqb c c'); [discriminate|]. intros H. now rewrite IH.
Qed.

Lemma alter_fresh_snoc (f : node -> node) (c : name) (X : node)
      (es : list (name * node)) :
  assoc c es = None -> alter f c (es ++ [(c, X)]) = es ++ [(c, f X)].
Proof.
  induction es as [|[c' n] es IH]; simpl.
  - now rewrite bytes_eqb_refl.
  - destruct (bytes_eqb c c'); [discriminate|]. intros H. now rewrite IH.
Qed.

Lemma update_ext_at (p : path) : forall R f g,
  (forall n, get R p = Some n -> f n = g n) -> update R p f = update R p g.
Proof.
  induction p as [|c p IH]; intros R f g H; simpl in *.
  - now apply H.
  - destruct R; auto. f_equal. apply alter_ext_at. intros n Hn.
    apply IH. intros m Hm. apply H. now rewrite Hn.
Qed.

Lemma update_app (p q : path) : forall R f,
  update R (p ++ q) f = update R p (fun n => update n q f).
Proof.
  induction p as [|c p IH]; intros R f; simpl; auto.
  destruct R; auto. f_equal. apply alter_ext_at. intros n _. apply IH.
Qed.

Lemma update_twice (p : path) : forall R f g,
  update (update R p f) p g = update R p (fun n => g (f n)).
Proof.
  induction p as [|c p IH]; intros R f g; simpl; auto.
  destruct R; auto. simpl. f_equal. rewrite alter_alter.
  apply alter_ext_at. intros n _. apply IH.
Qed.

Lemma get_update (p : path) : forall R f n,
  get R p = Some n -> get (update R p f) p = Some (f n).
Proof.
  induction p as [|c p IH]; intros R f n H; simpl in *.
  - congruence.
  - destruct R; try discriminate. simpl. rewrite assoc_alter.
    destruct (assoc c entries); [|discriminate]. now apply IH.
Qed.

(** *** A new entry in the directory at [D] *)

Section Extend.
Variables (R : node) (D : path) (es : list (name * node)) (c : name).
Hypothesis HD : get R D = Some (Dir es).
Hypothesis Hc : assoc c es = None.

Lemma extend_dir (X : node) :
  get (update R D (add_entry c X)) D = Some (Dir (es ++ [(c, X)])).
Proof. now rewrite (get_update D R _ _ HD). Qed.

Lemma extend_get (X : node) :
  get (update R D (add_entry c X)) (D ++ [c]) = Some X.
Proof.
  rewrite get_app, extend_dir. simpl. now rewrite assoc_fresh_snoc.
Qed.

Lemma extend_update (X : node) (f : node -> node) :
  update (update R D (add_entry c X)) (D ++ [c]) f
  = update R D (add_entry c (f X)).
Proof.
  rewrite update_app, update_twice. apply update_ext_at.
  intros n Hn. rewrite HD in Hn. inversion Hn; subst. simpl.
  now rewrite alter_fresh_snoc.
Qed.

Lemma fresh_get : get R (D ++ [c]) = None.
Proof. rewrite get_app, HD. simpl. now rewrite Hc. Qed.
End Extend.

(** ** Path names made of one entry name *)

Lemma entry_name_spec (c : name) :
  entry_name c = true ->
  c <> [] /\ Forall (fun x => x <> SLASH) c /\ Forall (fun x => x <> NUL) c
  /\ c <> DOT /\ c <> DOTDOT.
Proof.
  unfold entry_name. rewrite !andb_true_iff, !negb_true_iff.
  intros (((((H1 & H2) & H3) & H4) & H5) & _).
  repeat split; try (now apply bytes_eqb_false); now apply has_byte_false.
Qed.

Lemma entry_name_short (c : name) :
  entry_name c = true ->
  too_long c = false /\ (length c <= FS_NAME_MAX)%nat
  /\ path_too_long c = false.
Proof.
  unfold entry_name. rewrite !andb_true_iff, !negb_true_iff.
  intros (_ & H). assert (L : (length c <= FS_NAME_MAX)%nat).
  { unfold too_long in H. now apply Nat.ltb_ge in H. }
  repeat split; auto.
  unfold path_too_long. apply Z.leb_gt.
  unfold FS_NAME_MAX, PATH_MAX in *. lia.
Qed.

Lemma split_path_plain (s : bytes) : forall cur rest,
  Forall (fun x => x <> SLASH) s ->
  split_path cur (s ++ rest) = split_path (cur ++ s) rest.
Proof.
  induction s as [|x s IH]; intros cur rest H; simpl.
  - now rewrite app_nil_r.
  - inversion H as [|? ? Hx Hs]; subst.
    replace (Ascii.eqb x SLASH) with false by (symmetry; now apply Ascii.eqb_neq).
    rewrite IH by auto. now rewrite <- app_assoc.
Qed.

Lemma components_name (c : name) :
  Forall (fun x => x <> SLASH) c -> components c = [c].
Proof.
  intros H. unfold components.
  rewrite <- (app_nil_r c) at 1. now rewrite split_path_plain.
Qed.

Lemma components_name_slash (c : name) :
  Forall (fun x => x <> SLASH) c -> components (c ++ [SLASH]) = [c; []].
Proof. intros H. unfold components. now rewrite split_path_plain. Qed.

Lemma is_absolute_name (c rest : bytes) :
  c <> [] -> Forall (fun x => x <> SLASH) c -> is_absolute (c ++ rest) = false.
Proof.
  intros Hn H. destruct c as [|x c]; [congruence|]. simpl.
  inversion H; subst. now apply Ascii.eqb_neq.
Qed.

Lemma namei_from_walk (fuel : nat) (root : node) :
  exists follow, namei_from fuel root = walk root follow.
Proof. destruct fuel; simpl; eauto. Qed.

Section WalkName.
Variables (root : node) (follow : path -> list name -> walked).
Variables (cur : path) (c : name).
Hypothesis Hname : entry_name c = true.

Lemma path_short (s : bytes) :
  Z.of_nat (length s) < PATH_MAX -> path_too_long s = false.
Proof. intros H. unfold path_too_long. now apply Z.leb_gt. Qed.

Lemma namei_short (R : node) (D : path) (s : bytes) :
  s <> [] -> path_too_long s = false ->
  namei R D s
  = namei_from SYMLOOP_MAX R (if is_absolute s then [] else D) (components s).
Proof.
  intros Hs Hp. unfold namei. rewrite Hp. destruct s; [congruence|reflexivity].
Qed.

Lemma namei_long (R : node) (D : path) (s : bytes) :
  path_too_long s = true -> namei R D s = NoEntry.
Proof. intros Hp. unfold namei. rewrite Hp. now destruct s. Qed.

Lemma mkdir_long (R : node) (D : path) (s : bytes) (mode : Z) :
  path_too_long s = true -> mkdir R D s mode = None.
Proof. intros Hp. unfold mkdir. rewrite Hp. now destruct s. Qed.

Lemma mkdir_short (R : node) (D : path) (s : bytes) (mode : Z) :
  s <> [] -> path_too_long s = false ->
  mkdir R D s mode
  = match strip_trailing_empty (rev (components s)) with
    | [] => None
    | c :: rev_parent =>
        if bytes_eqb c DOT || bytes_eqb c DOTDOT then None
        else if too_long c then None
        else
          match namei_from SYMLOOP_MAX R
                  (if is_absolute s then [] else D) (rev rev_parent) with
          | Found parent =>
              match get R parent, get R (parent ++ [c]) with
              | Some (Dir _), None =>
                  Some (update R parent (add_entry c (Dir [])))
              | _, _ => None
              end
          | _ => None
          end
    end.
Proof.
  intros Hs Hp. unfold mkdir. rewrite Hp. destruct s; [congruence|reflexivity].
Qed.

Lemma name_tests : bytes_eqb c [] || bytes_eqb c DOT = false
                   /\ bytes_eqb c DOTDOT = false
                   /\ too_long c = false.
Proof.
  destruct (entry_name_spec c Hname) as (H1 & _ & _ & H4 & H5).
  destruct (entry_name_short c Hname) as (H6 & _).
  apply bytes_eqb_false in H1, H4, H5. now rewrite H1, H4, H5.
Qed.

Lemma walk_found (n : node) :
  get root (cur ++ [c]) = Some n -> is_lnk n = false ->
  walk root follow cur [c] = Found (cur ++ [c]).
Proof.
  intros Hg Hl. destruct name_tests as (T1 & T2 & T3). simpl.
  rewrite T1, T2, T3, Hg.
  destruct n; simpl in *; auto. discriminate.
Qed.

Lemma walk_found_slash (es : list (name * node)) :
  get root (cur ++ [c]) = Some (Dir es) ->
  walk root follow cur [c; []] = Found (cur ++ [c]).
Proof.
  intros Hg. destruct name_tests as (T1 & T2 & T3). simpl.
  now rewrite T1, T2, T3, Hg.
Qed.

Lemma walk_missing (es : list (name * node)) :
  get root cur = Some (Dir es) -> assoc c es = None ->
  walk root follow cur [c] = Missing cur c.
Proof.
  intros Hd Hc. destruct name_tests as (T1 & T2 & T3). simpl.
  now rewrite T1, T2, T3, (fresh_get root cur es c Hd Hc), Hd.
Qed.
End WalkName.

Section Syscalls.
Variables (R : node) (D : path) (c : name).
Hypothesis Hname : entry_name c = true.

Lemma namei_name :
  namei R D c = namei_from SYMLOOP_MAX R D [c].
Proof.
  destruct (entry_name_spec c Hname) as (H1 & H2 & _).
  destruct (entry_name_short c Hname) as (_ & _ & Hp).
  rewrite namei_short, components_name by auto.
  rewrite <- (app_nil_r c) at 1. now rewrite is_absolute_name.
Qed.

Lemma namei_name_slash :
  namei R D (c ++ [SLASH]) = namei_from SYMLOOP_MAX R D [c; []].
Proof.
  destruct (entry_name_spec c Hname) as (H1 & H2 & _).
  destruct (entry_name_short c Hname) as (_ & Hlen & _).
  assert (Hp : path_too_long (c ++ [SLASH]) = false).
  { apply path_short. rewrite length_app. simpl.
    unfold FS_NAME_MAX, PATH_MAX in *. lia. }
  rewrite namei_short, components_name_slash by (auto; now destruct c).
  now rewrite is_absolute_name.
Qed.

Lemma namei_found (n : node) :
  get R (D ++ [c]) = Some n -> is_lnk n = false ->
  namei R D c = Found (D ++ [c]).
Proof.
  intros Hg Hl. rewrite namei_name.
  destruct (namei_from_walk SYMLOOP_MAX R) as [follow ->].
  now apply walk_found with n.
Qed.

Lemma namei_missing (es : list (name * node)) :
  get R D = Some (Dir es) -> assoc c es = None -> namei R D c = Missing D c.
Proof.
  intros Hd Hc. rewrite namei_name.
  destruct (namei_from_walk SYMLOOP_MAX R) as [follow ->].
  now apply walk_missing with es.
Qed.

Lemma stat_found (n : node) :
  get R (D ++ [c]) = Some n -> is_lnk n = false ->
  stat R D c = Some {| st_node := n; st_size := size_of n |}.
Proof. intros Hg Hl. unfold stat. now rewrite (namei_found n Hg Hl), Hg. Qed.

Lemma stat_missing (es : list (name * node)) :
  get R D = Some (Dir es) -> assoc c es = None -> stat R D c = None.
Proof. intros Hd Hc. unfold stat. now rewrite (namei_missing es Hd Hc). Qed.

Lemma chdir_into (es : list (name * node)) :
  get R (D ++ [c]) = Some (Dir es) -> chdir R D c = D ++ [c].
Proof.
  intros Hg. unfold chdir. now rewrite (namei_found (Dir es) Hg eq_refl), Hg.
Qed.

Lemma chdir_into_slash (es : list (name * node)) :
  get R (D ++ [c]) = Some (Dir es) -> chdir R D (c ++ [SLASH]) = D ++ [c].
Proof.
  intros Hg. unfold chdir. rewrite namei_name_slash.
  destruct (namei_from_walk SYMLOOP_MAX R) as [follow ->].
  now rewrite (walk_found_slash R follow D c Hname es Hg), Hg.
Qed.

Lemma opendir_found (es : list (name * node)) :
  get R (D ++ [c]) = Some (Dir es) ->
  opendir R D c = Some (DOT :: DOTDOT :: map fst es).
Proof.
  intros Hg. unfold opendir. now rewrite (namei_found (Dir es) Hg eq_refl), Hg.
Qed.

Lemma fopen_r_found (d : bytes) :
  get R (D ++ [c]) = Some (Reg d) -> fopen_r R D c = Some d.
Proof.
  intros Hg. unfold fopen_r. now rewrite (namei_found (Reg d) Hg eq_refl), Hg.
Qed.

Lemma fopen_w_missing (es : list (name * node)) :
  get R D = Some (Dir es) -> assoc c es = None ->
  fopen_w R D c
  = Opened (update R D (add_entry c (Reg []))) (ToFile (D ++ [c])).
Proof. intros Hd Hc. unfold fopen_w. now rewrite (namei_missing es Hd Hc). Qed.

Lemma mkdir_missing (es : list (name * node)) (mode : Z) :
  get R D = Some (Dir es) -> assoc c es = None ->
  mkdir R D c mode = Some (update R D (add_entry c (Dir []))).
Proof.
  intros Hd Hc. destruct (entry_name_spec c Hname) as (H1 & H2 & _ & H4 & H5).
  destruct (entry_name_short c Hname) as (Hs & _ & Hp).
  unfold mkdir. destruct c as [|x c'] eqn:E; [congruence|]. rewrite <- E in *.
  rewrite Hp, components_name by auto. simpl rev. simpl strip_trailing_empty.
  pose proof H1 as Hne.
  apply bytes_eqb_false in H1, H4, H5. rewrite H1, H4, H5, Hs. simpl "||".
  cbv iota. simpl rev.
  destruct (namei_from_walk SYMLOOP_MAX R) as [follow ->]. simpl walk.
  rewrite <- (app_nil_r c) at 1. rewrite is_absolute_name by auto.
  now rewrite Hd, (fresh_get R D es c Hd Hc).
Qed.
End Syscalls.

Lemma chdir_dotdot (R : node) (D : path) (c : name) (es : list (name * node)) :
  get R D = Some (Dir es) -> chdir R (D ++ [c]) DOTDOT = D.
Proof.
  intros Hd. unfold chdir.
  change (namei R (D ++ [c]) DOTDOT)
    with (namei_from SYMLOOP_MAX R (D ++ [c]) [DOTDOT]).
  destruct (namei_from_walk SYMLOOP_MAX R) as [follow ->].
  simpl. rewrite removelast_last. now rewrite Hd.
Qed.

Lemma mkpath_loop_plain (R : node) (cwd : path) (mode : Z) (s : bytes) :
  forall tmp rest,
    Forall (fun x => x <> SLASH) s ->
    mkpath_loop R cwd tmp (s ++ rest) mode
    = mkpath_loop R cwd (tmp ++ s) rest mode.
Proof.
  induction s as [|x s IH]; intros tmp rest H; simpl.
  - now rewrite app_nil_r.
  - inversion H as [|? ? Hx Hs]; subst.
    replace (Ascii.eqb x SLASH) with false by (symmetry; now apply Ascii.eqb_neq).
    rewrite IH by auto. now rewrite <- app_assoc.
Qed.

(** [mkpath] on a name that its directory does not hold: the directory
    is made. *)
Lemma mkpath_missing (R : node) (D : path) (c : name) (mode : Z)
      (es : list (name * node)) :
  entry_name c = true -> get R D = Some (Dir es) -> assoc c es = None ->
  mkpath R D (c ++ [SLASH]) mode = (0, update R D (add_entry c (Dir []))).
Proof.
  intros Hname Hd Hc. destruct (entry_name_spec c Hname) as (_ & H2 & _).
  unfold mkpath. rewrite mkpath_loop_plain by auto. simpl.
  rewrite (stat_missing R D c Hname es Hd Hc).
  now rewrite (mkdir_missing R D c Hname es mode Hd Hc).
Qed.

(** ** What every run of [pack] adds to the archive *)

Lemma nest_app (a b : list event) : forall stack,
  nest stack (a ++ b)
  = match nest stack a with Some s => nest s b | None => None end.
Proof.
  induction a as [|e a IH]; intros stack; simpl; auto.
  destruct e.
  - destruct (below stack depth); auto.
  - destruct (below stack depth); auto.
  - destruct stack as [|top stack]; auto. destruct (depth =? top); auto.
Qed.

Lemma render_app (a b : list event) : render (a ++ b) = render a ++ render b.
Proof. unfold render. now rewrite flat_map_app. Qed.

Lemma appended_refl (depth : Z) (w w' : pworld) :
  p_log w' = p_log w -> p_out w' = p_out w -> appended depth w w'.
Proof.
  intros Hl Ho. exists []. simpl. rewrite !app_nil_r. repeat split; auto.
Qed.

Lemma appended_trans (depth : Z) (w1 w2 w3 : pworld) :
  appended depth w1 w2 -> appended depth w2 w3 -> appended depth w1 w3.
Proof.
  intros (e1 & L1 & O1 & F1 & N1) (e2 & L2 & O2 & F2 & N2).
  exists (e1 ++ e2). repeat split.
  - now rewrite L2, L1, app_assoc.
  - now rewrite O2, O1, render_app, app_assoc.
  - apply Forall_app. now split.
  - intros stack Hs. rewrite nest_app, (N1 stack Hs). now apply N2.
Qed.

Lemma stat_nonempty (root : node) (cwd : path) (fn : bytes) (st : stat_t) :
  stat root cwd fn = Some st -> fn <> [].
Proof. intros H ->. discriminate H. Qed.

Lemma stat_reg_fopen (root : node) (cwd : path) (fn : bytes) (st : stat_t)
      (infp : bytes) :
  stat root cwd fn = Some st -> S_ISREG st = true ->
  fopen_r root cwd fn = Some infp ->
  st_size st = N.of_nat (length infp).
Proof.
  unfold stat, fopen_r, S_ISREG. intros Hs Hr Hf.
  destruct (namei root cwd fn); try discriminate.
  destruct (get root p) as [n|]; try discriminate.
  inversion Hs; subst. simpl in *.
  destruct n; try discriminate. now inversion Hf.
Qed.

Lemma readdir_loop_appended (child : bytes -> pworld -> outcome pworld)
      (depth : Z) :
  (forall d w w', child d w = Ok w' -> appended depth w w') ->
  forall ds w w', readdir_loop child ds w = Ok w' -> appended depth w w'.
Proof.
  intros Hchild. induction ds as [|d ds IH]; intros w w' H; simpl in H.
  - inversion H; subst. now apply appended_refl.
  - destruct (strcmp_eq d DOT || strcmp_eq d DOTDOT); [now apply IH|].
    destruct (child d w) as [w1| | | |] eqn:E; try discriminate. simpl in H.
    apply appended_trans with w1; [now apply Hchild with d|now apply IH].
Qed.

Lemma below_push (stack : list Z) (depth : Z) :
  below (depth :: stack) (depth + 1) = true.
Proof. simpl. apply Z.eqb_refl. Qed.

(** Every run of [pack] that returns has added faithful, matched frames,
    whatever the file system holds. *)
Lemma pack_appended (root : node) : forall fuel fn depth w w',
  pack fuel root fn depth w = Ok w' -> appended depth w w'.
Proof.
  induction fuel as [|fuel IH]; intros fn depth w w' H; [discriminate|].
  simpl in H.
  destruct (stat root (p_cwd w) fn) as [st|] eqn:Est; [|discriminate].
  pose proof (stat_nonempty _ _ _ _ Est) as Hne.
  destruct (S_ISDIR st) eqn:Edir.
  - simpl p_cwd in H.
    destruct (opendir root (p_cwd w) fn) as [indir|]; [|discriminate].
    match type of H with
    | bind (readdir_loop ?child ?ds ?w0) _ = _ =>
        destruct (readdir_loop child ds w0) as [w1| | | |] eqn:Eloop;
          try discriminate;
          apply (readdir_loop_appended child (depth + 1)) in Eloop;
          [|intros d v v' Hv; now apply IH in Hv]
    end.
    simpl in H. inversion H; subst; clear H.
    destruct Eloop as (evs & L & O & F & N). simpl in L, O.
    exists (EvDir depth (strlen fn + 1) fn :: evs ++ [EvEnd depth]).
    simpl p_log. simpl p_out. repeat split.
    + rewrite L. now rewrite <- !app_assoc.
    + rewrite O. change (EvDir depth (strlen fn + 1) fn :: evs ++ [EvEnd depth])
        with ([EvDir depth (strlen fn + 1) fn] ++ evs ++ [EvEnd depth]).
      rewrite !render_app. simpl render. rewrite !app_nil_r.
      assoc_eq.
    + constructor; [now split|]. apply Forall_app. split; auto.
      constructor; [exact I|constructor].
    + intros stack Hs. simpl. rewrite Hs, nest_app.
      rewrite (N (depth :: stack) (below_push stack depth)).
      simpl. now rewrite Z.eqb_refl.
  - destruct (S_ISREG st) eqn:Ereg.
    + simpl p_cwd in H.
      destruct (fopen_r root (p_cwd w) fn) as [infp|] eqn:Ef; [|discriminate].
      inversion H; subst; clear H. rewrite copy_stream_app. simpl app.
      exists [EvFile depth (strlen fn) fn (st_size st) infp].
      simpl. rewrite app_nil_r. repeat split; auto.
      * constructor; [|constructor]. repeat split; auto.
        now apply stat_reg_fopen with root (p_cwd w) fn.
      * intros stack Hs. now rewrite Hs.
    + inversion H; subst. now apply appended_refl.
Qed.

(** ** [pack] on a tree without symbolic links *)

Lemma grow_grow (w : pworld) (a b c a' b' c' : bytes) (l l' : list event) :
  grow (grow w a b c l) a' b' c' l' = grow w (a ++ a') (b ++ b') (c ++ c') (l ++ l').
Proof. unfold grow. simpl. now rewrite !app_assoc. Qed.

Lemma grow_nil (w : pworld) : grow w [] [] [] [] = w.
Proof. destruct w. unfold grow. simpl. now rewrite !app_nil_r. Qed.

Lemma assoc_in (es : list (name * node)) : forall c m,
  nodupb (map fst es) = true -> In (c, m) es -> assoc c es = Some m.
Proof.
  induction es as [|[c' m'] es IH]; intros c m Hn Hin; simpl in *; [contradiction|].
  apply andb_true_iff in Hn. destruct Hn as [Hfresh Hn].
  destruct Hin as [Heq|Hin].
  - inversion Heq; subst. now rewrite bytes_eqb_refl.
  - destruct (bytes_eqb c c') eqn:E.
    + apply bytes_eqb_true in E. subst c'.
      apply negb_true_iff in Hfresh.
      assert (existsb (bytes_eqb c) (map fst es) = true).
      { apply existsb_exists. exists c. split; [|apply bytes_eqb_refl].
        apply in_map_iff. now exists (c, m). }
      congruence.
    + now apply IH.
Qed.

Lemma height_child (es : list (name * node)) : forall c m,
  In (c, m) es -> (height m < height (Dir es))%nat.
Proof.
  simpl. induction es as [|[c' m'] es IH]; intros c m Hin; simpl in *; [contradiction|].
  destruct Hin as [Heq|Hin].
  - inversion Heq; subst. lia.
  - specialize (IH c m Hin). lia.
Qed.

Lemma entry_name_not_dots (c : name) :
  entry_name c = true -> strcmp_eq c DOT || strcmp_eq c DOTDOT = false.
Proof.
  intros H. destruct (entry_name_spec c H) as (_ & _ & _ & H4 & H5).
  unfold strcmp_eq. apply bytes_eqb_false in H4, H5. now rewrite H4, H5.
Qed.

Lemma readdir_loop_dots (child : bytes -> pworld -> outcome pworld)
      (ds : list name) (w : pworld) :
  readdir_loop child (DOT :: DOTDOT :: ds) w = readdir_loop child ds w.
Proof. reflexivity. Qed.

Lemma readdir_loop_tree (child : bytes -> pworld -> outcome pworld)
      (depth : Z) (D1 : path) :
  forall es,
    (forall c m w, In (c, m) es -> p_cwd w = D1 ->
       child c w = Ok (grow w (wire_entry c m) (listing depth c m)
                              (warnings c m) (frames depth c m))) ->
    Forall (fun cm => entry_name (fst cm) = true) es ->
    forall w, p_cwd w = D1 ->
      readdir_loop child (map fst es) w
      = Ok (grow w (flat_map (fun cm => wire_entry (fst cm) (snd cm)) es)
                   (flat_map (fun cm => listing depth (fst cm) (snd cm)) es)
                   (flat_map (fun cm => warnings (fst cm) (snd cm)) es)
                   (flat_map (fun cm => frames depth (fst cm) (snd cm)) es)).
Proof.
  induction es as [|[c m] es IH]; intros Hchild Hnames w Hw; simpl.
  - now rewrite grow_nil.
  - inversion Hnames as [|? ? Hc Hrest]; subst. simpl in Hc.
    rewrite (entry_name_not_dots c Hc).
    rewrite (Hchild c m w (or_introl eq_refl) eq_refl). simpl bind.
    rewrite IH; auto.
    + now rewrite grow_grow.
    + intros c' m' w' Hin Hw'. apply Hchild; auto. now right.
Qed.

Lemma wf_dir (es : list (name * node)) :
  wf (Dir es) = true ->
  nodupb (map fst es) = true
  /\ Forall (fun cm => entry_name (fst cm) = true) es
  /\ forall c m, In (c, m) es -> wf m = true.
Proof.
  simpl. rewrite andb_true_iff, forallb_forall. intros [Hn Hall].
  split; auto. split.
  - apply Forall_forall. intros cm Hin. specialize (Hall cm Hin).
    now apply andb_true_iff in Hall.
  - intros c m Hin. specialize (Hall (c, m) Hin).
    now apply andb_true_iff in Hall.
Qed.

(** On a tree of files, directories and special files, [pack] writes
    the wire format of the tree and comes back to the directory it
    started in. *)
Lemma pack_tree (root : node) : forall n c depth w fuel,
  wf n = true -> linkless n = true -> entry_name c = true ->
  get root (p_cwd w ++ [c]) = Some n ->
  (height n < fuel)%nat ->
  pack fuel root c depth w
  = Ok (grow w (wire_entry c n) (listing depth c n) (warnings c n)
               (frames depth c n)).
Proof.
  induction n as [d|t|k|es IH] using node_induction;
    intros c depth w fuel Hwf Hll Hc Hget Hfuel;
    (destruct fuel as [|fuel]; [lia|]); simpl pack.
  - rewrite (stat_found root (p_cwd w) c Hc (Reg d) Hget eq_refl).
    simpl. rewrite (fopen_r_found root (p_cwd w) c Hc d Hget).
    rewrite copy_stream_app. unfold grow, to_outfp, to_stdout. simpl.
    rewrite app_nil_r. reflexivity.
  - discriminate.
  - rewrite (stat_found root (p_cwd w) c Hc (Special k) Hget eq_refl).
    simpl. unfold grow, to_stderr. simpl. now rewrite !app_nil_r.
  - rewrite (stat_found root (p_cwd w) c Hc (Dir es) Hget eq_refl).
    simpl S_ISDIR. cbv iota. simpl p_cwd.
    rewrite (opendir_found root (p_cwd w) c Hc es Hget).
    rewrite (chdir_into root (p_cwd w) c Hc es Hget).
    destruct (wf_dir es Hwf) as (Hnd & Hnames & Hwfs).
    rewrite readdir_loop_dots.
    rewrite (readdir_loop_tree _ (depth + 1) (p_cwd w ++ [c]) es); auto.
    + simpl bind. unfold set_cwd, to_outfp, to_stdout, grow. simpl.
      assert (Hparent : exists es0, get root (p_cwd w) = Some (Dir es0)).
      { rewrite get_app in Hget. destruct (get root (p_cwd w)) as [[]|];
          try discriminate; eauto. }
      destruct Hparent as [es0 Hparent].
      rewrite (chdir_dotdot root (p_cwd w) c es0 Hparent).
      f_equal. f_equal; assoc_eq.
    + intros c' m w' Hin Hw'.
      rewrite Forall_forall in IH. apply (IH (c', m) Hin).
      * now apply Hwfs with c'.
      * simpl in Hll. rewrite forallb_forall in Hll. apply (Hll (c', m) Hin).
      * rewrite Forall_forall in Hnames. apply (Hnames (c', m) Hin).
      * rewrite Hw', get_app, Hget. simpl. now rewrite (assoc_in es c' m Hnd Hin).
      * pose proof (height_child es c' m Hin). simpl snd. lia.
Qed.

(** ** [unpack], frame by frame *)

Ltac step := cbv beta iota delta [bind].
Tactic Notation "proj" := cbn [u_fp u_root u_cwd u_depth u_stdout].
Tactic Notation "proj" "in" hyp(H) :=
  cbn [u_fp u_root u_cwd u_depth u_stdout] in H.

Lemma unpack_loop_step (fuel : nat) (s : ustate) :
  unpack_loop (S fuel) s = bind (unpack_frame s) (continue fuel).
Proof. reflexivity. Qed.

Lemma codec_name_spec (extra : nat) (c : name) :
  codec_name extra c = true ->
  Forall (fun x => x <> COLON) c /\ (length c + extra < NAME_MAX)%nat.
Proof.
  unfold codec_name. rewrite andb_true_iff, negb_true_iff.
  intros [H1 H2]. split; [now apply has_byte_false|now apply Nat.ltb_lt].
Qed.

Lemma next_block_decimal (n : N) (rest : bytes) :
  (n < 2 ^ 64)%N ->
  next_block (print_ld n ++ COLON :: rest) [] COLON (Z.of_nat NAME_MAX)
  = Ok (print_ld n, rest).
Proof.
  intros Hn. pose proof (print_ld_short n Hn) as Hs.
  rewrite next_block_delim; auto.
  - apply print_ld_no. reflexivity.
  - simpl length. lia.
Qed.

Lemma small_N (k : nat) : (k <= NAME_MAX)%nat -> (N.of_nat k < 2 ^ 64)%N.
Proof.
  intros H. apply N.le_lt_trans with (N.of_nat NAME_MAX); [lia|reflexivity].
Qed.

Lemma rev_last_not (c : bytes) (x y : ascii) (r : bytes) :
  Forall (fun a => a <> y) c -> rev c = x :: r -> Ascii.eqb x y = false.
Proof.
  intros H E. apply Ascii.eqb_neq. rewrite Forall_forall in H. apply H.
  apply in_rev. rewrite E. now left.
Qed.

Section Frames.
Variables (R : node) (D : path) (es : list (name * node)).
Variables (depth : Z) (out rest : bytes).
Hypothesis HD : get R D = Some (Dir es).

(** The sentinel: one level up. *)
Lemma frame_end (c : name) :
  unpack_frame {| u_root := R; u_cwd := D ++ [c];
                  u_fp := str "0:" ++ rest; u_depth := depth;
                  u_stdout := out |}
  = Ok {| u_root := R; u_cwd := D; u_fp := rest; u_depth := depth - 1;
          u_stdout := out |}.
Proof.
  unfold unpack_frame. proj.
  change (str "0:" ++ rest) with (print_ld 0 ++ COLON :: rest).
  rewrite next_block_decimal by reflexivity. step.
  change (atoi (cstr (print_ld 0))) with (@Ok Z 0). step.
  rewrite next_block_zero. step. simpl.
  now rewrite (chdir_dotdot R D c es HD).
Qed.

Variable c : name.
Hypothesis Hname : entry_name c = true.
Hypothesis Hfresh : assoc c es = None.

(** A directory frame: the directory is made and entered. *)
Lemma frame_dir :
  codec_name 1 c = true ->
  unpack_frame {| u_root := R; u_cwd := D;
                  u_fp := print_ld (strlen c + 1) ++ [COLON] ++ c ++ [SLASH]
                          ++ rest;
                  u_depth := depth; u_stdout := out |}
  = Ok {| u_root := update R D (add_entry c (Dir [])); u_cwd := D ++ [c];
          u_fp := rest; u_depth := depth + 1;
          u_stdout := out ++ indent depth ++ (c ++ [SLASH]) ++ [LF] |}.
Proof.
  intros Hcodec.
  destruct (codec_name_spec 1 c Hcodec) as [Hcolon Hlen].
  destruct (entry_name_spec c Hname) as (Hne & Hslash & Hnul & _).
  assert (Hn : (strlen c + 1 = N.of_nat (length c + 1))%N)
    by (unfold strlen; lia).
  unfold unpack_frame. proj. simpl app at 2.
  rewrite next_block_decimal by (rewrite Hn; apply small_N; lia).
  step.
  rewrite atoi_print_ld by (rewrite Hn; unfold NAME_MAX, INT_MAX in *; lia).
  step.
  replace (Z.of_N (strlen c + 1)) with (Z.of_nat (length (@nil ascii) + length (c ++ [SLASH])))
    by (rewrite length_app; unfold strlen; simpl; lia).
  replace (c ++ SLASH :: rest) with ((c ++ [SLASH]) ++ rest)
    by (now rewrite <- app_assoc).
  rewrite (next_block_exact COLON rest (c ++ [SLASH]) []).
  - step. simpl app.
    assert (Hcs : cstr (c ++ [SLASH]) = c ++ [SLASH]).
    { apply cstr_id. apply Forall_app. split; auto.
      constructor; [discriminate|constructor]. }
    rewrite Hcs. rewrite rev_app_distr. simpl rev. simpl app.
    replace (_ =? 0) with false
      by (symmetry; apply Z.eqb_neq; rewrite length_app; simpl; lia).
    rewrite Ascii.eqb_refl.
    rewrite (mkpath_missing R D c 448 es Hname HD Hfresh).
    simpl negb. cbv iota. proj.
    rewrite (chdir_into_slash _ D c Hname [] (extend_get R D es c HD Hfresh (Dir []))).
    reflexivity.
  - apply Forall_app. split; auto. constructor; [discriminate|constructor].
  - rewrite length_app. simpl. lia.
Qed.

(** A file frame: the file is made with its payload. *)
Lemma frame_file (d : bytes) :
  codec_name 0 c = true -> Z.of_nat (length d) <= INT_MAX ->
  unpack_frame {| u_root := R; u_cwd := D;
                  u_fp := print_ld (strlen c) ++ [COLON] ++ c
                          ++ print_ld (N.of_nat (length d)) ++ [COLON] ++ d
                          ++ rest;
                  u_depth := depth; u_stdout := out |}
  = Ok {| u_root := update R D (add_entry c (Reg d)); u_cwd := D;
          u_fp := rest; u_depth := depth;
          u_stdout := out ++ indent depth ++ c ++ [LF] |}.
Proof.
  intros Hcodec Hsize.
  destruct (codec_name_spec 0 c Hcodec) as [Hcolon Hlen].
  destruct (entry_name_spec c Hname) as (Hne & Hslash & Hnul & _).
  unfold unpack_frame. proj. simpl app at 2.
  rewrite next_block_decimal by (apply small_N; lia).
  step.
  rewrite atoi_print_ld by (unfold strlen, NAME_MAX, INT_MAX in *; lia).
  step.
  replace (Z.of_N (strlen c)) with (Z.of_nat (length (@nil ascii) + length c))
    by (unfold strlen; simpl; lia).
  rewrite next_block_exact by (auto; simpl; lia).
  step. simpl app. rewrite (cstr_id c Hnul).
  replace (_ =? 0) with false
    by (symmetry; apply Z.eqb_neq; destruct c; [congruence|simpl; lia]).
  destruct (rev c) as [|x r] eqn:Erev.
  { apply (f_equal (@rev ascii)) in Erev. rewrite rev_involutive in Erev.
    simpl in Erev. congruence. }
  rewrite (rev_last_not c x SLASH r Hslash Erev).
  proj.
  rewrite next_block_decimal.
  2:{ apply N.le_lt_trans with (Z.to_N INT_MAX); [lia|reflexivity]. }
  step. rewrite atoi_print_ld by lia. step.
  rewrite (fopen_w_missing R D c Hname es HD Hfresh).
  rewrite nat_N_Z, Nat2Z.id.
  rewrite copy_payload_exact. step. simpl fclose_w.
  now rewrite (extend_update R D es c HD Hfresh (Reg []) (fun _ => Reg d)).
Qed.
End Frames.

(** ** [unpack] on the archive of a tree *)

Lemma alter_id (c : name) (es : list (name * node)) :
  alter (fun n => n) c es = es.
Proof.
  induction es as [|[c' n] es IH]; simpl; auto.
  destruct (bytes_eqb c c'); auto. now rewrite IH.
Qed.

Lemma update_id (p : path) : forall R, update R p (fun n => n) = R.
Proof.
  induction p as [|c p IH]; intros R; simpl; auto.
  destruct R; auto. f_equal.
  rewrite (alter_ext_at _ (fun n => n)); [apply alter_id|].
  intros n _. apply IH.
Qed.

Lemma update_add_nil (R : node) (D : path) :
  update R D (add_entries []) = R.
Proof.
  rewrite (update_ext_at D R _ (fun n => n)); [apply update_id|].
  intros n _. destruct n; simpl; auto. now rewrite app_nil_r.
Qed.

Lemma update_add_cons (R : node) (D : path) (c : name) (X : node)
      (l : list (name * node)) :
  update (update R D (add_entry c X)) D (add_entries l)
  = update R D (add_entries ((c, X) :: l)).
Proof.
  rewrite update_twice. apply update_ext_at.
  intros n _. destruct n; simpl; auto. now rewrite <- app_assoc.
Qed.

Lemma continue_more (f : nat) (s : ustate) :
  u_fp s <> [] -> continue f s = unpack_loop f s.
Proof. unfold continue. destruct (u_fp s); congruence. Qed.

Lemma nodupb_cons (c : name) (l : list name) :
  nodupb (c :: l) = true ->
  nodupb l = true /\ forall c', In c' l -> bytes_eqb c' c = false.
Proof.
  simpl. rewrite andb_true_iff, negb_true_iff. intros [H1 H2]. split; auto.
  intros c' Hin. apply bytes_eqb_false. intros ->.
  assert (existsb (bytes_eqb c) l = true); [|congruence].
  apply existsb_exists. exists c. split; auto. apply bytes_eqb_refl.
Qed.

(** The entries of a directory, one after the other. *)
Lemma unpack_children : forall kids,
  Forall (fun cm => linkless (snd cm) = true
                    /\ (is_special (snd cm) = false ->
                        entry_decodes (fst cm) (snd cm))) kids ->
  nodupb (map fst kids) = true ->
  forall s done rest f,
    get (u_root s) (u_cwd s) = Some (Dir done) ->
    (forall c, In c (map fst kids) -> assoc c done = None) ->
    u_fp s = flat_map (fun cm => wire_entry (fst cm) (snd cm)) kids ++ rest ->
    rest <> [] ->
    unpack_loop (nframes_list kids + f) s
    = unpack_loop f
        {| u_root := update (u_root s) (u_cwd s)
                            (add_entries (prune_entries kids));
           u_cwd := u_cwd s;
           u_fp := rest;
           u_depth := u_depth s;
           u_stdout := u_stdout s
                       ++ flat_map (fun cm => listing (u_depth s) (fst cm) (snd cm))
                                   kids |}.
Proof.
  induction kids as [|[c m] kids IH];
    intros Hall Hnd s done rest f Hget Hfresh Hfp Hrest.
  - simpl. rewrite update_add_nil, app_nil_r. simpl in Hfp.
    rewrite <- Hfp. now destruct s.
  - inversion Hall as [|? ? [Hll Hdec] Hall']; subst. simpl in Hll, Hdec.
    simpl map in Hnd. destruct (nodupb_cons _ _ Hnd) as [Hnd' Hdiff].
    destruct (is_special m) eqn:Esp.
    + destruct m; try discriminate. simpl in Hfp.
      simpl nframes_list. simpl flat_map. unfold prune_entries. simpl flat_map.
      apply IH with done; auto.
      intros c' Hin. apply Hfresh. now right.
    + specialize (Hdec eq_refl).
      assert (Hc : assoc c done = None) by (apply Hfresh; now left).
      simpl nframes_list. rewrite <- Nat.add_assoc.
      rewrite (Hdec s done
                 (flat_map (fun cm => wire_entry (fst cm) (snd cm)) kids ++ rest)
                 (nframes_list kids + f)%nat Hget Hc).
      2:{ rewrite Hfp. simpl. now rewrite app_assoc. }
      rewrite continue_more.
      2:{ simpl. intros E. apply app_eq_nil in E. now destruct E. }
      rewrite (IH Hall' Hnd' _ (done ++ [(c, prune m)]) rest f).
      * f_equal. unfold placed. proj.
        rewrite update_add_cons. unfold prune_entries at 2. simpl flat_map.
        rewrite Esp. simpl app. f_equal. now rewrite <- app_assoc.
      * unfold placed. proj. now apply extend_dir.
      * intros c' Hin. rewrite assoc_app, (Hfresh c' (or_intror Hin)).
        simpl. now rewrite (Hdiff c' Hin).
      * reflexivity.
      * assumption.
Qed.

Lemma codec_ok_dir (c : name) (es : list (name * node)) :
  codec_ok c (Dir es) = true ->
  codec_name 1 c = true
  /\ forall c' m, In (c', m) es -> codec_ok c' m = true.
Proof.
  simpl. rewrite andb_true_iff, forallb_forall. intros [H1 H2]. split; auto.
  intros c' m Hin. apply (H2 (c', m) Hin).
Qed.

(** The archive of a tree of files, directories and special files is
    decoded into the tree without its special files. *)
Lemma unpack_entry : forall m c,
  wf m = true -> linkless m = true -> is_special m = false ->
  entry_name c = true -> codec_ok c m = true ->
  entry_decodes c m.
Proof.
  induction m as [d|t|k|kids IH] using node_induction;
    intros c Hwf Hll Hsp Hc Hok; try discriminate.
  - (* a regular file *)
    intros s es rest f Hget Hfresh Hfp.
    simpl in Hok. apply andb_true_iff in Hok. destruct Hok as [Hcn Hsz].
    apply Z.leb_le in Hsz.
    destruct s as [R D fp depth out]. proj in Hget. proj in Hfp. subst fp.
    simpl nframes. simpl Nat.add. rewrite unpack_loop_step.
    replace (wire_entry c (Reg d) ++ rest)
      with (print_ld (strlen c) ++ [COLON] ++ c
            ++ print_ld (N.of_nat (length d)) ++ [COLON] ++ d ++ rest)
      by (simpl wire_entry; assoc_eq).
    rewrite (frame_file R D es depth out rest Hget c Hc Hfresh d Hcn Hsz).
    reflexivity.
  - (* a directory *)
    intros s es rest f Hget Hfresh Hfp.
    destruct (codec_ok_dir c kids Hok) as [Hcn Hoks].
    destruct (wf_dir kids Hwf) as (Hnd & Hnames & Hwfs).
    destruct s as [R D fp depth out]. proj in Hget. proj in Hfp. subst fp.
    replace (nframes (Dir kids) + f)%nat with (S (nframes_list kids + S f))
      by (simpl; unfold nframes_list; lia).
    rewrite unpack_loop_step.
    replace (wire_entry c (Dir kids) ++ rest)
      with (print_ld (strlen c + 1) ++ [COLON] ++ c ++ [SLASH]
            ++ (flat_map (fun cm => wire_entry (fst cm) (snd cm)) kids
                ++ str "0:" ++ rest))
      by (simpl wire_entry; assoc_eq).
    rewrite (frame_dir R D es depth out _ Hget c Hc Hfresh Hcn).
    step. rewrite continue_more.
    2:{ proj. intros E. apply app_eq_nil in E. destruct E as [_ E].
        discriminate E. }
    pose proof (extend_get R D es c Hget Hfresh (Dir [])) as Hin1.
    rewrite (unpack_children kids) with (done := []) (rest := str "0:" ++ rest).
    + proj. rewrite unpack_loop_step.
      rewrite (extend_update R D es c Hget Hfresh (Dir [])
                 (add_entries (prune_entries kids))).
      simpl add_entries.
      rewrite (frame_end _ D (es ++ [(c, Dir (prune_entries kids))])).
      * step. unfold placed. proj. f_equal.
        replace (depth + 1 - 1) with depth by lia.
        f_equal. simpl listing. assoc_eq.
      * apply extend_dir; auto.
    + apply Forall_forall. intros [c' m] Hin. simpl. split.
      * simpl in Hll. rewrite forallb_forall in Hll. apply (Hll (c', m) Hin).
      * intros Hsp'. rewrite Forall_forall in IH. apply (IH (c', m) Hin).
        -- now apply Hwfs with c'.
        -- simpl in Hll. rewrite forallb_forall in Hll. apply (Hll (c', m) Hin).
        -- exact Hsp'.
        -- rewrite Forall_forall in Hnames. apply (Hnames (c', m) Hin).
        -- now apply Hoks.
    + exact Hnd.
    + proj. exact Hin1.
    + reflexivity.
    + proj. reflexivity.
    + discriminate.
Qed.

(** ** The frame loop always comes to an end *)







(** ** [mkpath] on a relative path name *)

Lemma slashed_app (a b : list name) : slashed (a ++ b) = slashed a ++ slashed b.
Proof.
  induction a as [|c a IH]; simpl; auto. rewrite IH. assoc_eq.
Qed.

Lemma Forall_entry_slash_free (cs : list name) :
  Forall (fun c => entry_name c = true) cs ->
  Forall (fun c => Forall (fun x => x <> SLASH) c) cs.
Proof.
  intros H. eapply Forall_impl; [|exact H].
  intros c Hc. now destruct (entry_name_spec c Hc) as (_ & H2 & _).
Qed.

Lemma split_path_slashed (cs : list name) : forall cur c,
  Forall (fun c => Forall (fun x => x <> SLASH) c) cs ->
  Forall (fun x => x <> SLASH) cur ->
  Forall (fun x => x <> SLASH) c ->
  cur = [] \/ cs = [] ->
  split_path cur (slashed cs ++ c)
  = match cs with
    | [] => [cur ++ c]
    | _ => cs ++ [c]
    end.
Proof.
  induction cs as [|d cs IH]; intros cur c Hcs Hcur Hc Hor; simpl.
  - rewrite <- (app_nil_r c) at 1. now rewrite split_path_plain.
  - destruct Hor as [->|]; [|discriminate].
    inversion Hcs as [|? ? Hd Hcs']; subst.
    replace ((d ++ SLASH :: slashed cs) ++ c)
      with (d ++ SLASH :: (slashed cs ++ c)) by assoc_eq.
    rewrite split_path_plain by auto.
    change (split_path ([] ++ d) (SLASH :: slashed cs ++ c))
      with (([] ++ d) :: split_path [] (slashed cs ++ c)).
    simpl app. f_equal.
    rewrite (IH [] c Hcs' (Forall_nil _) Hc (or_introl eq_refl)).
    destruct cs; reflexivity.
Qed.

Lemma components_slashed (cs : list name) (c : name) :
  Forall (fun c => entry_name c = true) cs -> entry_name c = true ->
  components (slashed cs ++ c) = cs ++ [c].
Proof.
  intros Hcs Hc. unfold components.
  rewrite split_path_slashed; auto.
  - now destruct cs.
  - now apply Forall_entry_slash_free.
  - now destruct (entry_name_spec c Hc) as (_ & H2 & _).
Qed.

Lemma is_absolute_slashed (cs : list name) (c : name) :
  Forall (fun c => entry_name c = true) cs -> entry_name c = true ->
  is_absolute (slashed cs ++ c) = false /\ slashed cs ++ c <> [].
Proof.
  intros Hcs Hc. destruct cs as [|d cs]; simpl.
  - destruct (entry_name_spec c Hc) as (H1 & H2 & _). split; auto.
    rewrite <- (app_nil_r c). now apply is_absolute_name.
  - inversion Hcs as [|? ? Hd _]; subst.
    destruct (entry_name_spec d Hd) as (H1 & H2 & _). split.
    + rewrite <- app_assoc. now apply is_absolute_name.
    + destruct d; [congruence|discriminate].
Qed.

Lemma chain_head (R : node) (D : path) (cs : list name) :
  chain R D cs -> exists es, get R D = Some (Dir es).
Proof. destruct cs; simpl; tauto. Qed.

Lemma chain_snoc (R : node) (cs : list name) : forall D c es,
  chain R D cs -> get R (D ++ cs ++ [c]) = Some (Dir es) ->
  chain R D (cs ++ [c]).
Proof.
  induction cs as [|d cs IH]; intros D c es [Hd Hrest] Hget; simpl in *.
  - split; auto. split; eauto.
  - split; auto. apply IH with es; auto. now rewrite <- app_assoc.
Qed.

Lemma walk_chain (R : node) (follow : path -> list name -> walked)
      (cs : list name) : forall D rest,
  Forall (fun c => entry_name c = true) cs -> chain R D cs ->
  walk R follow D (cs ++ rest) = walk R follow (D ++ cs) rest.
Proof.
  induction cs as [|c cs IH]; intros D rest Hcs Hch.
  - now rewrite app_nil_r.
  - inversion Hcs as [|? ? Hc Hcs']; subst. destruct Hch as [_ Hch].
    destruct (name_tests c Hc) as (T1 & T2 & T3).
    destruct (chain_head _ _ _ Hch) as [es Hes].
    simpl. rewrite T1, T2, T3, Hes. rewrite IH by auto. now rewrite <- app_assoc.
Qed.

Section Chain.
Variables (R : node) (D : path) (done : list name) (c : name).
Hypothesis Hdone : Forall (fun c => entry_name c = true) done.
Hypothesis Hc : entry_name c = true.
Hypothesis Hchain : chain R D done.
Hypothesis Hshort : path_too_long (slashed done ++ c) = false.

Lemma namei_chain : namei R D (slashed done ++ c) = namei R (D ++ done) c.
Proof.
  destruct (is_absolute_slashed done c Hdone Hc) as [Habs Hne].
  rewrite (namei_name R (D ++ done) c Hc).
  rewrite namei_short by auto. rewrite Habs, components_slashed by auto.
  destruct (namei_from_walk SYMLOOP_MAX R) as [follow ->].
  now apply walk_chain.
Qed.

Lemma stat_chain : stat R D (slashed done ++ c) = stat R (D ++ done) c.
Proof. unfold stat. now rewrite namei_chain. Qed.

Lemma mkdir_chain (mode : Z) :
  get R (D ++ done ++ [c]) = None ->
  mkdir R D (slashed done ++ c) mode
  = Some (update R (D ++ done) (add_entry c (Dir []))).
Proof.
  intros Hnone.
  destruct (is_absolute_slashed done c Hdone Hc) as [Habs Hne].
  destruct (entry_name_spec c Hc) as (H1 & _ & _ & H4 & H5).
  destruct (entry_name_short c Hc) as (Hs & _).
  apply bytes_eqb_false in H1, H4, H5.
  destruct (chain_head R (D ++ done) []) as [es Hes].
  { clear - Hchain. revert D Hchain.
    induction done as [|d ds IH]; intros D Hch.
    - rewrite app_nil_r. simpl in *. tauto.
    - destruct Hch as [_ Hch]. specialize (IH _ Hch).
      now rewrite <- app_assoc in IH. }
  rewrite mkdir_short by auto. rewrite Habs, components_slashed by auto.
  rewrite rev_app_distr. simpl rev. simpl app. simpl strip_trailing_empty.
  rewrite H1, H4, H5, Hs. simpl orb. cbv iota. rewrite rev_involutive.
  destruct (namei_from_walk SYMLOOP_MAX R) as [follow ->].
  rewrite <- (app_nil_r done) at 1. rewrite walk_chain by auto. simpl walk.
  cbv beta iota. rewrite Hes. rewrite <- app_assoc. now rewrite Hnone.
Qed.
End Chain.

Lemma is_dir_update (q : path) (f : node -> node) : forall n es,
  (forall es', exists es'', f (Dir es') = Dir es'') ->
  n = Dir es -> exists es', update n q f = Dir es'.
Proof.
  intros n es Hf ->. destruct q as [|c q]; simpl; eauto.
Qed.

Lemma get_update_prefix (p q : path) (f : node -> node) : forall R,
  get (update R (p ++ q) f) p
  = match get R p with Some n => Some (update n q f) | None => None end.
Proof.
  induction p as [|c p IH]; intros R; simpl; auto.
  destruct R; auto. simpl. rewrite assoc_alter.
  destruct (assoc c entries); auto.
Qed.

(** Making a directory further down keeps the directories of a chain. *)
Lemma chain_update (R : node) (X : node) (c : name) (cs : list name) :
  forall D more,
    chain R D cs ->
    chain (update R (D ++ cs ++ more) (add_entry c X)) D cs.
Proof.
  induction cs as [|d cs IH]; intros D more [[es Hes] Hrest]; simpl.
  - split; auto. rewrite get_update_prefix, Hes.
    destruct (is_dir_update more (add_entry c X) (Dir es) es) as [es' ->]; eauto.
    intros es'. simpl. eauto.
  - split.
    + rewrite get_update_prefix, Hes.
      destruct (is_dir_update (d :: cs ++ more) (add_entry c X) (Dir es) es)
        as [es' ->]; eauto.
      intros es'. simpl. eauto.
    + specialize (IH (D ++ [d]) more Hrest).
      now rewrite <- app_assoc in IH.
Qed.

Lemma mkpath_loop_slash (R : node) (D : path) (tmp p : bytes) (mode : Z) :
  mkpath_loop R D tmp (SLASH :: p) mode
  = match stat R D tmp with
    | None =>
        match mkdir R D tmp mode with
        | None => (-1, R)
        | Some R' => mkpath_loop R' D (tmp ++ [SLASH]) p mode
        end
    | Some st =>
        if negb (S_ISDIR st) then (-1, R)
        else mkpath_loop R D (tmp ++ [SLASH]) p mode
    end.
Proof. reflexivity. Qed.

Lemma mkpath_loop_chain (D : path) (mode : Z) : forall cs done R R',
  Forall (fun c => entry_name c = true) done ->
  Forall (fun c => entry_name c = true) cs ->
  chain R D done ->
  Z.of_nat (length (slashed (done ++ cs))) <= PATH_MAX ->
  ensure R (D ++ done) cs = Some R' ->
  mkpath_loop R D (slashed done) (slashed cs) mode = (0, R')
  /\ chain R' D (done ++ cs).
Proof.
  induction cs as [|c cs IH]; intros done R R' Hdone Hcs Hch Hlen Hens.
  - simpl in *. inversion Hens; subst. now rewrite app_nil_r.
  - inversion Hcs as [|? ? Hc Hcs']; subst.
    destruct (entry_name_spec c Hc) as (_ & Hslash & _).
    assert (Hp : path_too_long (slashed done ++ c) = false).
    { apply path_short. rewrite slashed_app in Hlen. simpl slashed in Hlen.
      rewrite !length_app in *. simpl length in Hlen. lia. }
    assert (Hlen' : Z.of_nat (length (slashed ((done ++ [c]) ++ cs)))
                    <= PATH_MAX) by (now rewrite <- app_assoc).
    simpl slashed. rewrite mkpath_loop_plain by auto.
    change ([SLASH] ++ slashed cs) with (SLASH :: slashed cs).
    rewrite mkpath_loop_slash.
    rewrite (stat_chain R D done c Hdone Hc Hch Hp).
    assert (Hdone' : Forall (fun c => entry_name c = true) (done ++ [c]))
      by (apply Forall_app; split; auto).
    assert (Hsl : (slashed done ++ c) ++ [SLASH] = slashed (done ++ [c])).
    { rewrite slashed_app. simpl slashed. assoc_eq. }
    replace (done ++ c :: cs) with ((done ++ [c]) ++ cs)
      by (now rewrite <- app_assoc).
    simpl in Hens. rewrite <- app_assoc in Hens.
    destruct (get R (D ++ done ++ [c])) as [n|] eqn:Eget.
    + destruct n as [|es| |]; try discriminate.
      rewrite app_assoc in Eget.
      rewrite (stat_found R (D ++ done) c Hc (Dir es) Eget eq_refl).
      simpl negb. cbv iota. rewrite Hsl.
      apply (IH (done ++ [c]) R R' Hdone' Hcs').
      * apply chain_snoc with es; auto. now rewrite <- app_assoc in Eget.
      * exact Hlen'.
      * exact Hens.
    + assert (Hpar : exists es, get R (D ++ done) = Some (Dir es)).
      { clear - Hch. revert D Hch.
        induction done as [|d ds IHd]; intros D Hch.
        - rewrite app_nil_r. simpl in *. tauto.
        - destruct Hch as [_ Hch]. specialize (IHd _ Hch).
          now rewrite <- app_assoc in IHd. }
      destruct Hpar as [es Hes].
      assert (Hfresh : assoc c es = None).
      { rewrite app_assoc, get_app, Hes in Eget. simpl in Eget.
        destruct (assoc c es); [discriminate|reflexivity]. }
      rewrite (stat_missing R (D ++ done) c Hc es Hes Hfresh).
      rewrite (mkdir_chain R D done c Hdone Hc Hch Hp mode Eget).
      rewrite Hsl.
      apply (IH (done ++ [c]) _ R' Hdone' Hcs').
      * apply chain_snoc with [].
        -- rewrite <- (app_nil_r done) at 1. apply chain_update.
           exact Hch.
        -- rewrite app_assoc. now apply extend_get with es.
      * exact Hlen'.
      * exact Hens.
Qed.

Lemma ensure_chain (cs : list name) : forall R D,
  chain R D cs -> ensure R D cs = Some R.
Proof.
  induction cs as [|c cs IH]; intros R D [_ Hch]; simpl; auto.
  destruct (chain_head _ _ _ Hch) as [es ->]. now apply IH.
Qed.

(** X23.  [mkpath] on a relative path name c1/.../cn/ of at most
    PATH_MAX bytes, whose components are entry names (not empty, no '/'
    or NUL, not "." or "..", at most 255 bytes) and, where they exist,
    directories: the result is 0, the missing directories are made and
    nothing else changes, every directory along the path exists
    afterwards, and a second call changes nothing. *)
Lemma mkpath_relative (R R' : node) (D : path) (cs : list name) (mode : Z)
      (es : list (name * node)) :
  get R D = Some (Dir es) ->
  Forall (fun c => entry_name c = true) cs ->
  Z.of_nat (length (slashed cs)) <= PATH_MAX ->
  ensure R D cs = Some R' ->
  mkpath R D (slashed cs) mode = (0, R')
  /\ chain R' D cs
  /\ mkpath R' D (slashed cs) mode = (0, R').
Proof.
  intros Hd Hcs Hlen Hens.
  assert (H0 : chain R D []) by (simpl; eauto).
  destruct (mkpath_loop_chain D mode cs [] R R' (Forall_nil _) Hcs H0 Hlen)
    as [H1 H2].
  { now rewrite app_nil_r. }
  simpl in H2. repeat split; auto.
  assert (H0' : chain R' D []) by (simpl; split; auto; now apply chain_head in H2).
  apply (mkpath_loop_chain D mode cs [] R' R' (Forall_nil _) Hcs H0' Hlen).
  rewrite app_nil_r. now apply ensure_chain.
Qed.

(** A component that exists and is a regular or special file stops
    [mkpath] with -1. *)
Lemma mkpath_blocked (R : node) (D : path) (c : name) (rest : bytes)
      (mode : Z) (n : node) :
  entry_name c = true -> get R (D ++ [c]) = Some n ->
  is_lnk n = false -> (forall es, n <> Dir es) ->
  mkpath R D (c ++ [SLASH] ++ rest) mode = (-1, R).
Proof.
  intros Hc Hget Hl Hn. destruct (entry_name_spec c Hc) as (_ & Hslash & _).
  unfold mkpath. rewrite mkpath_loop_plain by auto. simpl.
  rewrite (stat_found R D c Hc n Hget Hl).
  destruct n; simpl; auto. now destruct (Hn entries).
Qed.

(** ** The archive that [pack] writes *)

Lemma run_pack_log (fuel : nat) (root : node) (cwd : path) (fn : bytes)
      (depth : Z) (w : pworld) :
  run_pack fuel root cwd fn depth = Ok w ->
  p_out w = render (p_log w)
  /\ Forall faithful (p_log w)
  /\ forall stack, below stack depth = true -> nest stack (p_log w) = Some stack.
Proof.
  intros H. apply pack_appended in H.
  destruct H as (evs & L & O & F & N). simpl in L, O.
  rewrite L, O. auto.
Qed.

Lemma nest_count : forall log stack stack',
  nest stack log = Some stack' ->
  (length stack + count_dirs log = length stack' + count_ends log)%nat.
Proof.
  unfold count_dirs, count_ends.
  induction log as [|e log IH]; intros stack stack' H; simpl in H.
  - inversion H; subst. simpl. lia.
  - destruct e; simpl.
    + destruct (below stack depth); [|discriminate].
      apply IH in H. simpl in H. lia.
    + destruct (below stack depth); [|discriminate]. now apply IH in H.
    + destruct stack as [|top stack]; [discriminate|].
      destruct (depth =? top); [|discriminate].
      apply IH in H. simpl. lia.
Qed.

(** C3.  In every archive [pack] produces, the bytes are the frames of
    the log one after the other, every name frame declares the length of
    its name (plus one for the '/' of a directory), every file frame
    declares the number of payload bytes that follow it, and a decimal
    field reads back as the number printed. *)
Theorem length_field_fidelity (fuel : nat) (root : node) (cwd : path)
        (fn : bytes) (depth : Z) (w : pworld) :
  run_pack fuel root cwd fn depth = Ok w ->
  p_out w = render (p_log w)
  /\ Forall faithful (p_log w)
  /\ forall n, strtol_value (print_ld n) = Z.of_N n.
Proof.
  intros H. destruct (run_pack_log _ _ _ _ _ _ H) as (O & F & _).
  repeat split; auto. apply strtol_print_ld.
Qed.

Lemma length_field_fidelity_witness :
  run_pack 3 Examples.fs Examples.src (str "root") 1
  = Ok {| p_cwd := Examples.src;
          p_out := str "5:root/5:a.txt2:hi4:sub/5:b.txt2:ok0:0:";
          p_stdout := indent 1 ++ str "root/" ++ [LF]
                      ++ indent 2 ++ str "a.txt" ++ [LF]
                      ++ indent 2 ++ str "sub/" ++ [LF]
                      ++ indent 3 ++ str "b.txt" ++ [LF];
          p_stderr := skip_warning (str "pipe");
          p_log := [EvDir 1 5 (str "root");
                    EvFile 2 5 (str "a.txt") 2 (str "hi");
                    EvDir 2 4 (str "sub");
                    EvFile 3 5 (str "b.txt") 2 (str "ok");
                    EvEnd 2; EvEnd 1] |}
  /\ Forall faithful
       [EvDir 1 5 (str "root");
        EvFile 2 5 (str "a.txt") 2 (str "hi");
        EvDir 2 4 (str "sub");
        EvFile 3 5 (str "b.txt") 2 (str "ok");
        EvEnd 2; EvEnd 1].
Proof.
  assert (E : run_pack 3 Examples.fs Examples.src (str "root") 1
              = Ok {| p_cwd := Examples.src;
                      p_out := str "5:root/5:a.txt2:hi4:sub/5:b.txt2:ok0:0:";
                      p_stdout := indent 1 ++ str "root/" ++ [LF]
                                  ++ indent 2 ++ str "a.txt" ++ [LF]
                                  ++ indent 2 ++ str "sub/" ++ [LF]
                                  ++ indent 3 ++ str "b.txt" ++ [LF];
                      p_stderr := skip_warning (str "pipe");
                      p_log := [EvDir 1 5 (str "root");
                                EvFile 2 5 (str "a.txt") 2 (str "hi");
                                EvDir 2 4 (str "sub");
                                EvFile 3 5 (str "b.txt") 2 (str "ok");
                                EvEnd 2; EvEnd 1] |})
    by (vm_compute; reflexivity).
  split; [exact E|].
  exact (proj1 (proj2 (length_field_fidelity _ _ _ _ _ _ E))).
Defined.

Lemma atoi_nonzero (n : N) : (1 <= n)%N -> atoi (cstr (print_ld n)) <> Ok 0.
Proof.
  intros Hn. rewrite cstr_id by (apply print_ld_no; reflexivity).
  unfold atoi. rewrite strtol_print_ld.
  destruct (_ && _); [|discriminate]. intros E. inversion E. lia.
Qed.

Lemma print_ld_not_zero_colon (n : N) (r : bytes) :
  (1 <= n)%N -> ~ starts_with (str "0:") (print_ld n ++ COLON :: r).
Proof.
  intros Hn [r' E]. destruct (print_ld_head n) as (d & t & Ed & Hd); [lia|].
  rewrite Ed in E. simpl in E. inversion E. congruence.
Qed.

(** C10.  In every archive [pack] produces, the frame of a file declares
    a name of at least one byte and the frame of a directory a name of
    at least two; a frame begins with the bytes "0:" exactly when it is
    an end-of-directory sentinel, and atoi returns 0 on the length field
    of a frame exactly when the frame is a sentinel. *)
Theorem zero_length_means_sentinel (fuel : nat) (root : node) (cwd : path)
        (fn : bytes) (depth : Z) (w : pworld) :
  run_pack fuel root cwd fn depth = Ok w ->
  p_out w = render (p_log w)
  /\ Forall (fun e =>
               names_entry e
               /\ starts_with (length_field e ++ [COLON]) (render_event e)
               /\ (starts_with (str "0:") (render_event e)
                   <-> is_end_event e = true)
               /\ (atoi (cstr (length_field e)) = Ok 0
                   <-> is_end_event e = true))
            (p_log w).
Proof.
  intros H. destruct (run_pack_log _ _ _ _ _ _ H) as (O & F & _).
  split; auto. eapply Forall_impl; [|exact F].
  intros [d declared fn0|d declared fn0 size content|d] Hf; simpl in Hf.
  - destruct Hf as [-> Hne].
    assert (Hd : (2 <= strlen fn0 + 1)%N)
      by (unfold strlen; destruct fn0; [congruence|simpl length; lia]).
    repeat split; simpl; auto; try discriminate.
    + exists (fn0 ++ [SLASH]). assoc_eq.
    + intros Hs. exfalso. revert Hs. apply print_ld_not_zero_colon. lia.
    + intros Ha. exfalso. revert Ha. apply atoi_nonzero. lia.
  - destruct Hf as (-> & -> & Hne).
    assert (Hd : (1 <= strlen fn0)%N)
      by (unfold strlen; destruct fn0; [congruence|simpl length; lia]).
    repeat split; simpl; auto; try discriminate.
    + exists (fn0 ++ print_ld (N.of_nat (length content)) ++ [COLON] ++ content).
      assoc_eq.
    + intros Hs. exfalso. revert Hs. now apply print_ld_not_zero_colon.
    + intros Ha. exfalso. revert Ha. now apply atoi_nonzero.
  - repeat split; simpl; auto.
    + now exists [].
    + now exists [].
Qed.

Lemma zero_length_means_sentinel_witness :
  exists w,
    run_pack 3 Examples.fs Examples.src (str "root") 1 = Ok w
    /\ p_out w = str "5:root/5:a.txt2:hi4:sub/5:b.txt2:ok0:0:"
    /\ Forall (fun e =>
                 names_entry e
                 /\ starts_with (length_field e ++ [COLON]) (render_event e)
                 /\ (starts_with (str "0:") (render_event e)
                     <-> is_end_event e = true)
                 /\ (atoi (cstr (length_field e)) = Ok 0
                     <-> is_end_event e = true))
              (p_log w).
Proof.
  destruct (run_pack 3 Examples.fs Examples.src (str "root") 1) as [w| | | |] eqn:E;
    try (vm_compute in E; discriminate E).
  exists w. split; [reflexivity|]. split.
  - vm_compute in E. inversion E. reflexivity.
  - exact (proj2 (zero_length_means_sentinel _ _ _ _ _ _ E)).
Defined.

(** ** Packing, then unpacking *)

Lemma regular_only_facts : forall T,
  regular_only T = true ->
  linkless T = true /\ is_special T = false /\ prune T = T.
Proof.
  induction T as [d|t|k|es IH] using node_induction; intros H;
    try discriminate; auto.
  simpl in H. rewrite forallb_forall in H. rewrite Forall_forall in IH.
  repeat split; auto.
  - simpl. apply forallb_forall. intros cm Hin.
    now apply (IH cm Hin), H.
  - simpl. f_equal.
    assert (Hall : Forall (fun cm => is_special (snd cm) = false
                                    /\ prune (snd cm) = snd cm) es).
    { apply Forall_forall. intros cm Hin.
      destruct (IH cm Hin (H cm Hin)) as (_ & H2 & H3). now split. }
    clear IH H. induction Hall as [|[c m] es [H2 H3] _ IHes]; simpl; auto.
    simpl in H2, H3. now rewrite H2, H3, IHes.
Qed.

(** The run of [pack] on the entry [c] of the directory [Ds]. *)
Lemma pack_run (Rs : node) (Ds : path) (c : name) (T : node) (depth : Z)
      (fuel : nat) :
  wf T = true -> linkless T = true -> entry_name c = true ->
  get Rs (Ds ++ [c]) = Some T -> (height T < fuel)%nat ->
  run_pack fuel Rs Ds c depth
  = Ok (grow (fresh_world Ds) (wire_entry c T) (listing depth c T)
             (warnings c T) (frames depth c T)).
Proof. intros. unfold run_pack. now apply pack_tree. Qed.

(** The run of [unpack] on what [pack] wrote, in a directory that has
    no entry [c]. *)
Lemma unpack_run (Rd : node) (Dd : path) (es : list (name * node))
      (c : name) (T : node) (depth' : Z) (fuel' : nat) :
  wf T = true -> linkless T = true -> is_special T = false ->
  entry_name c = true -> codec_ok c T = true ->
  get Rd Dd = Some (Dir es) -> assoc c es = None ->
  (nframes T <= fuel')%nat ->
  unpack fuel' Rd Dd (wire_entry c T) depth'
  = Ok {| u_root := update Rd Dd (add_entry c (prune T));
          u_cwd := Dd;
          u_fp := [];
          u_depth := depth';
          u_stdout := (str "Contents of Extracted Archive:" ++ [LF])
                      ++ listing depth' c T |}.
Proof.
  intros Hwf Hlinkless Hentry Hname Hcodec Hdst Hfresh Hfuel'.
  unfold unpack.
  replace fuel' with (nframes T + (fuel' - nframes T))%nat by lia.
  rewrite (unpack_entry T c Hwf Hlinkless Hentry Hname Hcodec _ es []
             (fuel' - nframes T)%nat); auto.
  proj. now rewrite app_nil_r.
Qed.

(** C1, as amended.  A tree of regular files and directories whose
    names hold no ':' and fit the decoder's array, and whose files are
    at most INT_MAX bytes long, packed under its name from the directory
    that holds it and unpacked in a directory that has no entry of that
    name, is reproduced exactly: the destination gains the entry, equal
    to the tree in names, order, structure and bytes, and nothing else
    changes. *)
Theorem roundtrip (Rs : node) (Ds : path) (Rd : node) (Dd : path)
        (es : list (name * node)) (c : name) (T : node)
        (depth depth' : Z) (fuel fuel' : nat) :
  wf T = true -> regular_only T = true ->
  entry_name c = true -> codec_ok c T = true ->
  get Rs (Ds ++ [c]) = Some T ->
  get Rd Dd = Some (Dir es) -> assoc c es = None ->
  (height T < fuel)%nat -> (nframes T <= fuel')%nat ->
  exists w s,
    run_pack fuel Rs Ds c depth = Ok w
    /\ unpack fuel' Rd Dd (p_out w) depth' = Ok s
    /\ u_fp s = []
    /\ u_root s = update Rd Dd (add_entry c T)
    /\ get (u_root s) (Dd ++ [c]) = Some T.
Proof.
  intros Hwf Hreg Hname Hcodec Hsrc Hdst Hfresh Hfuel Hfuel'.
  destruct (regular_only_facts T Hreg) as (Hll & Hsp & Hprune).
  eexists. eexists. split; [apply (pack_run Rs Ds c T depth fuel); auto|].
  simpl p_out. split.
  - apply (unpack_run Rd Dd es c T depth' fuel'); auto.
  - proj. rewrite Hprune. repeat split. now apply extend_get with es.
Qed.

Lemma roundtrip_witness :
  exists w s,
    run_pack 3 Examples.fs Examples.src (str "plain") 1 = Ok w
    /\ unpack 6 Examples.fs Examples.dst (p_out w) 1 = Ok s
    /\ u_fp s = []
    /\ u_root s = update Examples.fs Examples.dst
                         (add_entry (str "plain") Examples.plain_tree)
    /\ get (u_root s) (Examples.dst ++ [str "plain"]) = Some Examples.plain_tree.
Proof.
  apply (roundtrip Examples.fs Examples.src Examples.fs Examples.dst []
                   (str "plain") Examples.plain_tree 1 1 3 6);
    first [vm_compute; reflexivity | vm_compute; lia].
Defined.

(** C1, as stated, fails on a file whose name holds a ':': the decoder
    stops the name at the ':' and reads the rest as a length. *)
Lemma roundtrip_counterexample :
  wf Examples.colon_tree = true
  /\ regular_only Examples.colon_tree = true
  /\ exists w s,
       run_pack 2 Examples.fs Examples.src (str "d") 1 = Ok w
       /\ p_out w = str "2:d/3:a:b4:0:0:0:"
       /\ unpack 9 Examples.fs Examples.dst (p_out w) 1 = Ok s
       /\ get (u_root s) (Examples.dst ++ [str "d"])
          = Some (Dir [(str "a", Reg [])])
       /\ get (u_root s) (Examples.dst ++ [str "d"]) <> Some Examples.colon_tree.
Proof.
  split; [reflexivity|]. split; [reflexivity|].
  eexists. eexists. split; [vm_compute; reflexivity|].
  split; [reflexivity|]. split; [vm_compute; reflexivity|].
  split; [reflexivity|]. discriminate.
Qed.




(** C4, as amended.  When [pack] is given the name of an entry of the
    working directory, at the top of a tree without symbolic links, it
    returns with the working directory it was called in, having written
    as many sentinels as directory frames.  When the entry is moreover a
    regular file or a directory (for a FIFO, socket or device [pack]
    writes no frame), [unpack], run on that archive in a directory that
    has no such entry, returns in the directory and at the depth it was
    called in (the names holding no ':' and fitting the decoder's array,
    the files at most INT_MAX bytes long). *)
Theorem working_directory_restored (Rs : node) (Ds : path) (Rd : node)
        (Dd : path) (es : list (name * node)) (c : name) (T : node)
        (depth depth' : Z) (fuel fuel' : nat) :
  wf T = true -> linkless T = true -> entry_name c = true ->
  get Rs (Ds ++ [c]) = Some T -> (height T < fuel)%nat ->
  exists w,
    run_pack fuel Rs Ds c depth = Ok w
    /\ p_cwd w = Ds
    /\ count_ends (p_log w) = count_dirs (p_log w)
    /\ (is_special T = false -> codec_ok c T = true ->
        get Rd Dd = Some (Dir es) -> assoc c es = None ->
        (nframes T <= fuel')%nat ->
        exists s,
          unpack fuel' Rd Dd (p_out w) depth' = Ok s
          /\ u_cwd s = Dd
          /\ u_depth s = depth').
Proof.
  intros Hwf Hll Hname Hsrc Hfuel.
  pose proof (pack_run Rs Ds c T depth fuel Hwf Hll Hname Hsrc Hfuel) as Hw.
  eexists. split; [exact Hw|].
  split; [reflexivity|]. split.
  - destruct (run_pack_log _ _ _ _ _ _ Hw) as (_ & _ & N).
    specialize (N [] eq_refl). apply nest_count in N.
    change (length (@nil Z)) with 0%nat in N. rewrite !Nat.add_0_l in N.
    now symmetry.
  - intros Hsp Hcodec Hdst Hfresh Hfuel'. simpl p_out. eexists.
    split; [apply (unpack_run Rd Dd es c T depth' fuel'); auto|].
    split; reflexivity.
Qed.

Lemma working_directory_restored_witness :
  (exists w,
      run_pack 3 Examples.fs Examples.src (str "root") 1 = Ok w
      /\ p_cwd w = Examples.src
      /\ count_ends (p_log w) = count_dirs (p_log w)
      /\ exists s,
           unpack 6 Examples.fs Examples.dst (p_out w) 1 = Ok s
           /\ u_cwd s = Examples.dst
           /\ u_depth s = 1)
  /\ (exists w,
         run_pack 1 Examples.fs (Examples.src ++ [str "root"]) (str "pipe") 2
         = Ok w
         /\ p_cwd w = Examples.src ++ [str "root"]
         /\ count_ends (p_log w) = count_dirs (p_log w)).
Proof.
  assert (Hwf : wf Examples.tree = true) by (vm_compute; reflexivity).
  assert (Hll : linkless Examples.tree = true) by (vm_compute; reflexivity).
  assert (Hn : entry_name (str "root") = true) by (vm_compute; reflexivity).
  assert (Hg : get Examples.fs (Examples.src ++ [str "root"])
               = Some Examples.tree) by (vm_compute; reflexivity).
  assert (Hh : (height Examples.tree < 3)%nat) by (vm_compute; lia).
  assert (Hn' : entry_name (str "pipe") = true) by (vm_compute; reflexivity).
  assert (Hg' : get Examples.fs ((Examples.src ++ [str "root"]) ++ [str "pipe"])
                = Some (Special Fifo)) by (vm_compute; reflexivity).
  assert (Hh' : (height (Special Fifo) < 1)%nat) by (vm_compute; lia).
  split.
  - destruct (working_directory_restored
                Examples.fs Examples.src Examples.fs Examples.dst []
                (str "root") Examples.tree 1 1 3 6 Hwf Hll Hn Hg Hh)
      as (w & Hrun & Hcwd & Hcount & Hunpack).
    exists w. split; [exact Hrun|]. split; [exact Hcwd|].
    split; [exact Hcount|].
    apply Hunpack; first [vm_compute; reflexivity | vm_compute; lia].
  - destruct (working_directory_restored
                Examples.fs (Examples.src ++ [str "root"])
                Examples.fs Examples.dst []
                (str "pipe") (Special Fifo) 2 1 1 0 eq_refl eq_refl Hn' Hg' Hh')
      as (w & Hrun & Hcwd & Hcount & _).
    exists w. split; [exact Hrun|]. split; [exact Hcwd|]. exact Hcount.
Defined.

(** C4, as stated, fails for a path argument of two components: [pack]
    enters a/b and leaves by "..", which ends in a; [unpack] on the
    archive does the same.  It fails for a symbolic link to a directory:
    [pack] enters the target and ".." leads to the parent of the target.
    And it fails for a FIFO: [pack] writes no frame, and [unpack] on the
    empty archive takes the sentinel branch once and ends in the parent
    directory, one level up. *)
Lemma working_directory_counterexample :
  (exists w s,
      run_pack 3 Examples.fs Examples.src (str "a/b") 1 = Ok w
      /\ p_out w = str "4:a/b/1:f1:x0:"
      /\ p_cwd w = Examples.src ++ [str "a"]
      /\ p_cwd w <> Examples.src
      /\ unpack 4 Examples.fs Examples.dst (p_out w) 1 = Ok s
      /\ u_cwd s = Examples.dst ++ [str "a"]
      /\ u_cwd s <> Examples.dst)
  /\ (exists w,
         run_pack 3 Examples.fs Examples.src (str "lnk") 1 = Ok w
         /\ p_out w = str "4:lnk/2:x/0:0:"
         /\ p_cwd w = []
         /\ p_cwd w <> Examples.src)
  /\ (exists w s,
         run_pack 1 Examples.fs (Examples.src ++ [str "root"]) (str "pipe") 2
         = Ok w
         /\ p_out w = []
         /\ unpack 1 Examples.fs Examples.dst (p_out w) 1 = Ok s
         /\ u_cwd s = [str "dst"]
         /\ u_cwd s <> Examples.dst
         /\ u_depth s = 0).
Proof.
  split; [|split].
  - eexists. eexists. split; [vm_compute; reflexivity|].
    split; [reflexivity|]. split; [reflexivity|]. split; [discriminate|].
    split; [vm_compute; reflexivity|]. split; [reflexivity|]. discriminate.
  - eexists. split; [vm_compute; reflexivity|].
    split; [reflexivity|]. split; [reflexivity|]. discriminate.
  - eexists. eexists. split; [vm_compute; reflexivity|].
    split; [reflexivity|]. split; [vm_compute; reflexivity|].
    split; [reflexivity|]. split; [discriminate|]. reflexivity.
Qed.

(** C7, as amended.  An entry that stat reports as neither a directory
    nor a regular file (a FIFO, a socket, a device) gets no frame and one
    warning on stderr, and [pack] goes on; the archive of a tree without
    symbolic links is the wire format of its files and directories only,
    the warnings are those of its special files, and unpacking it gives
    the tree without the special files, every other entry in place and
    unchanged (names without ':' that fit the decoder's array, files of
    at most INT_MAX bytes). *)
Theorem skip_semantics :
  (forall fuel root c k depth w,
      entry_name c = true ->
      get root (p_cwd w ++ [c]) = Some (Special k) ->
      pack (S fuel) root c depth w = Ok (to_stderr w (skip_warning c)))
  /\ (forall Rs Ds Rd Dd es c T depth depth' fuel fuel',
         wf T = true -> linkless T = true -> is_special T = false ->
         entry_name c = true -> codec_ok c T = true ->
         get Rs (Ds ++ [c]) = Some T ->
         get Rd Dd = Some (Dir es) -> assoc c es = None ->
         (height T < fuel)%nat -> (nframes T <= fuel')%nat ->
         exists w s,
           run_pack fuel Rs Ds c depth = Ok w
           /\ p_out w = wire_entry c T
           /\ p_log w = frames depth c T
           /\ p_stderr w = warnings c T
           /\ unpack fuel' Rd Dd (p_out w) depth' = Ok s
           /\ u_root s = update Rd Dd (add_entry c (prune T))
           /\ get (u_root s) (Dd ++ [c]) = Some (prune T)).
Proof.
  split.
  - intros fuel root c k depth w Hname Hget. simpl pack.
    now rewrite (stat_found root (p_cwd w) c Hname (Special k) Hget eq_refl).
  - intros Rs Ds Rd Dd es c T depth depth' fuel fuel'
           Hwf Hll Hsp Hname Hcodec Hsrc Hdst Hfresh Hfuel Hfuel'.
    eexists. eexists.
    split; [apply (pack_run Rs Ds c T depth fuel); auto|].
    simpl p_out. simpl p_log. simpl p_stderr.
    repeat (split; [reflexivity|]).
    split; [apply (unpack_run Rd Dd es c T depth' fuel'); auto|].
    proj. split; [reflexivity|]. now apply extend_get with es.
Qed.

Lemma skip_semantics_witness :
  pack 1 Examples.fs (str "pipe") 2
       (fresh_world (Examples.src ++ [str "root"]))
  = Ok (to_stderr (fresh_world (Examples.src ++ [str "root"]))
                  (skip_warning (str "pipe")))
  /\ exists w s,
       run_pack 3 Examples.fs Examples.src (str "root") 1 = Ok w
       /\ p_out w = wire_entry (str "root") Examples.tree
       /\ p_log w = frames 1 (str "root") Examples.tree
       /\ p_stderr w = warnings (str "root") Examples.tree
       /\ unpack 6 Examples.fs Examples.dst (p_out w) 1 = Ok s
       /\ u_root s = update Examples.fs Examples.dst
                            (add_entry (str "root") (prune Examples.tree))
       /\ get (u_root s) (Examples.dst ++ [str "root"])
          = Some (prune Examples.tree).
Proof.
  split.
  - apply (proj1 skip_semantics O Examples.fs (str "pipe") Fifo 2
                 (fresh_world (Examples.src ++ [str "root"])));
      vm_compute; reflexivity.
  - apply (proj2 skip_semantics Examples.fs Examples.src Examples.fs Examples.dst []
                 (str "root") Examples.tree 1 1 3%nat 6%nat);
      first [vm_compute; reflexivity | vm_compute; lia].
Defined.

(** C7, as stated, fails for a symbolic link: stat follows the link, so
    a link to a regular file is packed as a file of the link's name, with
    no warning, and unpacking makes a regular file of it. *)
Lemma skip_semantics_counterexample :
  exists w s,
    run_pack 2 Examples.fs Examples.src (str "links") 1 = Ok w
    /\ p_out w = str "6:links/1:f2:hi1:l2:hi1:g2:yo0:"
    /\ In (EvFile 2 1 (str "l") 2 (str "hi")) (p_log w)
    /\ p_stderr w = []
    /\ unpack 5 Examples.fs Examples.dst (p_out w) 1 = Ok s
    /\ get (u_root s) (Examples.dst ++ [str "links"; str "l"])
       = Some (Reg (str "hi")).
Proof.
  eexists. eexists. split; [vm_compute; reflexivity|].
  split; [reflexivity|]. split; [right; right; left; reflexivity|].
  split; [reflexivity|]. split; [vm_compute; reflexivity|]. reflexivity.
Qed.

(** ** Where the code leaves what the specification asks for *)

(** X2.  Once NAME_MAX bytes are stored the next store, of a byte or of
    the closing NUL, is outside the array, whatever the delimiter and
    for any bound on the reads of NAME_MAX or more. *)
Lemma next_block_overrun (delim : ascii) (max_reads : Z) (rest : bytes) :
  forall s output,
    (length output + length s = NAME_MAX)%nat ->
    Forall (fun x => x <> delim) s ->
    Z.of_nat NAME_MAX <= max_reads ->
    next_block (s ++ rest) output delim max_reads = Undefined OutOfBounds.
Proof.
  induction s as [|x s IH]; intros output Hlen Hs Hmax.
  - simpl in Hlen. rewrite Nat.add_0_r in Hlen. simpl app.
    assert (Hfull : (length output <? NAME_MAX)%nat = false)
      by (apply Nat.ltb_ge; lia).
    destruct rest as [|b rest]; simpl; unfold next_block_close;
      rewrite ?Hfull; auto.
    destruct (Z.of_nat (length output) <? max_reads); auto.
    destruct (Ascii.eqb b delim); auto.
  - inversion Hs as [|? ? Hx Hs']; subst. simpl in Hlen. simpl.
    replace (Z.of_nat (length output) <? max_reads) with true
      by (symmetry; apply Z.ltb_lt; lia).
    replace (Ascii.eqb x delim) with false
      by (symmetry; now apply Ascii.eqb_neq).
    replace (length output <? NAME_MAX)%nat with true
      by (symmetry; apply Nat.ltb_lt; lia).
    apply IH; auto. rewrite length_app. simpl. lia.
Qed.

(** A file frame that declares more bytes than an int holds: atoi has
    no defined result. *)
Lemma file_size_beyond_int (R : node) (D : path) (rest : bytes) (depth : Z)
      (out : bytes) :
  unpack_frame {| u_root := R; u_cwd := D;
                  u_fp := str "1:a2147483648:" ++ rest;
                  u_depth := depth; u_stdout := out |}
  = Undefined IntRange.
Proof. reflexivity. Qed.

(** C5.  The decoder writes outside its arrays.  A length field of
    NAME_MAX digits fills [buff] and the closing NUL goes to
    [buff[NAME_MAX]]; a name of NAME_MAX bytes, which [pack] itself
    writes for a file of that name, fills [fn] and the NUL goes to
    [fn[NAME_MAX]]. *)
Theorem name_buffer_overrun :
  next_block (repeat "1"%char 255 ++ [COLON]) [] COLON (Z.of_nat NAME_MAX)
  = Undefined OutOfBounds
  /\ exists w,
       run_pack 1 Examples.fs Examples.src Examples.long_name 1 = Ok w
       /\ p_out w = str "255:" ++ Examples.long_name ++ str "0:"
       /\ unpack 2 Examples.fs Examples.dst (p_out w) 1 = Undefined OutOfBounds.
Proof.
  split; [vm_compute; reflexivity|].
  eexists. split; [vm_compute; reflexivity|].
  split; vm_compute; reflexivity.
Qed.

(** C6.  An archive that is the sentinel alone: the decoder goes up
    from the directory it was started in and ends one below its starting
    depth. *)
Theorem lone_sentinel_ascends (R : node) (D : path) (c : name)
        (es : list (name * node)) (depth : Z) :
  get R D = Some (Dir es) ->
  exists s,
    unpack 1 R (D ++ [c]) (str "0:") depth = Ok s
    /\ u_root s = R
    /\ u_cwd s = D
    /\ u_depth s = depth - 1
    /\ u_fp s = [].
Proof.
  intros HD. eexists. split.
  - unfold unpack. rewrite unpack_loop_step.
    change (str "0:") with (str "0:" ++ []).
    rewrite (frame_end R D es depth _ [] HD c). reflexivity.
  - now repeat split.
Qed.

Lemma lone_sentinel_ascends_witness :
  exists s,
    unpack 1 Examples.fs ([str "dst"] ++ [str "x"]) (str "0:") 1 = Ok s
    /\ u_root s = Examples.fs
    /\ u_cwd s = [str "dst"]
    /\ u_depth s = 1 - 1
    /\ u_fp s = [].
Proof.
  apply (lone_sentinel_ascends Examples.fs [str "dst"] (str "x")
                               [(str "x", Dir [])] 1).
  reflexivity.
Defined.

(** C8.  [mkpath] on an absolute path name: the first '/' leaves the
    empty string in [tmp], which neither stat nor mkdir accepts, so the
    result is -1 and nothing is made, whatever exists already. *)
Theorem mkpath_absolute_fails (R : node) (D : path) (rest : bytes) (mode : Z) :
  stat R D [] = None
  /\ mkdir R D [] mode = None
  /\ mkpath R D (SLASH :: rest) mode = (-1, R)
  /\ (get Examples.fs [str "dst"] = Some (Dir [(str "x", Dir [])])
      /\ mkpath Examples.fs [] (str "/dst/") 448 = (-1, Examples.fs)
      /\ mkpath Examples.fs [] (str "dst/") 448 = (0, Examples.fs)).
Proof.
  assert (Hstat : stat R D [] = None) by reflexivity.
  assert (Hmkdir : mkdir R D [] mode = None) by reflexivity.
  assert (Hmkpath : mkpath R D (SLASH :: rest) mode = (-1, R)).
  { reflexivity. }
  repeat split; auto.
Qed.

(** ** Termination of [unpack] *)




(** * Further properties of the program *)

(** ** [next_block] on any input *)

Lemma next_block_shape (delim : ascii) (max_reads : Z) :
  forall fp output o r,
    next_block fp output delim max_reads = Ok (o, r) ->
    exists s,
      o = output ++ s
      /\ Forall (fun x => x <> delim) s
      /\ (length o < NAME_MAX)%nat
      /\ (s = [] \/ Z.of_nat (length o) <= max_reads)
      /\ ((fp = s ++ delim :: r /\ Z.of_nat (length o) < max_reads)
          \/ (fp = s ++ r /\ (r = [] \/ max_reads <= Z.of_nat (length o)))).
Proof.
  induction fp as [|b fp IH]; intros output o r H; simpl in H.
  - unfold next_block_close in H.
    destruct (length output <? NAME_MAX)%nat eqn:E; inversion H; subst.
    apply Nat.ltb_lt in E. exists []. rewrite app_nil_r.
    repeat split; auto.
  - unfold next_block_close in H.
    destruct (Z.of_nat (length output) <? max_reads) eqn:Em.
    + apply Z.ltb_lt in Em. destruct (Ascii.eqb_spec b delim) as [->|Hb].
      * destruct (length output <? NAME_MAX)%nat eqn:E; inversion H; subst.
        apply Nat.ltb_lt in E. exists []. rewrite app_nil_r.
        repeat split; auto.
      * destruct (length output <? NAME_MAX)%nat eqn:E; [|discriminate].
        destruct (IH _ _ _ H) as (s & Ho & Hs & Hlen & Hmax & Hfp).
        exists (b :: s). subst o. rewrite <- app_assoc in *. simpl in *.
        repeat split; auto.
        -- right. destruct Hmax as [->|Hmax]; auto.
           rewrite length_app. simpl. lia.
        -- destruct Hfp as [[-> Hlt]|[-> Hr]]; [left|right]; auto.
    + apply Z.ltb_ge in Em.
      destruct (length output <? NAME_MAX)%nat eqn:E; inversion H; subst.
      apply Nat.ltb_lt in E. exists []. rewrite app_nil_r.
      repeat split; auto.
Qed.

(** X1.  What [next_block] hands back when it returns: the bytes stored
    are the start of the input, hold no delimiter, are fewer than
    NAME_MAX and, if any, at most [max_reads]; the rest of the input
    follows them, less the one delimiter that stopped the loop, and when
    no delimiter stopped it the input is at its end or [max_reads] bytes
    are stored. *)
Theorem next_block_splits (fp : bytes) (delim : ascii) (max_reads : Z)
        (o r : bytes) :
  next_block fp [] delim max_reads = Ok (o, r) ->
  Forall (fun x => x <> delim) o
  /\ (length o < NAME_MAX)%nat
  /\ (o = [] \/ Z.of_nat (length o) <= max_reads)
  /\ ((fp = o ++ delim :: r /\ Z.of_nat (length o) < max_reads)
      \/ (fp = o ++ r /\ (r = [] \/ max_reads <= Z.of_nat (length o)))).
Proof.
  intros H. destruct (next_block_shape _ _ _ _ _ _ H) as (s & Ho & Hrest).
  simpl in Ho. now subst s.
Qed.

Lemma next_block_splits_witness :
  Forall (fun x => x <> COLON) (str "ab")
  /\ (length (str "ab") < NAME_MAX)%nat
  /\ (str "ab" = [] \/ Z.of_nat (length (str "ab")) <= 2)
  /\ ((str "ab:cd" = str "ab" ++ COLON :: str ":cd"
       /\ Z.of_nat (length (str "ab")) < 2)
      \/ (str "ab:cd" = str "ab" ++ str ":cd"
          /\ (str ":cd" = [] \/ 2 <= Z.of_nat (length (str "ab"))))).
Proof.
  apply (next_block_splits (str "ab:cd") COLON 2 (str "ab") (str ":cd")).
  reflexivity.
Defined.

Lemma next_block_overrun_witness :
  next_block (repeat "7"%char 255 ++ str ":rest") [] COLON 300
  = Undefined OutOfBounds.
Proof.
  apply (next_block_overrun COLON 300 (str ":rest") (repeat "7"%char 255) []).
  - reflexivity.
  - apply Forall_forall. intros x Hx. apply repeat_spec in Hx. subst x.
    discriminate.
  - vm_compute. discriminate.
Defined.

(** ** Decimal fields, written and read back *)

(** X3.  A number printed by [%ld] and read back by [atoi] is the same
    number as long as it is at most INT_MAX; above, [atoi] has no
    defined result. *)
Theorem decimal_round_trip (n : N) :
  atoi (cstr (print_ld n))
  = if Z.of_N n <=? INT_MAX then Ok (Z.of_N n) else Undefined IntRange.
Proof.
  destruct (Z.of_N n <=? INT_MAX) eqn:E.
  - apply atoi_print_ld. now apply Z.leb_le.
  - rewrite cstr_id by (apply print_ld_no; reflexivity).
    unfold atoi. rewrite strtol_print_ld, E. now rewrite andb_false_r.
Qed.

(** ** The payload loop *)

Lemma last_default (x : ascii) (l : bytes) (d d' : ascii) :
  last (x :: l) d = last (x :: l) d'.
Proof.
  revert x. induction l as [|y l IH]; intros x; simpl; auto.
  apply (IH y).
Qed.

Lemma copy_payload_general : forall n fp buffer written,
  fp <> [] \/ n = O \/ buffer <> None ->
  copy_payload n fp buffer written
  = Ok (written ++ firstn n fp
        ++ repeat (last fp (held buffer)) (n - length fp),
        skipn n fp).
Proof.
  induction n as [|n IH]; intros fp buffer written H.
  - simpl. now rewrite app_nil_r.
  - destruct fp as [|b fp].
    + destruct buffer as [c|]; [|destruct H as [H|[H|H]]; congruence].
      simpl copy_payload. rewrite IH by (right; right; discriminate).
      simpl. rewrite firstn_nil, skipn_nil, Nat.sub_0_r. simpl.
      now rewrite <- app_assoc.
    + simpl copy_payload. destruct fp as [|b' fp].
      * rewrite IH by (right; right; discriminate).
        simpl. rewrite firstn_nil, skipn_nil, Nat.sub_0_r. simpl.
        now rewrite <- app_assoc.
      * rewrite IH by (left; discriminate).
        rewrite <- app_assoc.
        rewrite (last_default b' fp (held (Some b)) (held buffer)).
        reflexivity.
Qed.

(** ** File frames, whatever the destination holds *)

Lemma rev_head_last (c : bytes) (x d : ascii) (r : bytes) :
  rev c = x :: r -> last c d = x.
Proof.
  intros E. apply (f_equal (@rev ascii)) in E. rewrite rev_involutive in E.
  subst c. simpl. apply last_last.
Qed.

(** A file frame with a name the decoder reads whole: the name goes to
    fopen as it is, and the payload loop runs on what follows the size
    field. *)
Lemma frame_file_open (R : node) (D : path) (depth : Z) (out : bytes)
      (c : bytes) (n : N) (fp3 : bytes) :
  c <> [] -> Forall (fun x => x <> COLON) c -> Forall (fun x => x <> NUL) c ->
  (length c < NAME_MAX)%nat -> last c NUL <> SLASH ->
  Z.of_N n <= INT_MAX ->
  unpack_frame {| u_root := R; u_cwd := D;
                  u_fp := print_ld (strlen c) ++ [COLON] ++ c
                          ++ print_ld n ++ [COLON] ++ fp3;
                  u_depth := depth; u_stdout := out |}
  = match fopen_w R D c with
    | Blocks => Blocked
    | Null => Undefined NullStream
    | Opened R1 newfile =>
        bind (copy_payload (N.to_nat n) fp3 None [])
             (fun wr =>
                Ok {| u_root := fclose_w R1 newfile (fst wr);
                      u_cwd := D;
                      u_fp := snd wr;
                      u_depth := depth;
                      u_stdout := out ++ indent depth ++ c ++ [LF] |})
    end.
Proof.
  intros Hne Hcolon Hnul Hlen Hlast Hsize.
  unfold unpack_frame. proj. simpl app at 2.
  rewrite next_block_decimal by (apply small_N; lia).
  step.
  rewrite atoi_print_ld by (unfold strlen, NAME_MAX, INT_MAX in *; lia).
  step.
  replace (Z.of_N (strlen c)) with (Z.of_nat (length (@nil ascii) + length c))
    by (unfold strlen; simpl; lia).
  rewrite next_block_exact by (auto; simpl; lia).
  step. simpl app. rewrite (cstr_id c Hnul).
  replace (_ =? 0) with false
    by (symmetry; apply Z.eqb_neq; destruct c; [congruence|simpl; lia]).
  destruct (rev c) as [|x r] eqn:Erev.
  { apply (f_equal (@rev ascii)) in Erev. rewrite rev_involutive in Erev.
    simpl in Erev. congruence. }
  rewrite (rev_head_last c x NUL r Erev) in Hlast.
  replace (Ascii.eqb x SLASH) with false by (symmetry; now apply Ascii.eqb_neq).
  proj.
  rewrite next_block_decimal.
  2:{ apply N.le_lt_trans with (Z.to_N INT_MAX); [lia|reflexivity]. }
  step. rewrite atoi_print_ld by lia. step.
  replace (Z.to_nat (Z.of_N n)) with (N.to_nat n) by lia.
  destruct (fopen_w R D c) as [R1 newfile| |]; try reflexivity.
  destruct (copy_payload (N.to_nat n) fp3 None []) as [[wr fp4]| | | |];
    reflexivity.
Qed.

Lemma entry_name_file (c : name) :
  entry_name c = true -> codec_name 0 c = true ->
  c <> [] /\ Forall (fun x => x <> COLON) c /\ Forall (fun x => x <> NUL) c
  /\ (length c < NAME_MAX)%nat /\ last c NUL <> SLASH.
Proof.
  intros Hname Hcodec.
  destruct (entry_name_spec c Hname) as (Hne & Hslash & Hnul & _).
  destruct (codec_name_spec 0 c Hcodec) as [Hcolon Hlen].
  repeat split; auto; [lia|].
  destruct (rev c) as [|x r] eqn:Erev.
  - apply (f_equal (@rev ascii)) in Erev. rewrite rev_involutive in Erev.
    simpl in Erev. congruence.
  - rewrite (rev_head_last c x NUL r Erev).
    rewrite Forall_forall in Hslash. apply Hslash.
    apply in_rev. rewrite Erev. now left.
Qed.

(** X4.  A file frame whose payload is cut short by the end of the
    archive still makes a file of the declared size: the bytes that are
    there, then the last of them again for every byte that is missing. *)
Theorem truncated_payload_is_padded (R : node) (D : path)
        (es : list (name * node)) (depth : Z) (out : bytes) (c : name)
        (n : N) (d : bytes) :
  entry_name c = true -> codec_name 0 c = true ->
  get R D = Some (Dir es) -> assoc c es = None ->
  Z.of_N n <= INT_MAX -> d <> [] -> (length d < N.to_nat n)%nat ->
  unpack_frame {| u_root := R; u_cwd := D;
                  u_fp := print_ld (strlen c) ++ [COLON] ++ c
                          ++ print_ld n ++ [COLON] ++ d;
                  u_depth := depth; u_stdout := out |}
  = Ok {| u_root := update R D
                      (add_entry c
                         (Reg (d ++ repeat (last d NUL) (N.to_nat n - length d))));
          u_cwd := D;
          u_fp := [];
          u_depth := depth;
          u_stdout := out ++ indent depth ++ c ++ [LF] |}
  /\ length (d ++ repeat (last d NUL) (N.to_nat n - length d)) = N.to_nat n.
Proof.
  intros Hname Hcodec HD Hfresh Hsize Hd Hshort.
  destruct (entry_name_file c Hname Hcodec) as (H1 & H2 & H3 & H4 & H5).
  split.
  - rewrite frame_file_open by auto.
    rewrite (fopen_w_missing R D c Hname es HD Hfresh).
    rewrite copy_payload_general by (left; exact Hd).
    step. simpl fst. simpl snd. simpl app.
    rewrite firstn_all2 by lia. rewrite skipn_all2 by lia.
    simpl fclose_w.
    now rewrite (extend_update R D es c HD Hfresh (Reg []) (fun _ => Reg _)).
  - rewrite length_app, repeat_length. lia.
Qed.

Lemma truncated_payload_is_padded_witness :
  unpack_frame {| u_root := Examples.fs; u_cwd := Examples.dst;
                  u_fp := print_ld (strlen (str "f")) ++ [COLON] ++ str "f"
                          ++ print_ld 5 ++ [COLON] ++ str "ab";
                  u_depth := 1; u_stdout := [] |}
  = Ok {| u_root := update Examples.fs Examples.dst
                      (add_entry (str "f")
                         (Reg (str "ab" ++ repeat (last (str "ab") NUL)
                                             (N.to_nat 5 - length (str "ab")))));
          u_cwd := Examples.dst;
          u_fp := [];
          u_depth := 1;
          u_stdout := [] ++ indent 1 ++ str "f" ++ [LF] |}
  /\ length (str "ab" ++ repeat (last (str "ab") NUL)
                           (N.to_nat 5 - length (str "ab")))
     = N.to_nat 5.
Proof.
  apply (truncated_payload_is_padded Examples.fs Examples.dst [] 1 []
                                     (str "f") 5 (str "ab"));
    first [vm_compute; reflexivity | vm_compute; discriminate
          | vm_compute; lia].
Defined.

(** X5.  A file frame for a name that the directory holds as a regular
    file: the file is truncated and gets the payload; nothing else in
    the file system changes, and the entry keeps its place. *)
Theorem file_frame_overwrites (R : node) (D : path) (depth : Z)
        (out rest : bytes) (c : name) (old d : bytes) :
  entry_name c = true -> codec_name 0 c = true ->
  get R (D ++ [c]) = Some (Reg old) ->
  Z.of_nat (length d) <= INT_MAX ->
  exists s,
    unpack_frame {| u_root := R; u_cwd := D;
                    u_fp := print_ld (strlen c) ++ [COLON] ++ c
                            ++ print_ld (N.of_nat (length d)) ++ [COLON]
                            ++ d ++ rest;
                    u_depth := depth; u_stdout := out |} = Ok s
    /\ u_root s = update R (D ++ [c]) (fun _ => Reg d)
    /\ get (u_root s) (D ++ [c]) = Some (Reg d)
    /\ u_cwd s = D /\ u_fp s = rest /\ u_depth s = depth.
Proof.
  intros Hname Hcodec Hget Hsize.
  destruct (entry_name_file c Hname Hcodec) as (H1 & H2 & H3 & H4 & H5).
  eexists. split.
  - rewrite frame_file_open by (auto; lia).
    unfold fopen_w.
    rewrite (namei_found R D c Hname (Reg old) Hget eq_refl), Hget.
    rewrite Nat2N.id, copy_payload_exact. step. simpl fst. simpl snd.
    simpl fclose_w. rewrite update_twice. reflexivity.
  - proj. repeat split; auto.
    now rewrite (get_update (D ++ [c]) R _ (Reg old) Hget).
Qed.

Lemma file_frame_overwrites_witness :
  exists s,
    unpack_frame {| u_root := Examples.fs; u_cwd := Examples.src ++ [str "a"; str "b"];
                    u_fp := print_ld (strlen (str "f")) ++ [COLON] ++ str "f"
                            ++ print_ld (N.of_nat (length (str "new")))
                            ++ [COLON] ++ str "new" ++ str "0:";
                    u_depth := 3; u_stdout := [] |} = Ok s
    /\ u_root s = update Examples.fs ((Examples.src ++ [str "a"; str "b"]) ++ [str "f"])
                         (fun _ => Reg (str "new"))
    /\ get (u_root s) ((Examples.src ++ [str "a"; str "b"]) ++ [str "f"])
       = Some (Reg (str "new"))
    /\ u_cwd s = Examples.src ++ [str "a"; str "b"]
    /\ u_fp s = str "0:" /\ u_depth s = 3.
Proof.
  apply (file_frame_overwrites Examples.fs (Examples.src ++ [str "a"; str "b"])
                               3 [] (str "0:") (str "f") (str "x") (str "new"));
    first [vm_compute; reflexivity | vm_compute; discriminate].
Defined.

(** X6.  A file frame for a name that the directory holds as a
    directory: fopen returns NULL, which goes unchecked to fclose. *)
Theorem file_frame_over_directory (R : node) (D : path) (depth : Z)
        (out fp3 : bytes) (c : name) (n : N) (es : list (name * node)) :
  entry_name c = true -> codec_name 0 c = true ->
  get R (D ++ [c]) = Some (Dir es) ->
  Z.of_N n <= INT_MAX ->
  unpack_frame {| u_root := R; u_cwd := D;
                  u_fp := print_ld (strlen c) ++ [COLON] ++ c
                          ++ print_ld n ++ [COLON] ++ fp3;
                  u_depth := depth; u_stdout := out |}
  = Undefined NullStream.
Proof.
  intros Hname Hcodec Hget Hsize.
  destruct (entry_name_file c Hname Hcodec) as (H1 & H2 & H3 & H4 & H5).
  rewrite frame_file_open by auto.
  unfold fopen_w.
  now rewrite (namei_found R D c Hname (Dir es) Hget eq_refl), Hget.
Qed.

Lemma file_frame_over_directory_witness :
  unpack_frame {| u_root := Examples.fs; u_cwd := Examples.src;
                  u_fp := print_ld (strlen (str "a")) ++ [COLON] ++ str "a"
                          ++ print_ld 2 ++ [COLON] ++ str "hi";
                  u_depth := 1; u_stdout := [] |}
  = Undefined NullStream.
Proof.
  apply (file_frame_over_directory
           Examples.fs Examples.src 1 [] (str "hi") (str "a") 2
           [(str "b", Dir [(str "f", Reg (str "x"))])]);
    first [vm_compute; reflexivity | vm_compute; discriminate].
Defined.

(** X7.  The name of a file frame is not confined to the working
    directory: a name that starts with "../" makes the file in the parent
    of the directory being unpacked into. *)
Theorem file_frame_escapes (R : node) (D : path) (c0 : name)
        (es : list (name * node)) (depth : Z) (out rest : bytes)
        (f : name) (d : bytes) :
  entry_name f = true -> codec_name 3 f = true ->
  get R D = Some (Dir es) -> assoc f es = None ->
  Z.of_nat (length d) <= INT_MAX ->
  unpack_frame {| u_root := R; u_cwd := D ++ [c0];
                  u_fp := print_ld (strlen (str "../" ++ f)) ++ [COLON]
                          ++ (str "../" ++ f)
                          ++ print_ld (N.of_nat (length d)) ++ [COLON]
                          ++ d ++ rest;
                  u_depth := depth; u_stdout := out |}
  = Ok {| u_root := update R D (add_entry f (Reg d));
          u_cwd := D ++ [c0];
          u_fp := rest;
          u_depth := depth;
          u_stdout := out ++ indent depth ++ (str "../" ++ f) ++ [LF] |}.
Proof.
  intros Hname Hcodec HD Hfresh Hsize.
  destruct (entry_name_spec f Hname) as (Hne & Hslash & Hnul & _).
  destruct (codec_name_spec 3 f Hcodec) as [Hcolon Hlen].
  assert (Hfo : fopen_w R (D ++ [c0]) (str "../" ++ f)
                = Opened (update R D (add_entry f (Reg []))) (ToFile (D ++ [f]))).
  { unfold fopen_w. rewrite namei_short.
    2:{ discriminate. }
    2:{ apply path_short. simpl length. unfold NAME_MAX, PATH_MAX in *. lia. }
    change (str "../" ++ f) with ("."%char :: "."%char :: SLASH :: f).
    change (is_absolute ("."%char :: "."%char :: SLASH :: f)) with false.
    cbv iota.
    replace (components ("."%char :: "."%char :: SLASH :: f)) with [DOTDOT; f].
    2:{ unfold components. simpl.
        rewrite <- (app_nil_r f) at 2. rewrite split_path_plain by auto.
        reflexivity. }
    destruct (namei_from_walk SYMLOOP_MAX R) as [follow ->].
    change (walk R follow (D ++ [c0]) [DOTDOT; f])
      with (walk R follow (removelast (D ++ [c0])) [f]).
    rewrite removelast_last.
    now rewrite (walk_missing R follow D f Hname es HD Hfresh). }
  rewrite frame_file_open; auto.
  - rewrite Hfo, Nat2N.id, copy_payload_exact. step. simpl fst. simpl snd.
    simpl fclose_w.
    now rewrite (extend_update R D es f HD Hfresh (Reg []) (fun _ => Reg d)).
  - discriminate.
  - constructor; [discriminate|]. constructor; [discriminate|].
    constructor; [discriminate|]. exact Hcolon.
  - constructor; [discriminate|]. constructor; [discriminate|].
    constructor; [discriminate|]. exact Hnul.
  - simpl length. lia.
  - destruct (rev f) as [|x r] eqn:Erev.
    + apply (f_equal (@rev ascii)) in Erev. rewrite rev_involutive in Erev.
      simpl in Erev. congruence.
    + assert (Hr : rev (str "../" ++ f) = x :: r ++ rev (str "../")).
      { rewrite rev_app_distr, Erev. reflexivity. }
      rewrite (rev_head_last _ x NUL _ Hr).
      rewrite Forall_forall in Hslash. apply Hslash.
      apply in_rev. rewrite Erev. now left.
  - lia.
Qed.

Lemma file_frame_escapes_witness :
  unpack_frame {| u_root := Examples.fs; u_cwd := [str "dst"] ++ [str "x"];
                  u_fp := print_ld (strlen (str "../" ++ str "f")) ++ [COLON]
                          ++ (str "../" ++ str "f")
                          ++ print_ld (N.of_nat (length (str "hi"))) ++ [COLON]
                          ++ str "hi" ++ [];
                  u_depth := 1; u_stdout := [] |}
  = Ok {| u_root := update Examples.fs [str "dst"]
                           (add_entry (str "f") (Reg (str "hi")));
          u_cwd := [str "dst"] ++ [str "x"];
          u_fp := [];
          u_depth := 1;
          u_stdout := [] ++ indent 1 ++ (str "../" ++ str "f") ++ [LF] |}.
Proof.
  apply (file_frame_escapes Examples.fs [str "dst"] (str "x")
                            [(str "x", Dir [])] 1 [] [] (str "f") (str "hi"));
    first [vm_compute; reflexivity | vm_compute; discriminate].
Defined.

(** ** Fields that are not what [pack] writes *)

(** X8.  A length field on which atoi returns 0 is taken for the
    sentinel, digits or not: the decoder goes up one directory and one
    level, and reads on after the ':'. *)
Theorem zero_field_is_sentinel (R : node) (D : path) (c : name)
        (es : list (name * node)) (depth : Z) (out rest field : bytes) :
  get R D = Some (Dir es) ->
  Forall (fun x => x <> COLON) field -> (length field < NAME_MAX)%nat ->
  atoi (cstr field) = Ok 0 ->
  unpack_frame {| u_root := R; u_cwd := D ++ [c];
                  u_fp := field ++ COLON :: rest;
                  u_depth := depth; u_stdout := out |}
  = Ok {| u_root := R; u_cwd := D; u_fp := rest; u_depth := depth - 1;
          u_stdout := out |}.
Proof.
  intros HD Hfield Hlen Hzero. unfold unpack_frame. proj.
  rewrite next_block_delim by (auto; simpl; unfold NAME_MAX in *; lia).
  step. simpl app. rewrite Hzero. step.
  rewrite next_block_zero. step. simpl.
  now rewrite (chdir_dotdot R D c es HD).
Qed.

Lemma zero_field_is_sentinel_witness :
  unpack_frame {| u_root := Examples.fs; u_cwd := [str "dst"] ++ [str "x"];
                  u_fp := str "size" ++ COLON :: str "3:abc";
                  u_depth := 1; u_stdout := [] |}
  = Ok {| u_root := Examples.fs; u_cwd := [str "dst"]; u_fp := str "3:abc";
          u_depth := 1 - 1; u_stdout := [] |}.
Proof.
  apply (zero_field_is_sentinel Examples.fs [str "dst"] (str "x")
                                [(str "x", Dir [])] 1 [] (str "3:abc")
                                (str "size")).
  - reflexivity.
  - repeat constructor; discriminate.
  - vm_compute. lia.
  - reflexivity.
Defined.

(** X9.  A frame that declares a name of one byte or more and has none
    (the ':' of the next field comes at once): the decoder looks at
    [fn[strlen(fn)-1]] with [strlen(fn)] 0, outside the array. *)
Theorem empty_name_is_out_of_bounds (R : node) (D : path) (depth : Z)
        (out rest : bytes) (n : N) :
  (0 < n)%N -> Z.of_N n <= INT_MAX ->
  unpack_frame {| u_root := R; u_cwd := D;
                  u_fp := print_ld n ++ COLON :: COLON :: rest;
                  u_depth := depth; u_stdout := out |}
  = Undefined OutOfBounds.
Proof.
  intros Hpos Hmax. unfold unpack_frame. proj.
  rewrite next_block_decimal.
  2:{ apply N.le_lt_trans with (Z.to_N INT_MAX); [lia|reflexivity]. }
  step. rewrite atoi_print_ld by auto. step.
  simpl next_block.
  replace (0 <? Z.of_N n) with true by (symmetry; apply Z.ltb_lt; lia).
  unfold next_block_close. simpl. 
  replace (Z.of_N n =? 0) with false by (symmetry; apply Z.eqb_neq; lia).
  reflexivity.
Qed.

Lemma empty_name_is_out_of_bounds_witness :
  unpack_frame {| u_root := Examples.fs; u_cwd := Examples.dst;
                  u_fp := print_ld 3 ++ COLON :: COLON :: str "abc";
                  u_depth := 1; u_stdout := [] |}
  = Undefined OutOfBounds.
Proof.
  apply (empty_name_is_out_of_bounds Examples.fs Examples.dst 1 []
                                     (str "abc") 3);
    vm_compute; first [reflexivity | discriminate].
Defined.

(** ** [mkpath] on any path name *)

Lemma assoc_alter_other (f : node -> node) (c c' : name)
      (es : list (name * node)) :
  bytes_eqb c' c = false -> assoc c' (alter f c es) = assoc c' es.
Proof.
  intros Hne. induction es as [|[k n] es IH]; simpl; auto.
  destruct (bytes_eqb c k) eqn:E; simpl.
  - apply bytes_eqb_true in E. subst k. now rewrite Hne.
  - destruct (bytes_eqb c' k); auto.
Qed.

(** A new entry somewhere leaves every regular file as it is and every
    directory a directory. *)
Lemma add_entry_keeps (c : name) (X : node) (P : path) : forall R p,
  (forall d, get R p = Some (Reg d) ->
             get (update R P (add_entry c X)) p = Some (Reg d))
  /\ (forall es, get R p = Some (Dir es) ->
                 exists es', get (update R P (add_entry c X)) p = Some (Dir es')).
Proof.
  induction P as [|k P IH]; intros R p.
  - simpl update. destruct R as [d0|es0|t0|k0]; simpl; eauto.
    destruct p as [|c' p]; simpl.
    + split; [discriminate|]. intros es H. eauto.
    + rewrite assoc_app. destruct (assoc c' es0) as [m|]; eauto.
      split; discriminate.
  - destruct R as [d0|es0|t0|k0]; simpl update; eauto.
    destruct p as [|c' p]; simpl.
    + split; [discriminate|]. eauto.
    + destruct (bytes_eqb c' k) eqn:E.
      * apply bytes_eqb_true in E. subst c'. rewrite assoc_alter.
        destruct (assoc k es0) as [m|]; [apply IH|split; discriminate].
      * rewrite assoc_alter_other by auto.
        destruct (assoc c' es0) as [m|]; eauto.
Qed.

Lemma mkdir_keeps (R R' : node) (D : path) (s : bytes) (mode : Z) (p : path) :
  mkdir R D s mode = Some R' ->
  (forall d, get R p = Some (Reg d) -> get R' p = Some (Reg d))
  /\ (forall es, get R p = Some (Dir es) -> exists es', get R' p = Some (Dir es')).
Proof.
  unfold mkdir. intros H.
  destruct s as [|x s]; [discriminate|].
  destruct (path_too_long (x :: s)); [discriminate|].
  destruct (strip_trailing_empty (rev (components (x :: s)))) as [|c rp];
    [discriminate|].
  destruct (bytes_eqb c DOT || bytes_eqb c DOTDOT); [discriminate|].
  destruct (too_long c); [discriminate|].
  destruct (namei_from SYMLOOP_MAX R _ (rev rp)) as [parent| |];
    try discriminate.
  destruct (get R parent) as [[| | |]|]; try discriminate.
  destruct (get R (parent ++ [c])); [discriminate|].
  inversion H; subst. apply add_entry_keeps.
Qed.

Lemma mkpath_loop_keeps (D : path) (mode : Z) (q : path) :
  forall p R tmp,
    (forall d, get R q = Some (Reg d) ->
               get (snd (mkpath_loop R D tmp p mode)) q = Some (Reg d))
    /\ (forall es, get R q = Some (Dir es) ->
                   exists es',
                     get (snd (mkpath_loop R D tmp p mode)) q = Some (Dir es')).
Proof.
  induction p as [|c p IH]; intros R tmp; simpl.
  - split; eauto.
  - destruct (Ascii.eqb c SLASH); [|apply IH].
    destruct (stat R D tmp) as [st|].
    + destruct (negb (S_ISDIR st)); [simpl; split; eauto|apply IH].
    + destruct (mkdir R D tmp mode) as [R'|] eqn:E; [|simpl; split; eauto].
      destruct (mkdir_keeps R R' D tmp mode q E) as [K1 K2].
      destruct (IH R' (tmp ++ [c])) as [I1 I2]. split.
      * intros d H. apply I1, K1, H.
      * intros es H. destruct (K2 es H) as [es' H']. eapply I2, H'.
Qed.

(** X10.  Whatever the path name and whatever its result, [mkpath]
    takes nothing away: a regular file that was there is there with the
    same bytes, and a directory that was there is still a directory. *)
Theorem mkpath_keeps_what_exists (R : node) (D : path) (pathname : bytes)
        (mode : Z) (q : path) :
  (forall d, get R q = Some (Reg d) ->
             get (snd (mkpath R D pathname mode)) q = Some (Reg d))
  /\ (forall es, get R q = Some (Dir es) ->
                 exists es',
                   get (snd (mkpath R D pathname mode)) q = Some (Dir es')).
Proof. apply mkpath_loop_keeps. Qed.

Lemma mkpath_keeps_what_exists_witness :
  get (snd (mkpath Examples.fs Examples.src (str "a/b/f/new/") 448))
      (Examples.src ++ [str "a"; str "b"; str "f"])
  = Some (Reg (str "x"))
  /\ exists es',
       get (snd (mkpath Examples.fs Examples.src (str "a/b/f/new/") 448))
           (Examples.src ++ [str "a"; str "b"])
       = Some (Dir es').
Proof.
  destruct (mkpath_keeps_what_exists Examples.fs Examples.src
                                     (str "a/b/f/new/") 448
                                     (Examples.src ++ [str "a"; str "b"; str "f"]))
    as [K1 _].
  destruct (mkpath_keeps_what_exists Examples.fs Examples.src
                                     (str "a/b/f/new/") 448
                                     (Examples.src ++ [str "a"; str "b"]))
    as [_ K2].
  split.
  - apply K1. reflexivity.
  - apply (K2 [(str "f", Reg (str "x"))]). reflexivity.
Defined.

Lemma chain_last (R : node) (cs : list name) : forall D,
  chain R D cs -> exists es, get R (D ++ cs) = Some (Dir es).
Proof.
  induction cs as [|c cs IH]; intros D Hch.
  - rewrite app_nil_r. simpl in Hch. tauto.
  - destruct Hch as [_ Hch]. destruct (IH _ Hch) as [es Hes].
    exists es. now rewrite <- app_assoc in Hes.
Qed.

Lemma chain_app_l (R : node) (a b : list name) : forall D,
  chain R D (a ++ b) -> chain R D a.
Proof.
  induction a as [|c a IH]; intros D Hch; simpl in *.
  - split; auto. now apply chain_head in Hch.
  - destruct Hch as [H1 H2]. split; auto.
Qed.

(** Below directories that exist, a component that is a regular or
    special file stops the loop; so does a prefix that is too long for
    stat and mkdir. *)
Lemma mkpath_loop_blocked (R : node) (D : path) (mode : Z) (c : name)
      (rest : bytes) (n : node) :
  entry_name c = true -> is_lnk n = false -> (forall es, n <> Dir es) ->
  forall cs done,
    Forall (fun c => entry_name c = true) done ->
    Forall (fun c => entry_name c = true) cs ->
    chain R D (done ++ cs) ->
    get R (D ++ (done ++ cs) ++ [c]) = Some n ->
    mkpath_loop R D (slashed done) (slashed cs ++ c ++ [SLASH] ++ rest) mode
    = (-1, R).
Proof.
  intros Hc Hl Hn. destruct (entry_name_spec c Hc) as (_ & Hslash & _).
  induction cs as [|d cs IH]; intros done Hdone Hcs Hch Hget.
  - rewrite app_nil_r in *. simpl app. rewrite mkpath_loop_plain by auto.
    change ([SLASH] ++ rest) with (SLASH :: rest). rewrite mkpath_loop_slash.
    destruct (path_too_long (slashed done ++ c)) eqn:Hp.
    + unfold stat. rewrite namei_long by auto. now rewrite mkdir_long.
    + rewrite (stat_chain R D done c Hdone Hc Hch Hp).
      rewrite app_assoc in Hget.
      rewrite (stat_found R (D ++ done) c Hc n Hget Hl).
      destruct n; simpl; auto. now destruct (Hn entries).
  - inversion Hcs as [|? ? Hd Hcs']; subst.
    destruct (entry_name_spec d Hd) as (_ & Hdslash & _).
    replace (done ++ d :: cs) with ((done ++ [d]) ++ cs) in *
      by (now rewrite <- app_assoc).
    assert (Hch1 : chain R D (done ++ [d])) by (now apply chain_app_l in Hch).
    assert (Hch0 : chain R D done) by (now apply chain_app_l in Hch1).
    destruct (chain_last _ _ _ Hch1) as [es Hes].
    replace (slashed (d :: cs) ++ c ++ [SLASH] ++ rest)
      with (d ++ SLASH :: (slashed cs ++ c ++ [SLASH] ++ rest))
      by (simpl slashed; assoc_eq).
    rewrite mkpath_loop_plain by auto. rewrite mkpath_loop_slash.
    destruct (path_too_long (slashed done ++ d)) eqn:Hp.
    + unfold stat. rewrite namei_long by auto. now rewrite mkdir_long.
    + rewrite (stat_chain R D done d Hdone Hd Hch0 Hp).
      rewrite app_assoc in Hes.
      rewrite (stat_found R (D ++ done) d Hd (Dir es) Hes eq_refl).
      simpl negb. cbv iota.
      replace ((slashed done ++ d) ++ [SLASH]) with (slashed (done ++ [d]))
        by (rewrite slashed_app; simpl slashed; assoc_eq).
      apply IH; auto. apply Forall_app. split; auto.
Qed.

(** X11.  A path name with a component that exists and is a regular or
    special file, below directories that exist: [mkpath] returns -1 and
    makes nothing. *)
Theorem mkpath_blocked_by_file (R : node) (D : path) (done : list name)
        (c : name) (rest : bytes) (mode : Z) (n : node) :
  Forall (fun c => entry_name c = true) done -> entry_name c = true ->
  chain R D done ->
  get R (D ++ done ++ [c]) = Some n ->
  is_lnk n = false -> (forall es, n <> Dir es) ->
  mkpath R D (slashed done ++ c ++ [SLASH] ++ rest) mode = (-1, R).
Proof.
  intros Hdone Hc Hch Hget Hl Hn.
  unfold mkpath. change (@nil ascii) with (slashed []) at 1.
  apply (mkpath_loop_blocked R D mode c rest n Hc Hl Hn done []); auto.
Qed.

Lemma mkpath_blocked_by_file_witness :
  mkpath Examples.fs Examples.src
         (slashed [str "a"; str "b"] ++ str "f" ++ [SLASH] ++ str "new/") 448
  = (-1, Examples.fs).
Proof.
  apply (mkpath_blocked_by_file Examples.fs Examples.src [str "a"; str "b"]
                                (str "f") (str "new/") 448 (Reg (str "x"))).
  - repeat constructor.
  - reflexivity.
  - simpl. repeat split; eexists; vm_compute; reflexivity.
  - reflexivity.
  - reflexivity.
  - discriminate.
Defined.

Lemma mkpath_relative_witness :
  mkpath Examples.fs [str "dst"] (slashed [str "x"; str "y"; str "z"]) 448
  = (0, update (update Examples.fs [str "dst"; str "x"]
                       (add_entry (str "y") (Dir [])))
               [str "dst"; str "x"; str "y"] (add_entry (str "z") (Dir [])))
  /\ chain (update (update Examples.fs [str "dst"; str "x"]
                           (add_entry (str "y") (Dir [])))
                   [str "dst"; str "x"; str "y"] (add_entry (str "z") (Dir [])))
           [str "dst"] [str "x"; str "y"; str "z"]
  /\ mkpath (update (update Examples.fs [str "dst"; str "x"]
                            (add_entry (str "y") (Dir [])))
                    [str "dst"; str "x"; str "y"] (add_entry (str "z") (Dir [])))
            [str "dst"] (slashed [str "x"; str "y"; str "z"]) 448
     = (0, update (update Examples.fs [str "dst"; str "x"]
                          (add_entry (str "y") (Dir [])))
                  [str "dst"; str "x"; str "y"] (add_entry (str "z") (Dir []))).
Proof.
  apply (mkpath_relative Examples.fs _ [str "dst"] [str "x"; str "y"; str "z"]
                         448 [(str "x", Dir [])]).
  - reflexivity.
  - repeat constructor.
  - vm_compute. discriminate.
  - vm_compute. reflexivity.
Defined.

(** ** Unpacking over what is already there *)

Lemma get_parent_dir (R : node) (D : path) (c : name) (x : node) :
  get R (D ++ [c]) = Some x ->
  exists es, get R D = Some (Dir es) /\ assoc c es = Some x.
Proof.
  rewrite get_app.
  destruct (get R D) as [[d|es|t|k]|]; simpl; try discriminate.
  intros H. exists es. split; auto. now destruct (assoc c es).
Qed.

Lemma mkpath_existing (R : node) (D : path) (c : name) (mode : Z)
      (es : list (name * node)) :
  entry_name c = true -> get R (D ++ [c]) = Some (Dir es) ->
  mkpath R D (c ++ [SLASH]) mode = (0, R).
Proof.
  intros Hc Hget. destruct (entry_name_spec c Hc) as (_ & Hslash & _).
  unfold mkpath. rewrite mkpath_loop_plain by auto. simpl.
  now rewrite (stat_found R D c Hc (Dir es) Hget eq_refl).
Qed.

(** A directory frame for a directory that exists: it is entered. *)
Lemma frame_dir_existing (R : node) (D : path) (depth : Z) (out rest : bytes)
      (c : name) (es : list (name * node)) :
  entry_name c = true -> codec_name 1 c = true ->
  get R (D ++ [c]) = Some (Dir es) ->
  unpack_frame {| u_root := R; u_cwd := D;
                  u_fp := print_ld (strlen c + 1) ++ [COLON] ++ c ++ [SLASH]
                          ++ rest;
                  u_depth := depth; u_stdout := out |}
  = Ok {| u_root := R; u_cwd := D ++ [c];
          u_fp := rest; u_depth := depth + 1;
          u_stdout := out ++ indent depth ++ (c ++ [SLASH]) ++ [LF] |}.
Proof.
  intros Hname Hcodec Hget.
  destruct (codec_name_spec 1 c Hcodec) as [Hcolon Hlen].
  destruct (entry_name_spec c Hname) as (Hne & Hslash & Hnul & _).
  assert (Hn : (strlen c + 1 = N.of_nat (length c + 1))%N)
    by (unfold strlen; lia).
  unfold unpack_frame. proj. simpl app at 2.
  rewrite next_block_decimal by (rewrite Hn; apply small_N; lia).
  step.
  rewrite atoi_print_ld by (rewrite Hn; unfold NAME_MAX, INT_MAX in *; lia).
  step.
  replace (Z.of_N (strlen c + 1))
    with (Z.of_nat (length (@nil ascii) + length (c ++ [SLASH])))
    by (rewrite length_app; unfold strlen; simpl; lia).
  replace (c ++ SLASH :: rest) with ((c ++ [SLASH]) ++ rest)
    by (now rewrite <- app_assoc).
  rewrite (next_block_exact COLON rest (c ++ [SLASH]) []).
  - step. simpl app.
    assert (Hcs : cstr (c ++ [SLASH]) = c ++ [SLASH]).
    { apply cstr_id. apply Forall_app. split; auto.
      constructor; [discriminate|constructor]. }
    rewrite Hcs. rewrite rev_app_distr. simpl rev. simpl app.
    replace (_ =? 0) with false
      by (symmetry; apply Z.eqb_neq; rewrite length_app; simpl; lia).
    rewrite Ascii.eqb_refl.
    rewrite (mkpath_existing R D c 448 es Hname Hget).
    simpl negb. cbv iota. proj.
    now rewrite (chdir_into_slash R D c Hname es Hget).
  - apply Forall_app. split; auto. constructor; [discriminate|constructor].
  - rewrite length_app. simpl. lia.
Qed.

(** A file frame for a regular file that exists: it gets the payload. *)
Lemma frame_file_existing (R : node) (D : path) (depth : Z)
      (out rest : bytes) (c : name) (old d : bytes) :
  entry_name c = true -> codec_name 0 c = true ->
  get R (D ++ [c]) = Some (Reg old) ->
  Z.of_nat (length d) <= INT_MAX ->
  unpack_frame {| u_root := R; u_cwd := D;
                  u_fp := print_ld (strlen c) ++ [COLON] ++ c
                          ++ print_ld (N.of_nat (length d)) ++ [COLON]
                          ++ d ++ rest;
                  u_depth := depth; u_stdout := out |}
  = Ok {| u_root := update R (D ++ [c]) (fun _ => Reg d); u_cwd := D;
          u_fp := rest; u_depth := depth;
          u_stdout := out ++ indent depth ++ c ++ [LF] |}.
Proof.
  intros Hname Hcodec Hget Hsize.
  destruct (entry_name_file c Hname Hcodec) as (H1 & H2 & H3 & H4 & H5).
  rewrite frame_file_open by (auto; lia).
  unfold fopen_w.
  rewrite (namei_found R D c Hname (Reg old) Hget eq_refl), Hget.
  rewrite Nat2N.id, copy_payload_exact. step. simpl fst. simpl snd.
  simpl fclose_w. now rewrite update_twice.
Qed.

Lemma update_same (p : path) (R n : node) :
  get R p = Some n -> update R p (fun _ => n) = R.
Proof.
  intros H. rewrite <- (update_id p R) at 2.
  apply update_ext_at. intros n' H'. congruence.
Qed.

Lemma all_special_nothing (kids : list (name * node)) :
  existsb framed kids = false ->
  flat_map (fun cm => wire_entry (fst cm) (snd cm)) kids = []
  /\ nframes_list kids = 0%nat
  /\ prune_entries kids = []
  /\ forall depth,
       flat_map (fun cm => listing depth (fst cm) (snd cm)) kids = [].
Proof.
  induction kids as [|[c m] kids IH]; intros H.
  - repeat split.
  - simpl in H. apply orb_false_iff in H. destruct H as [Hm Hk].
    destruct (IH Hk) as (I1 & I2 & I3 & I4).
    unfold framed in Hm. simpl in Hm. destruct m; try discriminate.
    unfold prune_entries in *. simpl. repeat split; auto.
Qed.

Lemma wire_nonempty (c : name) (m : node) :
  is_special m = false -> linkless m = true -> wire_entry c m <> [].
Proof.
  intros Hs Hl. destruct m; try discriminate; simpl; intros E;
    apply app_eq_nil in E; destruct E as [E _];
    now apply print_ld_nonempty in E.
Qed.

Lemma some_framed_wire (kids : list (name * node)) (rest : bytes) :
  Forall (fun cm => linkless (snd cm) = true) kids ->
  existsb framed kids = true ->
  flat_map (fun cm => wire_entry (fst cm) (snd cm)) kids ++ rest <> [].
Proof.
  induction kids as [|[c m] kids IH]; intros Hl H; [discriminate|].
  inversion Hl as [|? ? Hm Hl']; subst. simpl in Hm.
  simpl. intros E. apply app_eq_nil in E. destruct E as [E Er].
  apply app_eq_nil in E. destruct E as [E1 E2].
  simpl in H. apply orb_true_iff in H. destruct H as [H|H].
  - unfold framed in H. simpl in H. apply negb_true_iff in H.
    now apply (wire_nonempty c m H Hm).
  - apply (IH Hl' H). now rewrite E2, Er.
Qed.

Lemma assoc_prune_entries (kids : list (name * node)) : forall c m,
  nodupb (map fst kids) = true -> In (c, m) kids -> is_special m = false ->
  assoc c (prune_entries kids) = Some (prune m).
Proof.
  induction kids as [|[k n] kids IH]; intros c m Hnd Hin Hsp; [contradiction|].
  simpl map in Hnd. destruct (nodupb_cons _ _ Hnd) as [Hnd' Hdiff].
  unfold prune_entries. simpl flat_map. destruct Hin as [E|Hin].
  - inversion E; subst. rewrite Hsp. simpl. now rewrite bytes_eqb_refl.
  - assert (Hck : bytes_eqb c k = false).
    { apply Hdiff. apply in_map_iff. now exists (c, m). }
    destruct (is_special n); simpl; [|rewrite Hck]; now apply IH.
Qed.

(** Entries one after the other, each of them there already; at least
    one of them has a frame. *)
Lemma unpack_entries_again : forall kids,
  Forall (fun cm => linkless (snd cm) = true
                    /\ (is_special (snd cm) = false ->
                        entry_redecodes (fst cm) (snd cm))) kids ->
  existsb framed kids = true ->
  forall s rest f,
    (forall c m, In (c, m) kids -> is_special m = false ->
                 exists x, get (u_root s) (u_cwd s ++ [c]) = Some x
                           /\ covers x m = true) ->
    u_fp s = flat_map (fun cm => wire_entry (fst cm) (snd cm)) kids ++ rest ->
    unpack_loop (nframes_list kids + f) s
    = continue f
        {| u_root := u_root s;
           u_cwd := u_cwd s;
           u_fp := rest;
           u_depth := u_depth s;
           u_stdout := u_stdout s
                       ++ flat_map (fun cm => listing (u_depth s) (fst cm) (snd cm))
                                   kids |}.
Proof.
  induction kids as [|[c m] kids IH];
    intros Hall Hex s rest f Hthere Hfp; [discriminate|].
  inversion Hall as [|? ? [Hll Hdec] Hall']; subst. simpl in Hll, Hdec.
  assert (Hlls : Forall (fun cm => linkless (snd cm) = true) kids).
  { eapply Forall_impl; [|exact Hall']. now intros a [H _]. }
  destruct (is_special m) eqn:Esp.
  - destruct m; try discriminate. simpl in Hfp, Hex.
    simpl nframes_list. simpl flat_map.
    apply IH; auto. intros c' m' Hin. apply Hthere. now right.
  - specialize (Hdec eq_refl).
    simpl nframes_list. rewrite <- Nat.add_assoc.
    destruct (Hthere c m (or_introl eq_refl) Esp) as (x & Hx & Hcov).
    rewrite (Hdec s x
               (flat_map (fun cm => wire_entry (fst cm) (snd cm)) kids ++ rest)
               (nframes_list kids + f)%nat Hx Hcov).
    2:{ rewrite Hfp. simpl. now rewrite app_assoc. }
    destruct (existsb framed kids) eqn:Ek.
    + rewrite continue_more by (proj; now apply some_framed_wire).
      rewrite (IH Hall' eq_refl _ rest f).
      * proj. f_equal. f_equal. simpl flat_map. now rewrite <- app_assoc.
      * proj. intros c' m' Hin. apply Hthere. now right.
      * reflexivity.
    + destruct (all_special_nothing kids Ek) as (E1 & E2 & E3 & E4).
      rewrite E1, E2. simpl flat_map. rewrite E4, app_nil_r. reflexivity.
Qed.

(** The entries of a directory that holds them already. *)
Lemma unpack_children_again (kids : list (name * node)) (s : ustate)
      (rest : bytes) (f : nat) :
  Forall (fun cm => linkless (snd cm) = true
                    /\ (is_special (snd cm) = false ->
                        entry_redecodes (fst cm) (snd cm))) kids ->
  (forall c m, In (c, m) kids -> is_special m = false ->
               exists x, get (u_root s) (u_cwd s ++ [c]) = Some x
                         /\ covers x m = true) ->
  u_fp s = flat_map (fun cm => wire_entry (fst cm) (snd cm)) kids ++ rest ->
  rest <> [] ->
  unpack_loop (nframes_list kids + f) s
  = unpack_loop f
      {| u_root := u_root s;
         u_cwd := u_cwd s;
         u_fp := rest;
         u_depth := u_depth s;
         u_stdout := u_stdout s
                     ++ flat_map (fun cm => listing (u_depth s) (fst cm) (snd cm))
                                 kids |}.
Proof.
  intros Hall Hthere Hfp Hrest.
  destruct (existsb framed kids) eqn:Ek.
  - rewrite (unpack_entries_again kids Hall Ek s rest f Hthere Hfp).
    now apply continue_more.
  - destruct (all_special_nothing kids Ek) as (E1 & E2 & E3 & E4).
    rewrite E2, E4, app_nil_r. rewrite E1 in Hfp. simpl in Hfp.
    rewrite <- Hfp. now destruct s.
Qed.

(** The archive of a tree is decoded over a tree that holds all of it
    without a change to the file system. *)
Lemma unpack_entry_again : forall m c,
  wf m = true -> linkless m = true -> is_special m = false ->
  entry_name c = true -> codec_ok c m = true ->
  entry_redecodes c m.
Proof.
  induction m as [d|t|k|kids IH] using node_induction;
    intros c Hwf Hll Hsp Hc Hok; try discriminate.
  - (* a regular file *)
    intros s x rest f Hget Hcov Hfp.
    simpl in Hok. apply andb_true_iff in Hok. destruct Hok as [Hcn Hsz].
    apply Z.leb_le in Hsz.
    destruct s as [R D fp depth out]. proj in Hget. proj in Hfp. subst fp.
    destruct x as [d'| | |]; try discriminate.
    simpl in Hcov. apply bytes_eqb_true in Hcov. subst d'.
    simpl nframes. simpl Nat.add. rewrite unpack_loop_step.
    replace (wire_entry c (Reg d) ++ rest)
      with (print_ld (strlen c) ++ [COLON] ++ c
            ++ print_ld (N.of_nat (length d)) ++ [COLON] ++ d ++ rest)
      by (simpl wire_entry; assoc_eq).
    rewrite (frame_file_existing R D depth out rest c d d Hc Hcn Hget Hsz).
    rewrite (update_same _ R (Reg d) Hget).
    reflexivity.
  - (* a directory *)
    intros s x rest f Hget Hcov Hfp.
    destruct (codec_ok_dir c kids Hok) as [Hcn Hoks].
    destruct (wf_dir kids Hwf) as (Hnd & Hnames & Hwfs).
    destruct s as [R D fp depth out]. proj in Hget. proj in Hfp. subst fp.
    destruct x as [|es'| |]; try discriminate.
    simpl in Hcov. rewrite forallb_forall in Hcov.
    destruct (get_parent_dir R D c _ Hget) as (es & HD & _).
    replace (nframes (Dir kids) + f)%nat with (S (nframes_list kids + S f))
      by (simpl; unfold nframes_list; lia).
    rewrite unpack_loop_step.
    replace (wire_entry c (Dir kids) ++ rest)
      with (print_ld (strlen c + 1) ++ [COLON] ++ c ++ [SLASH]
            ++ (flat_map (fun cm => wire_entry (fst cm) (snd cm)) kids
                ++ str "0:" ++ rest))
      by (simpl wire_entry; assoc_eq).
    rewrite (frame_dir_existing R D depth out _ c _ Hc Hcn Hget).
    step. rewrite continue_more.
    2:{ proj. intros E. apply app_eq_nil in E. destruct E as [_ E].
        discriminate E. }
    rewrite (unpack_children_again kids _ (str "0:" ++ rest) (S f)).
    + proj. rewrite unpack_loop_step.
      rewrite (frame_end R D es (depth + 1) _ rest HD c).
      step. f_equal.
      replace (depth + 1 - 1) with depth by lia.
      f_equal. simpl listing. assoc_eq.
    + apply Forall_forall. intros [c' m] Hin. simpl. split.
      * simpl in Hll. rewrite forallb_forall in Hll. apply (Hll (c', m) Hin).
      * intros Hsp'. rewrite Forall_forall in IH. apply (IH (c', m) Hin).
        -- now apply Hwfs with c'.
        -- simpl in Hll. rewrite forallb_forall in Hll. apply (Hll (c', m) Hin).
        -- exact Hsp'.
        -- rewrite Forall_forall in Hnames. apply (Hnames (c', m) Hin).
        -- now apply Hoks.
    + proj. intros c' m' Hin Hsp'. rewrite get_app, Hget. simpl get.
      specialize (Hcov (c', m') Hin). simpl in Hcov. rewrite Hsp' in Hcov.
      simpl in Hcov. destruct (assoc c' es') as [x'|]; [|discriminate].
      now exists x'.
    + reflexivity.
    + discriminate.
Qed.

Lemma covers_itself : forall m,
  wf m = true -> linkless m = true -> covers m m = true.
Proof.
  induction m as [d|t|k|kids IH] using node_induction; intros Hwf Hll;
    try reflexivity.
  - simpl. apply bytes_eqb_refl.
  - destruct (wf_dir kids Hwf) as (Hnd & Hnames & Hwfs).
    simpl. apply forallb_forall. intros [c m] Hin. simpl.
    rewrite (assoc_in kids c m Hnd Hin).
    destruct (is_special m) eqn:Esp; [reflexivity|]. simpl.
    rewrite Forall_forall in IH. apply (IH (c, m) Hin).
    + now apply Hwfs with c.
    + simpl in Hll. rewrite forallb_forall in Hll. apply (Hll (c, m) Hin).
Qed.

Lemma covers_prune : forall m,
  wf m = true -> linkless m = true -> covers (prune m) m = true.
Proof.
  induction m as [d|t|k|kids IH] using node_induction; intros Hwf Hll;
    try reflexivity.
  - simpl. apply bytes_eqb_refl.
  - destruct (wf_dir kids Hwf) as (Hnd & Hnames & Hwfs).
    simpl prune. fold (prune_entries kids). simpl covers.
    apply forallb_forall. intros [c m] Hin. simpl.
    destruct (is_special m) eqn:Esp; [reflexivity|]. simpl.
    rewrite (assoc_prune_entries kids c m Hnd Hin Esp).
    rewrite Forall_forall in IH. apply (IH (c, m) Hin).
    + now apply Hwfs with c.
    + simpl in Hll. rewrite forallb_forall in Hll. apply (Hll (c, m) Hin).
Qed.

(** X12.  Unpacking the archive of an entry, a regular file or a
    directory tree without symbolic links whose names and sizes the
    decoder can take in (no ':', at most 254 bytes, 253 for a directory;
    files of at most INT_MAX bytes), in a directory where the entry
    holds all of it already (every file with the same bytes, every
    directory, and possibly more): the run ends at the end of the
    archive, back in the directory and at the depth it started from, and
    the file system is what it was.  The tree itself holds all of its
    archive, and so does the tree without its special files. *)
Theorem unpack_over_itself (Rd : node) (Dd : path) (c : name) (T X : node)
        (depth : Z) (fuel : nat) :
  wf T = true -> linkless T = true -> is_special T = false ->
  entry_name c = true -> codec_ok c T = true ->
  get Rd (Dd ++ [c]) = Some X -> covers X T = true ->
  (nframes T <= fuel)%nat ->
  unpack fuel Rd Dd (wire_entry c T) depth
  = Ok {| u_root := Rd;
          u_cwd := Dd;
          u_fp := [];
          u_depth := depth;
          u_stdout := (str "Contents of Extracted Archive:" ++ [LF])
                      ++ listing depth c T |}
  /\ covers T T = true /\ covers (prune T) T = true.
Proof.
  intros Hwf Hll Hsp Hc Hok Hget Hcov Hfuel. split.
  - replace fuel with (nframes T + (fuel - nframes T))%nat by lia.
    unfold unpack.
    rewrite (unpack_entry_again T c Hwf Hll Hsp Hc Hok _ X [] _);
      [reflexivity|exact Hget|exact Hcov|proj; now rewrite app_nil_r].
  - split; [now apply covers_itself|now apply covers_prune].
Qed.

Lemma unpack_over_itself_witness :
  unpack 6 Examples.fs Examples.src (wire_entry (str "root") Examples.tree) 1
  = Ok {| u_root := Examples.fs;
          u_cwd := Examples.src;
          u_fp := [];
          u_depth := 1;
          u_stdout := (str "Contents of Extracted Archive:" ++ [LF])
                      ++ listing 1 (str "root") Examples.tree |}
  /\ covers Examples.tree Examples.tree = true
  /\ covers (prune Examples.tree) Examples.tree = true.
Proof.
  apply (unpack_over_itself Examples.fs Examples.src (str "root")
                            Examples.tree Examples.tree 1 6);
    first [vm_compute; reflexivity | vm_compute; lia].
Defined.

(** ** [main]: packing and unpacking several entries *)

(** The arguments of a packing run, one after the other. *)
Lemma pack_args_trees (fuel : nat) (root : node) : forall kids w,
  Forall (fun cm => entry_name (fst cm) = true /\ wf (snd cm) = true
                    /\ linkless (snd cm) = true
                    /\ get root (p_cwd w ++ [fst cm]) = Some (snd cm)
                    /\ (height (snd cm) < fuel)%nat) kids ->
  pack_args fuel root (map fst kids) w
  = Ok (grow w
             (flat_map (fun cm => wire_entry (fst cm) (snd cm)) kids)
             (flat_map (fun cm => listing 1 (fst cm) (snd cm)) kids)
             (flat_map (fun cm => warnings (fst cm) (snd cm)) kids)
             (flat_map (fun cm => frames 1 (fst cm) (snd cm)) kids)).
Proof.
  induction kids as [|[c m] kids IH]; intros w Hall.
  - simpl. now rewrite grow_nil.
  - inversion Hall as [|? ? (Hc & Hwf & Hll & Hget & Hh) Hall']; subst.
    simpl in Hc, Hwf, Hll, Hget, Hh. simpl map. simpl pack_args.
    rewrite (pack_tree root m c 1 w fuel Hwf Hll Hc Hget Hh). step.
    rewrite IH by exact Hall'. now rewrite grow_grow.
Qed.

Lemma sibling_get (R : node) (D : path) (es : list (name * node))
      (c out : name) (X T : node) :
  get R D = Some (Dir es) -> assoc out es = None -> assoc c es = Some T ->
  get (update R D (add_entry out X)) (D ++ [c]) = Some T.
Proof.
  intros HD Hout Hc. rewrite get_app, (extend_dir R D es out HD X).
  simpl. now rewrite assoc_app, Hc.
Qed.

Lemma argv_shape (prog out : bytes) (names : list bytes) :
  names <> [] ->
  (length (prog :: names ++ [out]) <? 2)%nat = false
  /\ (2 <? length (prog :: names ++ [out]))%nat = true
  /\ last (prog :: names ++ [out]) [] = out
  /\ removelast (tl (prog :: names ++ [out])) = names.
Proof.
  intros Hne. split; [|split; [|split]].
  - apply Nat.ltb_ge. simpl length. rewrite length_app. simpl length.
    destruct names; [congruence|simpl; lia].
  - apply Nat.ltb_lt. simpl length. rewrite length_app. simpl length.
    destruct names; [congruence|simpl; lia].
  - change (prog :: names ++ [out]) with ((prog :: names) ++ [out]).
    apply last_last.
  - simpl tl. apply removelast_last.
Qed.

(** A packing run of [main] over entries of the working directory,
    into an archive that the directory does not hold yet. *)
Lemma main_pack_mode (root : node) (cwd : path) (es kids : list (name * node))
      (prog out : bytes) (fuel : nat) :
  get root cwd = Some (Dir es) ->
  entry_name out = true -> assoc out es = None ->
  kids <> [] ->
  Forall (fun cm => entry_name (fst cm) = true /\ wf (snd cm) = true
                    /\ linkless (snd cm) = true
                    /\ assoc (fst cm) es = Some (snd cm)
                    /\ (height (snd cm) < fuel)%nat) kids ->
  main fuel root cwd (prog :: map fst kids ++ [out])
  = Ok {| m_root := update root cwd
                      (add_entry out
                         (Reg (flat_map (fun cm => wire_entry (fst cm) (snd cm))
                                        kids)));
          m_cwd := cwd;
          m_stdout := (str "Contents of Archive:" ++ [LF])
                      ++ flat_map (fun cm => listing 1 (fst cm) (snd cm)) kids;
          m_stderr := flat_map (fun cm => warnings (fst cm) (snd cm)) kids |}.
Proof.
  intros HD Hout Hfresh Hne Hall.
  assert (Hnames : map fst kids <> []) by (destruct kids; [congruence|discriminate]).
  destruct (argv_shape prog out (map fst kids) Hnames) as (A1 & A2 & A3 & A4).
  unfold main. cbv zeta. change (@app name) with (@app bytes).
  rewrite A1, A2, A3, A4.
  rewrite (fopen_w_missing root cwd out Hout es HD Hfresh).
  rewrite pack_args_trees.
  - step. unfold grow. proj. simpl fclose_w. simpl app.
    now rewrite (extend_update root cwd es out HD Hfresh (Reg [])
                   (fun _ => Reg _)).
  - eapply Forall_impl; [|exact Hall].
    intros [c m] (Hc & Hwf & Hll & Has & Hh). simpl in *.
    repeat split; auto. now apply sibling_get with es.
Qed.

(** X13.  [main] with the names of entries of the working directory and
    the name of an archive that the directory does not hold: the run
    returns; the archive is made in the directory and holds the wire
    format of the entries, one after the other in the order of the
    arguments; the entries are where they were; the working directory
    is the same; stdout has the title and the listings at depth 1, and
    stderr a warning for each special file. *)
Theorem main_packs (root : node) (cwd : path) (es kids : list (name * node))
        (prog out : bytes) (fuel : nat) :
  get root cwd = Some (Dir es) ->
  entry_name out = true -> assoc out es = None ->
  kids <> [] ->
  Forall (fun cm => entry_name (fst cm) = true /\ wf (snd cm) = true
                    /\ linkless (snd cm) = true
                    /\ assoc (fst cm) es = Some (snd cm)
                    /\ (height (snd cm) < fuel)%nat) kids ->
  exists s,
    main fuel root cwd (prog :: map fst kids ++ [out]) = Ok s
    /\ get (m_root s) (cwd ++ [out])
       = Some (Reg (flat_map (fun cm => wire_entry (fst cm) (snd cm)) kids))
    /\ (forall c T, In (c, T) kids -> get (m_root s) (cwd ++ [c]) = Some T)
    /\ m_cwd s = cwd
    /\ m_stdout s
       = (str "Contents of Archive:" ++ [LF])
         ++ flat_map (fun cm => listing 1 (fst cm) (snd cm)) kids
    /\ m_stderr s = flat_map (fun cm => warnings (fst cm) (snd cm)) kids.
Proof.
  intros HD Hout Hfresh Hne Hall. eexists. split.
  - now apply main_pack_mode with es.
  - simpl. split; [now apply extend_get with es|]. split; auto.
    intros c T Hin. rewrite Forall_forall in Hall.
    destruct (Hall (c, T) Hin) as (_ & _ & _ & Has & _).
    now apply sibling_get with es.
Qed.

Lemma main_packs_witness :
  exists s,
    main 3 Examples.fs Examples.src
         (str "archive"
          :: map fst [(str "root", Examples.tree);
                      (str "a", Dir [(str "b", Dir [(str "f", Reg (str "x"))])])]
          ++ [str "out"]) = Ok s
    /\ get (m_root s) (Examples.src ++ [str "out"])
       = Some (Reg (flat_map (fun cm => wire_entry (fst cm) (snd cm))
                      [(str "root", Examples.tree);
                       (str "a", Dir [(str "b", Dir [(str "f", Reg (str "x"))])])]))
    /\ (forall c T,
           In (c, T) [(str "root", Examples.tree);
                      (str "a", Dir [(str "b", Dir [(str "f", Reg (str "x"))])])] ->
           get (m_root s) (Examples.src ++ [c]) = Some T)
    /\ m_cwd s = Examples.src
    /\ m_stdout s
       = (str "Contents of Archive:" ++ [LF])
         ++ flat_map (fun cm => listing 1 (fst cm) (snd cm))
              [(str "root", Examples.tree);
               (str "a", Dir [(str "b", Dir [(str "f", Reg (str "x"))])])]
    /\ m_stderr s
       = flat_map (fun cm => warnings (fst cm) (snd cm))
           [(str "root", Examples.tree);
            (str "a", Dir [(str "b", Dir [(str "f", Reg (str "x"))])])].
Proof.
  apply (main_packs
           Examples.fs Examples.src
           [(str "root", Examples.tree); (str "plain", Examples.plain_tree);
            (str "d", Examples.colon_tree); (str "links", Examples.link_tree);
            (Examples.long_name, Reg []);
            (str "a", Dir [(str "b", Dir [(str "f", Reg (str "x"))])]);
            (str "lnk", Lnk (str "/dst"))]
           [(str "root", Examples.tree);
            (str "a", Dir [(str "b", Dir [(str "f", Reg (str "x"))])])]
           (str "archive") (str "out") 3).
  - reflexivity.
  - reflexivity.
  - vm_compute. reflexivity.
  - discriminate.
  - repeat constructor; vm_compute; first [reflexivity | lia].
Defined.

(** Entries one after the other into a directory that has none of
    them; at least one of them has a frame. *)
Lemma unpack_entries : forall kids,
  Forall (fun cm => linkless (snd cm) = true
                    /\ (is_special (snd cm) = false ->
                        entry_decodes (fst cm) (snd cm))) kids ->
  nodupb (map fst kids) = true ->
  existsb framed kids = true ->
  forall s done rest f,
    get (u_root s) (u_cwd s) = Some (Dir done) ->
    (forall c, In c (map fst kids) -> assoc c done = None) ->
    u_fp s = flat_map (fun cm => wire_entry (fst cm) (snd cm)) kids ++ rest ->
    unpack_loop (nframes_list kids + f) s
    = continue f
        {| u_root := update (u_root s) (u_cwd s)
                            (add_entries (prune_entries kids));
           u_cwd := u_cwd s;
           u_fp := rest;
           u_depth := u_depth s;
           u_stdout := u_stdout s
                       ++ flat_map (fun cm => listing (u_depth s) (fst cm) (snd cm))
                                   kids |}.
Proof.
  induction kids as [|[c m] kids IH];
    intros Hall Hnd Hex s done rest f Hget Hfresh Hfp; [discriminate|].
  inversion Hall as [|? ? [Hll Hdec] Hall']; subst. simpl in Hll, Hdec.
  simpl map in Hnd. destruct (nodupb_cons _ _ Hnd) as [Hnd' Hdiff].
  assert (Hlls : Forall (fun cm => linkless (snd cm) = true) kids).
  { eapply Forall_impl; [|exact Hall']. now intros a [H _]. }
  destruct (is_special m) eqn:Esp.
  - destruct m; try discriminate. simpl in Hfp, Hex.
    simpl nframes_list. simpl flat_map. unfold prune_entries. simpl flat_map.
    apply IH with done; auto.
    intros c' Hin. apply Hfresh. now right.
  - specialize (Hdec eq_refl).
    assert (Hc : assoc c done = None) by (apply Hfresh; now left).
    simpl nframes_list. rewrite <- Nat.add_assoc.
    rewrite (Hdec s done
               (flat_map (fun cm => wire_entry (fst cm) (snd cm)) kids ++ rest)
               (nframes_list kids + f)%nat Hget Hc).
    2:{ rewrite Hfp. simpl. now rewrite app_assoc. }
    destruct (existsb framed kids) eqn:Ek.
    + rewrite continue_more by (unfold placed; proj; now apply some_framed_wire).
      rewrite (IH Hall' Hnd' eq_refl _ (done ++ [(c, prune m)]) rest f).
      * f_equal. unfold placed. proj.
        rewrite update_add_cons. unfold prune_entries at 2. simpl flat_map.
        rewrite Esp. simpl app. f_equal. now rewrite <- app_assoc.
      * unfold placed. proj. now apply extend_dir.
      * intros c' Hin. rewrite assoc_app, (Hfresh c' (or_intror Hin)).
        simpl. now rewrite (Hdiff c' Hin).
      * reflexivity.
    + destruct (all_special_nothing kids Ek) as (E1 & E2 & E3 & E4).
      rewrite E1, E2. unfold placed, prune_entries. simpl flat_map.
      fold (prune_entries kids). rewrite Esp, E3, E4, !app_nil_r.
      reflexivity.
Qed.

Lemma entries_decode (kids : list (name * node)) :
  Forall (fun cm => entry_name (fst cm) = true /\ wf (snd cm) = true
                    /\ linkless (snd cm) = true
                    /\ codec_ok (fst cm) (snd cm) = true) kids ->
  Forall (fun cm => linkless (snd cm) = true
                    /\ (is_special (snd cm) = false ->
                        entry_decodes (fst cm) (snd cm))) kids
  /\ Forall (fun cm => linkless (snd cm) = true
                       /\ (is_special (snd cm) = false ->
                           entry_redecodes (fst cm) (snd cm))) kids.
Proof.
  intros H. split; (eapply Forall_impl; [|exact H]);
    intros [c m] (Hc & Hwf & Hll & Hok); simpl in *; split; auto; intros Hsp.
  - now apply unpack_entry.
  - now apply unpack_entry_again.
Qed.

(** An unpacking run of [main] on an archive of the working directory
    that holds entries the directory has not. *)
Lemma main_unpack_mode (root : node) (cwd : path) (es kids : list (name * node))
      (prog arch : bytes) (fuel : nat) :
  get root cwd = Some (Dir es) ->
  entry_name arch = true ->
  assoc arch es
  = Some (Reg (flat_map (fun cm => wire_entry (fst cm) (snd cm)) kids)) ->
  Forall (fun cm => entry_name (fst cm) = true /\ wf (snd cm) = true
                    /\ linkless (snd cm) = true
                    /\ codec_ok (fst cm) (snd cm) = true) kids ->
  nodupb (map fst kids) = true -> existsb framed kids = true ->
  (forall c, In c (map fst kids) -> assoc c es = None) ->
  (nframes_list kids <= fuel)%nat ->
  main fuel root cwd [prog; arch]
  = Ok {| m_root := update root cwd (add_entries (prune_entries kids));
          m_cwd := cwd;
          m_stdout := (str "Contents of Extracted Archive:" ++ [LF])
                      ++ flat_map (fun cm => listing 1 (fst cm) (snd cm)) kids;
          m_stderr := [] |}.
Proof.
  intros HD Harch Hfile Hall Hnd Hex Hfresh Hfuel.
  destruct (entries_decode kids Hall) as [Hdec _].
  assert (Hget : get root (cwd ++ [arch])
                 = Some (Reg (flat_map (fun cm => wire_entry (fst cm) (snd cm))
                                       kids))).
  { rewrite get_app, HD. simpl. now rewrite Hfile. }
  unfold main. cbv zeta. simpl length. simpl Nat.ltb. cbv iota. simpl last.
  rewrite (fopen_r_found root cwd arch Harch _ Hget).
  unfold unpack.
  replace fuel with (nframes_list kids + (fuel - nframes_list kids))%nat by lia.
  rewrite (unpack_entries kids Hdec Hnd Hex _ es [] _);
    [reflexivity|exact HD|exact Hfresh|proj; now rewrite app_nil_r].
Qed.

Lemma added_get (R : node) (D : path) (es l : list (name * node)) (c : name) :
  get R D = Some (Dir es) ->
  get (update R D (add_entries l)) (D ++ [c]) = assoc c (es ++ l).
Proof.
  intros HD. rewrite get_app, (get_update D R _ (Dir es) HD). simpl.
  now destruct (assoc c (es ++ l)).
Qed.

(** X14.  [main] with the name of an archive, a regular file of the
    working directory that holds the wire format of entries, one after
    the other: entries with distinct names, none of which the directory
    holds, without symbolic links, with names and sizes that the decoder
    can take in (no ':', at most 254 bytes, 253 for a directory; files of
    at most INT_MAX bytes), one of them at least not a special file.
    The run returns; every entry that is not a special file is in the
    directory under its name, as the tree it was without its special
    files; what the directory held is as it was; the working directory
    is the same; stdout has the title and the listings at depth 1. *)
Theorem main_unpacks (root : node) (cwd : path) (es kids : list (name * node))
        (prog arch : bytes) (fuel : nat) :
  get root cwd = Some (Dir es) ->
  entry_name arch = true ->
  assoc arch es
  = Some (Reg (flat_map (fun cm => wire_entry (fst cm) (snd cm)) kids)) ->
  Forall (fun cm => entry_name (fst cm) = true /\ wf (snd cm) = true
                    /\ linkless (snd cm) = true
                    /\ codec_ok (fst cm) (snd cm) = true) kids ->
  nodupb (map fst kids) = true -> existsb framed kids = true ->
  (forall c, In c (map fst kids) -> assoc c es = None) ->
  (nframes_list kids <= fuel)%nat ->
  exists s,
    main fuel root cwd [prog; arch] = Ok s
    /\ (forall c m, In (c, m) kids -> is_special m = false ->
                    get (m_root s) (cwd ++ [c]) = Some (prune m))
    /\ (forall c x, assoc c es = Some x ->
                    get (m_root s) (cwd ++ [c]) = Some x)
    /\ m_cwd s = cwd
    /\ m_stdout s
       = (str "Contents of Extracted Archive:" ++ [LF])
         ++ flat_map (fun cm => listing 1 (fst cm) (snd cm)) kids
    /\ m_stderr s = [].
Proof.
  intros HD Harch Hfile Hall Hnd Hex Hfresh Hfuel.
  eexists. split.
  - apply (main_unpack_mode root cwd es kids prog arch fuel
                            HD Harch Hfile Hall Hnd Hex Hfresh Hfuel).
  - simpl. split; [|split; [|repeat split]].
    + intros c m Hin Hsp. rewrite (added_get root cwd es _ c HD).
      rewrite assoc_app, Hfresh.
      * now apply assoc_prune_entries.
      * apply in_map_iff. now exists (c, m).
    + intros c x Hx. rewrite (added_get root cwd es _ c HD).
      now rewrite assoc_app, Hx.
Qed.

Lemma main_unpacks_witness :
  exists s,
    main 4
         (update Examples.fs Examples.dst
                 (add_entry (str "in")
                    (Reg (flat_map (fun cm => wire_entry (fst cm) (snd cm))
                            [(str "f", Reg (str "hi"));
                             (str "pipe", Special Fifo);
                             (str "d", Dir [(str "g", Reg [])])]))))
         Examples.dst [str "archive"; str "in"] = Ok s
    /\ (forall c m,
           In (c, m) [(str "f", Reg (str "hi"));
                      (str "pipe", Special Fifo);
                      (str "d", Dir [(str "g", Reg [])])] ->
           is_special m = false ->
           get (m_root s) (Examples.dst ++ [c]) = Some (prune m))
    /\ (forall c x,
           assoc c
             [(str "in",
               Reg (flat_map (fun cm => wire_entry (fst cm) (snd cm))
                      [(str "f", Reg (str "hi"));
                       (str "pipe", Special Fifo);
                       (str "d", Dir [(str "g", Reg [])])]))]
           = Some x ->
           get (m_root s) (Examples.dst ++ [c]) = Some x)
    /\ m_cwd s = Examples.dst
    /\ m_stdout s
       = (str "Contents of Extracted Archive:" ++ [LF])
         ++ flat_map (fun cm => listing 1 (fst cm) (snd cm))
              [(str "f", Reg (str "hi"));
               (str "pipe", Special Fifo);
               (str "d", Dir [(str "g", Reg [])])]
    /\ m_stderr s = [].
Proof.
  apply (main_unpacks
           (update Examples.fs Examples.dst
                   (add_entry (str "in")
                      (Reg (flat_map (fun cm => wire_entry (fst cm) (snd cm))
                              [(str "f", Reg (str "hi"));
                               (str "pipe", Special Fifo);
                               (str "d", Dir [(str "g", Reg [])])]))))
           Examples.dst
           [(str "in",
             Reg (flat_map (fun cm => wire_entry (fst cm) (snd cm))
                    [(str "f", Reg (str "hi"));
                     (str "pipe", Special Fifo);
                     (str "d", Dir [(str "g", Reg [])])]))]
           [(str "f", Reg (str "hi"));
            (str "pipe", Special Fifo);
            (str "d", Dir [(str "g", Reg [])])]
           (str "archive") (str "in") 4).
  - vm_compute. reflexivity.
  - vm_compute. reflexivity.
  - vm_compute. reflexivity.
  - repeat constructor; vm_compute; reflexivity.
  - vm_compute. reflexivity.
  - vm_compute. reflexivity.
  - intros c [H|[H|[H|[]]]]; subst c; vm_compute; reflexivity.
  - vm_compute. lia.
Defined.

(** X15.  Packing entries of the working directory into a new archive
    there and then unpacking the archive in the same directory, for
    entries without symbolic links, with names and sizes that the
    decoder can take in (no ':', at most 254 bytes, 253 for a directory;
    files of at most INT_MAX bytes), one of them at least not a special
    file: both runs return, and the second leaves the file system as the
    first left it, every packed entry with the tree it had and the
    archive with its bytes. *)
Theorem main_round_trip_in_place (root : node) (cwd : path)
        (es kids : list (name * node)) (prog out : bytes) (fuel fuel' : nat) :
  get root cwd = Some (Dir es) ->
  entry_name out = true -> assoc out es = None ->
  Forall (fun cm => entry_name (fst cm) = true /\ wf (snd cm) = true
                    /\ linkless (snd cm) = true
                    /\ assoc (fst cm) es = Some (snd cm)
                    /\ codec_ok (fst cm) (snd cm) = true
                    /\ (height (snd cm) < fuel)%nat) kids ->
  existsb framed kids = true ->
  (nframes_list kids <= fuel')%nat ->
  exists s1 s2,
    main fuel root cwd (prog :: map fst kids ++ [out]) = Ok s1
    /\ main fuel' (m_root s1) (m_cwd s1) [prog; out] = Ok s2
    /\ m_root s2 = m_root s1
    /\ m_cwd s2 = cwd
    /\ (forall c T, In (c, T) kids -> get (m_root s2) (cwd ++ [c]) = Some T)
    /\ m_stdout s2
       = (str "Contents of Extracted Archive:" ++ [LF])
         ++ flat_map (fun cm => listing 1 (fst cm) (snd cm)) kids.
Proof.
  intros HD Hout Hfresh Hall Hex Hfuel.
  assert (Hne : kids <> []) by (destruct kids; [discriminate|congruence]).
  assert (Hpack : Forall (fun cm => entry_name (fst cm) = true
                                    /\ wf (snd cm) = true
                                    /\ linkless (snd cm) = true
                                    /\ assoc (fst cm) es = Some (snd cm)
                                    /\ (height (snd cm) < fuel)%nat) kids).
  { eapply Forall_impl; [|exact Hall].
    intros a (H1 & H2 & H3 & H4 & H5 & H6). repeat split; assumption. }
  assert (Hcodec : Forall (fun cm => entry_name (fst cm) = true
                                     /\ wf (snd cm) = true
                                     /\ linkless (snd cm) = true
                                     /\ codec_ok (fst cm) (snd cm) = true) kids).
  { eapply Forall_impl; [|exact Hall].
    intros a (H1 & H2 & H3 & H4 & H5 & H6). repeat split; assumption. }
  destruct (entries_decode kids Hcodec) as [_ Hdec].
  rewrite (main_pack_mode root cwd es kids prog out fuel HD Hout Hfresh Hne Hpack).
  eexists. proj.
  set (archive := flat_map (fun cm => wire_entry (fst cm) (snd cm)) kids).
  set (R1 := update root cwd (add_entry out (Reg archive))).
  assert (Hthere : forall c T, In (c, T) kids -> get R1 (cwd ++ [c]) = Some T).
  { intros c T Hin. rewrite Forall_forall in Hall.
    destruct (Hall (c, T) Hin) as (_ & _ & _ & Has & _).
    now apply sibling_get with es. }
  assert (Hrun : main fuel' R1 cwd [prog; out]
                 = Ok {| m_root := R1; m_cwd := cwd;
                         m_stdout := (str "Contents of Extracted Archive:" ++ [LF])
                                     ++ flat_map (fun cm => listing 1 (fst cm) (snd cm)) kids;
                         m_stderr := [] |}).
  { unfold main. cbv zeta. simpl length. simpl Nat.ltb. cbv iota. simpl last.
    rewrite (fopen_r_found R1 cwd out Hout archive
               (extend_get root cwd es out HD Hfresh (Reg archive))).
    unfold unpack.
    replace fuel' with (nframes_list kids + (fuel' - nframes_list kids))%nat
      by lia.
    rewrite (unpack_entries_again kids Hdec Hex _ [] _);
      [reflexivity| |proj; now rewrite app_nil_r].
    proj. intros c T Hin Hsp. exists T. split; [now apply Hthere|].
    rewrite Forall_forall in Hall.
    destruct (Hall (c, T) Hin) as (_ & Hwf & Hll & _).
    now apply covers_itself. }
  eexists. split; [reflexivity|]. split; [exact Hrun|].
  proj. repeat split; auto.
Qed.

Lemma main_round_trip_in_place_witness :
  exists s1 s2,
    main 3 Examples.fs Examples.src
         (str "archive"
          :: map fst [(str "root", Examples.tree);
                      (str "a", Dir [(str "b", Dir [(str "f", Reg (str "x"))])])]
          ++ [str "out"]) = Ok s1
    /\ main 11 (m_root s1) (m_cwd s1) [str "archive"; str "out"] = Ok s2
    /\ m_root s2 = m_root s1
    /\ m_cwd s2 = Examples.src
    /\ (forall c T,
           In (c, T) [(str "root", Examples.tree);
                      (str "a", Dir [(str "b", Dir [(str "f", Reg (str "x"))])])] ->
           get (m_root s2) (Examples.src ++ [c]) = Some T)
    /\ m_stdout s2
       = (str "Contents of Extracted Archive:" ++ [LF])
         ++ flat_map (fun cm => listing 1 (fst cm) (snd cm))
              [(str "root", Examples.tree);
               (str "a", Dir [(str "b", Dir [(str "f", Reg (str "x"))])])].
Proof.
  apply (main_round_trip_in_place
           Examples.fs Examples.src
           [(str "root", Examples.tree); (str "plain", Examples.plain_tree);
            (str "d", Examples.colon_tree); (str "links", Examples.link_tree);
            (Examples.long_name, Reg []);
            (str "a", Dir [(str "b", Dir [(str "f", Reg (str "x"))])]);
            (str "lnk", Lnk (str "/dst"))]
           [(str "root", Examples.tree);
            (str "a", Dir [(str "b", Dir [(str "f", Reg (str "x"))])])]
           (str "archive") (str "out") 3 11).
  - reflexivity.
  - reflexivity.
  - vm_compute. reflexivity.
  - repeat constructor; vm_compute; first [reflexivity | lia].
  - reflexivity.
  - vm_compute. lia.
Defined.

(** ** An archive that ends inside a name *)

Lemma next_block_eof (delim : ascii) (max_reads : Z) :
  forall s output,
    Forall (fun x => x <> delim) s ->
    (length output + length s < NAME_MAX)%nat ->
    Z.of_nat (length output + length s) <= max_reads ->
    next_block s output delim max_reads = Ok (output ++ s, []).
Proof.
  induction s as [|x s IH]; intros output Hs Hlen Hmax; simpl.
  - unfold next_block_close. rewrite app_nil_r.
    replace (length output <? NAME_MAX)%nat with true; auto.
    symmetry. apply Nat.ltb_lt. simpl in Hlen. lia.
  - inversion Hs as [|? ? Hx Hs']; subst. simpl in Hlen, Hmax.
    replace (Z.of_nat (length output) <? max_reads) with true
      by (symmetry; apply Z.ltb_lt; lia).
    replace (Ascii.eqb x delim) with false
      by (symmetry; now apply Ascii.eqb_neq).
    replace (length output <? NAME_MAX)%nat with true
      by (symmetry; apply Nat.ltb_lt; lia).
    rewrite IH; auto.
    + now rewrite <- app_assoc.
    + rewrite length_app. simpl. lia.
    + rewrite length_app. simpl. lia.
Qed.

(** X16.  An archive that ends inside the name of a frame, after fewer
    bytes than the frame declares: the bytes that are there are taken
    for the name of a file, the missing size field reads as 0, and an
    empty file of that name is made; the run goes on as after any file. *)
Theorem truncated_name_makes_empty_file (R : node) (D : path)
        (es : list (name * node)) (depth : Z) (out : bytes) (c : name)
        (n : N) :
  entry_name c = true -> codec_name 0 c = true ->
  get R D = Some (Dir es) -> assoc c es = None ->
  (N.of_nat (length c) < n)%N -> Z.of_N n <= INT_MAX ->
  unpack_frame {| u_root := R; u_cwd := D;
                  u_fp := print_ld n ++ [COLON] ++ c;
                  u_depth := depth; u_stdout := out |}
  = Ok {| u_root := update R D (add_entry c (Reg []));
          u_cwd := D;
          u_fp := [];
          u_depth := depth;
          u_stdout := out ++ indent depth ++ c ++ [LF] |}.
Proof.
  intros Hname Hcodec HD Hfresh Hshort Hmax.
  destruct (entry_name_file c Hname Hcodec) as (H1 & H2 & H3 & H4 & H5).
  unfold unpack_frame. proj. simpl app at 2.
  rewrite next_block_decimal.
  2:{ apply N.le_lt_trans with (Z.to_N INT_MAX); [lia|reflexivity]. }
  step. rewrite atoi_print_ld by auto. step.
  rewrite next_block_eof by (auto; simpl; lia).
  step. simpl app. rewrite (cstr_id c H3).
  replace (Z.of_N n =? 0) with false by (symmetry; apply Z.eqb_neq; lia).
  destruct (rev c) as [|x r] eqn:Erev.
  { apply (f_equal (@rev ascii)) in Erev. rewrite rev_involutive in Erev.
    simpl in Erev. congruence. }
  rewrite (rev_head_last c x NUL r Erev) in H5.
  replace (Ascii.eqb x SLASH) with false by (symmetry; now apply Ascii.eqb_neq).
  proj. change (next_block [] [] COLON (Z.of_nat NAME_MAX))
    with (@Ok (bytes * bytes) ([], [])).
  step. change (atoi (cstr [])) with (@Ok Z 0). step.
  rewrite (fopen_w_missing R D c Hname es HD Hfresh).
  change (copy_payload (Z.to_nat 0) [] None [])
    with (@Ok (bytes * bytes) ([], [])).
  step. simpl fclose_w.
  now rewrite (extend_update R D es c HD Hfresh (Reg []) (fun _ => Reg [])).
Qed.

Lemma truncated_name_makes_empty_file_witness :
  unpack_frame {| u_root := Examples.fs; u_cwd := Examples.dst;
                  u_fp := print_ld 8 ++ [COLON] ++ str "notes";
                  u_depth := 1; u_stdout := [] |}
  = Ok {| u_root := update Examples.fs Examples.dst
                           (add_entry (str "notes") (Reg []));
          u_cwd := Examples.dst;
          u_fp := [];
          u_depth := 1;
          u_stdout := [] ++ indent 1 ++ str "notes" ++ [LF] |}.
Proof.
  apply (truncated_name_makes_empty_file Examples.fs Examples.dst [] 1 []
                                         (str "notes") 8);
    first [vm_compute; reflexivity | vm_compute; discriminate | vm_compute; lia].
Defined.

(** ** [pack] on a name that is absent, and on a symbolic link *)

(** X17.  [pack] on a name that the working directory does not hold:
    stat fails, its result is not looked at, and [st] is read without
    having been written. *)
Theorem pack_missing_name (fuel : nat) (root : node) (c : name)
        (es : list (name * node)) (depth : Z) (w : pworld) :
  entry_name c = true ->
  get root (p_cwd w) = Some (Dir es) -> assoc c es = None ->
  pack (S fuel) root c depth w = Undefined Uninitialised.
Proof.
  intros Hc HD Hfresh. simpl.
  now rewrite (stat_missing root (p_cwd w) c Hc es HD Hfresh).
Qed.

Lemma pack_missing_name_witness :
  pack 1 Examples.fs (str "nothing") 1 (fresh_world Examples.dst)
  = Undefined Uninitialised.
Proof.
  apply (pack_missing_name 0 Examples.fs (str "nothing") [] 1
                           (fresh_world Examples.dst));
    reflexivity.
Defined.

Lemma walk_link (root : node) (follow : path -> list name -> walked)
      (cur : path) (c : name) (t : bytes) :
  entry_name c = true -> get root (cur ++ [c]) = Some (Lnk t) ->
  walk root follow cur [c]
  = follow (if is_absolute t then [] else cur) (components t ++ []).
Proof.
  intros Hc Hg. destruct (name_tests c Hc) as (T1 & T2 & T3). simpl.
  now rewrite T1, T2, T3, Hg.
Qed.

(** A symbolic link to a regular file next to it resolves to the file. *)
Lemma namei_link (R : node) (D : path) (c t : name) (d : bytes) :
  entry_name c = true -> entry_name t = true ->
  get R (D ++ [c]) = Some (Lnk t) -> get R (D ++ [t]) = Some (Reg d) ->
  namei R D c = Found (D ++ [t]).
Proof.
  intros Hc Ht Hl Hf.
  destruct (entry_name_spec t Ht) as (H1 & H2 & _).
  rewrite (namei_name R D c Hc).
  change (namei_from SYMLOOP_MAX R) with (walk R (namei_from 39 R)).
  rewrite (walk_link R _ D c t Hc Hl).
  rewrite <- (app_nil_r t) at 1. rewrite is_absolute_name by auto.
  rewrite components_name by auto. simpl app.
  destruct (namei_from_walk 39 R) as [follow ->].
  now apply walk_found with (Reg d).
Qed.

(** X18.  [pack] on a symbolic link to a regular file of the same
    directory: stat and fopen follow the link, and the archive gets a
    file frame under the name of the link with the size and the bytes of
    the file; nothing tells the frame from that of a regular file. *)
Theorem pack_follows_link (fuel : nat) (root : node) (c t : name) (d : bytes)
        (depth : Z) (w : pworld) :
  entry_name c = true -> entry_name t = true ->
  get root (p_cwd w ++ [c]) = Some (Lnk t) ->
  get root (p_cwd w ++ [t]) = Some (Reg d) ->
  pack (S fuel) root c depth w
  = Ok (grow w (wire_entry c (Reg d)) (listing depth c (Reg d)) []
             (frames depth c (Reg d))).
Proof.
  intros Hc Ht Hl Hf.
  pose proof (namei_link root (p_cwd w) c t d Hc Ht Hl Hf) as Hn.
  simpl pack. unfold stat, fopen_r. simpl p_cwd. rewrite Hn, Hf.
  simpl. rewrite copy_stream_app. unfold to_outfp, to_stdout, grow. simpl.
  now rewrite app_nil_r.
Qed.

Lemma pack_follows_link_witness :
  pack 1 Examples.fs (str "l") 2
       (fresh_world (Examples.src ++ [str "links"]))
  = Ok (grow (fresh_world (Examples.src ++ [str "links"]))
             (wire_entry (str "l") (Reg (str "hi")))
             (listing 2 (str "l") (Reg (str "hi"))) []
             (frames 2 (str "l") (Reg (str "hi")))).
Proof.
  apply (pack_follows_link 0 Examples.fs (str "l") (str "f") (str "hi") 2
                           (fresh_world (Examples.src ++ [str "links"])));
    reflexivity.
Defined.

(** ** Archives tell trees apart *)

(** X19.  Two entries that [pack] turns into the same bytes have the
    same name and, special files apart, the same tree.  (No symbolic
    link in them, names and sizes that the decoder can take in.) *)
Theorem archives_differ (Rs Rs' : node) (Ds Ds' : path) (c c' : name)
        (T T' : node) (depth depth' : Z) (fuel fuel' : nat) (w w' : pworld) :
  wf T = true -> linkless T = true -> is_special T = false ->
  entry_name c = true -> codec_ok c T = true ->
  get Rs (Ds ++ [c]) = Some T -> (height T < fuel)%nat ->
  wf T' = true -> linkless T' = true -> is_special T' = false ->
  entry_name c' = true -> codec_ok c' T' = true ->
  get Rs' (Ds' ++ [c']) = Some T' -> (height T' < fuel')%nat ->
  run_pack fuel Rs Ds c depth = Ok w ->
  run_pack fuel' Rs' Ds' c' depth' = Ok w' ->
  p_out w = p_out w' ->
  c = c' /\ prune T = prune T'.
Proof.
  intros Hwf Hll Hsp Hc Hok Hget Hh Hwf' Hll' Hsp' Hc' Hok' Hget' Hh'
         Hrun Hrun' Hsame.
  rewrite (pack_run Rs Ds c T depth fuel Hwf Hll Hc Hget Hh) in Hrun.
  rewrite (pack_run Rs' Ds' c' T' depth' fuel' Hwf' Hll' Hc' Hget' Hh') in Hrun'.
  inversion Hrun; subst w. inversion Hrun'; subst w'.
  unfold grow, fresh_world in Hsame. simpl in Hsame.
  pose proof (unpack_run (Dir []) [] [] c T 0 (nframes T + nframes T')
                         Hwf Hll Hsp Hc Hok eq_refl eq_refl) as U.
  pose proof (unpack_run (Dir []) [] [] c' T' 0 (nframes T + nframes T')
                         Hwf' Hll' Hsp' Hc' Hok' eq_refl eq_refl) as U'.
  rewrite Hsame in U. rewrite U in U' by lia.
  specialize (U' ltac:(lia)). inversion U' as [[E1 E2]]. split; auto.
Qed.

Lemma archives_differ_witness :
  str "root" = str "root" /\ prune Examples.tree = prune Examples.plain_tree.
Proof.
  apply (archives_differ
           Examples.fs
           (update Examples.fs Examples.dst
                   (add_entry (str "root") Examples.plain_tree))
           Examples.src Examples.dst
           (str "root") (str "root") Examples.tree Examples.plain_tree 1 2 3 3
           (grow (fresh_world Examples.src)
                 (wire_entry (str "root") Examples.tree)
                 (listing 1 (str "root") Examples.tree)
                 (warnings (str "root") Examples.tree)
                 (frames 1 (str "root") Examples.tree))
           (grow (fresh_world Examples.dst)
                 (wire_entry (str "root") Examples.plain_tree)
                 (listing 2 (str "root") Examples.plain_tree)
                 (warnings (str "root") Examples.plain_tree)
                 (frames 2 (str "root") Examples.plain_tree)));
    first [vm_compute; reflexivity | vm_compute; lia].
Defined.

(** ** What unpacking never does *)

Lemma same_kind_refl (n : node) : same_kind n n.
Proof. destruct n; simpl; auto. Qed.

Lemma same_kind_trans (a b c : node) :
  same_kind a b -> same_kind b c -> same_kind a c.
Proof. destruct a, b, c; simpl; try tauto; congruence. Qed.

Lemma kept_refl (R : node) : kept R R.
Proof. intros p x H. exists x. split; auto. apply same_kind_refl. Qed.

Lemma kept_trans (R R' R'' : node) : kept R R' -> kept R' R'' -> kept R R''.
Proof.
  intros H1 H2 p x Hp. destruct (H1 p x Hp) as (x' & Hp' & K1).
  destruct (H2 p x' Hp') as (x'' & Hp'' & K2).
  exists x''. split; auto. now apply same_kind_trans with x'.
Qed.

(** A change at one place that keeps what is below it keeps the whole. *)
Lemma update_kept (f : node -> node) (q : path) : forall R,
  (forall n, get R q = Some n -> kept n (f n)) -> kept R (update R q f).
Proof.
  induction q as [|c q IH]; intros R Hf.
  - simpl. now apply Hf.
  - destruct R as [d|es|t|k]; simpl update; try apply kept_refl.
    intros p x Hp. destruct p as [|c' p].
    + simpl in *. inversion Hp; subst. eexists. split; [reflexivity|exact I].
    + simpl in *. destruct (bytes_eqb c' c) eqn:E.
      * apply bytes_eqb_true in E. subst c'. rewrite assoc_alter.
        destruct (assoc c es) as [m|] eqn:Em; [|discriminate].
        apply (IH m); auto.
      * rewrite assoc_alter_other by auto.
        destruct (assoc c' es) as [m|]; [|discriminate].
        exists x. split; auto. apply same_kind_refl.
Qed.

Lemma add_entry_kept (c : name) (X n : node) : kept n (add_entry c X n).
Proof.
  destruct n as [d|es|t|k]; try apply kept_refl.
  intros p x Hp. destruct p as [|c' p]; simpl in *.
  - inversion Hp; subst. eexists. split; [reflexivity|exact I].
  - rewrite assoc_app. destruct (assoc c' es) as [m|]; [|discriminate].
    exists x. split; auto. apply same_kind_refl.
Qed.

Lemma write_kept (d written : bytes) : kept (Reg d) (Reg written).
Proof.
  intros p x Hp. destruct p as [|c p]; simpl in *; [|discriminate].
  inversion Hp; subst. eexists. split; [reflexivity|exact I].
Qed.

(** A walk that ends at a missing last component ends in a directory
    that does not hold the name. *)
Lemma walk_missing_inv (R : node) (follow : path -> list name -> walked) :
  (forall cur comps parent c,
      follow cur comps = Missing parent c ->
      exists es, get R parent = Some (Dir es) /\ assoc c es = None) ->
  forall comps cur parent c,
    walk R follow cur comps = Missing parent c ->
    exists es, get R parent = Some (Dir es) /\ assoc c es = None.
Proof.
  intros Hf. induction comps as [|a comps IH]; intros cur parent c H;
    simpl in H; [discriminate|].
  destruct (bytes_eqb a [] || bytes_eqb a DOT); [now apply IH with cur|].
  destruct (bytes_eqb a DOTDOT); [now apply IH with (removelast cur)|].
  destruct (too_long a); [discriminate|].
  destruct (get R (cur ++ [a])) as [[d|es|t|k]|] eqn:G.
  - destruct comps; discriminate.
  - now apply IH with (cur ++ [a]).
  - now apply Hf in H.
  - destruct comps; discriminate.
  - destruct comps; [|discriminate].
    destruct (get R cur) as [[d|es|t|k]|] eqn:GC; try discriminate.
    inversion H; subst. exists es. split; auto.
    rewrite get_app, GC in G. simpl in G.
    now destruct (assoc c es).
Qed.

Lemma namei_missing_inv (R : node) (cwd : path) (s : bytes) (parent : path)
      (c : name) :
  namei R cwd s = Missing parent c ->
  exists es, get R parent = Some (Dir es) /\ assoc c es = None.
Proof.
  assert (Hfrom : forall fuel cur comps parent c,
             namei_from fuel R cur comps = Missing parent c ->
             exists es, get R parent = Some (Dir es) /\ assoc c es = None).
  { induction fuel as [|fuel IH]; simpl; intros cur comps p0 c0.
    - apply walk_missing_inv. discriminate.
    - apply walk_missing_inv. exact IH. }
  unfold namei. destruct s; [discriminate|].
  destruct (path_too_long (a :: s)); [discriminate|]. apply Hfrom.
Qed.

Lemma mkdir_kept (R R' : node) (D : path) (s : bytes) (mode : Z) :
  mkdir R D s mode = Some R' -> kept R R'.
Proof.
  unfold mkdir. intros H.
  destruct s as [|x s]; [discriminate|].
  destruct (path_too_long (x :: s)); [discriminate|].
  destruct (strip_trailing_empty (rev (components (x :: s)))) as [|c rp];
    [discriminate|].
  destruct (bytes_eqb c DOT || bytes_eqb c DOTDOT); [discriminate|].
  destruct (too_long c); [discriminate|].
  destruct (namei_from SYMLOOP_MAX R _ (rev rp)) as [parent| |];
    try discriminate.
  destruct (get R parent) as [[| | |]|]; try discriminate.
  destruct (get R (parent ++ [c])); [discriminate|].
  inversion H; subst. apply update_kept. intros n _. apply add_entry_kept.
Qed.

Lemma mkpath_loop_kept (D : path) (mode : Z) : forall p R tmp,
  kept R (snd (mkpath_loop R D tmp p mode)).
Proof.
  induction p as [|c p IH]; intros R tmp; simpl.
  - apply kept_refl.
  - destruct (Ascii.eqb c SLASH); [|apply IH].
    destruct (stat R D tmp) as [st|].
    + destruct (negb (S_ISDIR st)); [apply kept_refl|apply IH].
    + destruct (mkdir R D tmp mode) as [R'|] eqn:E; [|apply kept_refl].
      apply kept_trans with R'; [now apply mkdir_kept in E|apply IH].
Qed.

(** The file that [fopen] made or truncated, once written and closed. *)
Lemma write_file_kept (R R1 : node) (D : path) (fn : bytes)
      (newfile : wstream) (written : bytes) :
  fopen_w R D fn = Opened R1 newfile -> kept R (fclose_w R1 newfile written).
Proof.
  unfold fopen_w. intros H.
  destruct (namei R D fn) as [p|parent c|] eqn:N; [| |discriminate].
  - destruct (get R p) as [[d|es|t|[| | |]]|] eqn:G; inversion H; subst;
      try apply kept_refl.
    simpl. rewrite update_twice. apply update_kept.
    intros n Hn. rewrite G in Hn. inversion Hn; subst. apply write_kept.
  - inversion H; subst.
    destruct (namei_missing_inv R D fn parent c N) as (es & HD & Hfresh).
    simpl.
    rewrite (extend_update R parent es c HD Hfresh (Reg [])
               (fun _ => Reg written)).
    apply update_kept. intros n _. apply add_entry_kept.
Qed.

Lemma unpack_frame_kept (s s' : ustate) :
  unpack_frame s = Ok s' -> kept (u_root s) (u_root s').
Proof.
  intros H. unfold unpack_frame in H.
  destruct (next_block (u_fp s) [] COLON (Z.of_nat NAME_MAX))
    as [[b1 fp1]| | | |]; try discriminate H.
  cbv beta iota delta [bind] in H.
  destruct (atoi (cstr b1)) as [fn_length| | | |]; try discriminate H.
  cbv beta iota delta [bind] in H.
  destruct (next_block fp1 [] COLON fn_length) as [[b2 fp2]| | | |];
    try discriminate H.
  cbv beta iota delta [bind] in H.
  destruct (fn_length =? 0).
  { inversion H; subst. simpl. apply kept_refl. }
  destruct (rev (cstr b2)) as [|a r]; [discriminate|].
  destruct (Ascii.eqb a SLASH).
  - pose proof (mkpath_loop_kept (u_cwd s) 448 (cstr b2) (u_root s) []) as K.
    fold (mkpath (u_root s) (u_cwd s) (cstr b2) 448) in K.
    destruct (mkpath (u_root s) (u_cwd s) (cstr b2) 448) as [r0 root'].
    destruct (negb (r0 =? 0)); [discriminate|].
    inversion H; subst. exact K.
  - destruct (next_block fp2 [] COLON (Z.of_nat NAME_MAX))
      as [[b3 fp3]| | | |]; try discriminate H.
    cbv beta iota delta [bind] in H.
    destruct (atoi (cstr b3)) as [file_length| | | |]; try discriminate H.
    cbv beta iota delta [bind] in H.
    destruct (fopen_w (u_root s) (u_cwd s) (cstr b2))
      as [root' newfile| |] eqn:F; try discriminate.
    destruct (copy_payload (Z.to_nat file_length) fp3 None [])
      as [[written fp4]| | | |]; try discriminate H.
    cbv beta iota delta [bind] in H. inversion H; subst. simpl.
    now apply write_file_kept with (u_cwd s) (cstr b2).
Qed.

Lemma unpack_loop_kept : forall fuel s s',
  unpack_loop fuel s = Ok s' -> kept (u_root s) (u_root s').
Proof.
  induction fuel as [|fuel IH]; intros s s' H; [discriminate|].
  rewrite unpack_loop_step in H.
  destruct (unpack_frame s) as [s1| | | |] eqn:F; try discriminate H.
  cbv beta iota delta [bind] in H. unfold continue in H.
  apply unpack_frame_kept in F.
  destruct (u_fp s1).
  - inversion H; subst. exact F.
  - apply kept_trans with (u_root s1); auto.
Qed.

(** X20.  Whatever the bytes of the archive: when [unpack] returns,
    everything the file system held is still there, at the same path and
    with the same type.  A regular file is a regular file (its bytes may
    have changed), a directory a directory, a symbolic link the same
    link, a special file the same special file. *)
Theorem unpack_never_removes (fuel : nat) (root : node) (cwd : path)
        (fp : bytes) (depth : Z) (s : ustate) (p : path) (x : node) :
  unpack fuel root cwd fp depth = Ok s ->
  get root p = Some x ->
  exists x', get (u_root s) p = Some x' /\ same_kind x x'.
Proof.
  intros H Hp. apply unpack_loop_kept in H. now apply H.
Qed.

Lemma unpack_never_removes_witness :
  exists x',
    get (u_root {| u_root := update Examples.fs
                               (Examples.src ++ [str "a"; str "b"; str "f"])
                               (fun _ => Reg (str "new"));
                   u_cwd := Examples.src ++ [str "a"; str "b"];
                   u_fp := [];
                   u_depth := 1;
                   u_stdout := (str "Contents of Extracted Archive:" ++ [LF])
                               ++ indent 1 ++ str "f" ++ [LF] |})
        (Examples.src ++ [str "a"; str "b"; str "f"]) = Some x'
    /\ same_kind (Reg (str "x")) x'.
Proof.
  apply (unpack_never_removes 1 Examples.fs
                              (Examples.src ++ [str "a"; str "b"])
                              (str "1:f3:new") 1).
  - vm_compute. reflexivity.
  - reflexivity.
Defined.

(** ** Directory frames with a path for a name *)

Lemma slashed_free (x : ascii) (cs : list name) :
  x <> SLASH -> Forall (fun c => Forall (fun y => y <> x) c) cs ->
  Forall (fun y => y <> x) (slashed cs).
Proof.
  intros Hx H. induction H as [|c cs Hc _ IH]; simpl; [constructor|].
  apply Forall_app. split; [assumption|].
  constructor; [congruence|assumption].
Qed.

Lemma components_slashed_dir (cs : list name) :
  cs <> [] -> Forall (fun c => entry_name c = true) cs ->
  components (slashed cs) = cs ++ [[]]
  /\ is_absolute (slashed cs) = false /\ slashed cs <> [].
Proof.
  intros Hne Hcs. split.
  - unfold components. rewrite <- (app_nil_r (slashed cs)).
    rewrite split_path_slashed; auto.
    + now destruct cs.
    + now apply Forall_entry_slash_free.
  - destruct cs as [|d cs]; [congruence|]. simpl.
    inversion Hcs as [|? ? Hd _]; subst.
    destruct (entry_name_spec d Hd) as (H1 & H2 & _). split.
    + now apply is_absolute_name.
    + destruct d; [congruence|discriminate].
Qed.

Lemma chdir_chain (R : node) (D : path) (cs : list name) :
  cs <> [] -> Forall (fun c => entry_name c = true) cs -> chain R D cs ->
  path_too_long (slashed cs) = false ->
  chdir R D (slashed cs) = D ++ cs.
Proof.
  intros Hne Hcs Hch Hp.
  destruct (components_slashed_dir cs Hne Hcs) as (Hcomp & Habs & Hnn).
  destruct (chain_last R cs D Hch) as [es Hes].
  unfold chdir. rewrite namei_short by auto. rewrite Habs, Hcomp.
  destruct (namei_from_walk SYMLOOP_MAX R) as [follow ->].
  rewrite walk_chain by auto. simpl. now rewrite Hes.
Qed.

(** X21.  A directory frame whose name is a path c1/.../cn/ (as [pack]
    writes for an argument with '/' in it): [unpack] makes the
    directories of the path that are missing and goes down all n of
    them, while the depth goes up by one, as one sentinel will take it
    back one directory only. *)
Theorem dir_frame_descends (R R' : node) (D : path) (cs : list name)
        (es : list (name * node)) (depth : Z) (out rest : bytes) :
  get R D = Some (Dir es) ->
  cs <> [] -> Forall (fun c => entry_name c = true) cs ->
  Forall (fun c => Forall (fun x => x <> COLON) c) cs ->
  (length (slashed cs) < NAME_MAX)%nat ->
  ensure R D cs = Some R' ->
  unpack_frame {| u_root := R; u_cwd := D;
                  u_fp := print_ld (strlen (slashed cs)) ++ [COLON]
                          ++ slashed cs ++ rest;
                  u_depth := depth; u_stdout := out |}
  = Ok {| u_root := R'; u_cwd := D ++ cs;
          u_fp := rest; u_depth := depth + 1;
          u_stdout := out ++ indent depth ++ slashed cs ++ [LF] |}.
Proof.
  intros HD Hne Hcs Hcolon Hlen Hens.
  assert (H0 : chain R D []) by (simpl; eauto).
  assert (Hp : path_too_long (slashed cs) = false).
  { apply path_short. unfold NAME_MAX, PATH_MAX in *. lia. }
  destruct (mkpath_loop_chain D 448 cs [] R R' (Forall_nil _) Hcs H0)
    as [Hmk Hch];
    [simpl app; unfold NAME_MAX, PATH_MAX in *; lia|now rewrite app_nil_r|].
  simpl in Hmk, Hch. fold (mkpath R D (slashed cs) 448) in Hmk.
  destruct (components_slashed_dir cs Hne Hcs) as (_ & _ & Hnn).
  assert (Hnul : Forall (fun x => x <> NUL) (slashed cs)).
  { apply slashed_free; [discriminate|].
    eapply Forall_impl; [|exact Hcs].
    intros c Hc. now destruct (entry_name_spec c Hc) as (_ & _ & H3 & _). }
  assert (Hcol : Forall (fun x => x <> COLON) (slashed cs)).
  { apply slashed_free; [discriminate|exact Hcolon]. }
  assert (Hrev : exists r, rev (slashed cs) = SLASH :: r).
  { destruct (exists_last Hne) as (done & c & ->).
    rewrite slashed_app. simpl slashed.
    rewrite !rev_app_distr. simpl. eauto. }
  destruct Hrev as [r Hrev].
  unfold unpack_frame. proj. simpl app at 2.
  rewrite next_block_decimal by (apply small_N; lia).
  step.
  rewrite atoi_print_ld by (unfold strlen, NAME_MAX, INT_MAX in *; lia).
  step.
  replace (Z.of_N (strlen (slashed cs)))
    with (Z.of_nat (length (@nil ascii) + length (slashed cs)))
    by (unfold strlen; simpl; lia).
  rewrite next_block_exact by (auto; simpl; lia).
  step. simpl app. rewrite (cstr_id _ Hnul).
  replace (_ =? 0) with false
    by (symmetry; apply Z.eqb_neq; destruct (slashed cs);
        [congruence|simpl; lia]).
  rewrite Hrev, Ascii.eqb_refl, Hmk. simpl negb. cbv iota. proj.
  now rewrite (chdir_chain R' D cs Hne Hcs Hch Hp).
Qed.

Lemma dir_frame_descends_witness :
  unpack_frame {| u_root := Examples.fs; u_cwd := [str "dst"];
                  u_fp := print_ld (strlen (slashed [str "x"; str "y"]))
                          ++ [COLON] ++ slashed [str "x"; str "y"]
                          ++ str "0:";
                  u_depth := 1; u_stdout := [] |}
  = Ok {| u_root := update Examples.fs [str "dst"; str "x"]
                           (add_entry (str "y") (Dir []));
          u_cwd := [str "dst"] ++ [str "x"; str "y"];
          u_fp := str "0:"; u_depth := 1 + 1;
          u_stdout := [] ++ indent 1 ++ slashed [str "x"; str "y"] ++ [LF] |}.
Proof.
  apply (dir_frame_descends Examples.fs _ [str "dst"] [str "x"; str "y"]
                            [(str "x", Dir [])] 1 [] (str "0:")).
  - reflexivity.
  - discriminate.
  - repeat constructor.
  - repeat constructor; discriminate.
  - vm_compute. lia.
  - vm_compute. reflexivity.
Defined.

(** ** A file of 2 GiB or more *)

(** X22.  A file frame whose size field is above INT_MAX, as [pack]
    writes for a file of 2 GiB or more: the size goes through atoi,
    which has no defined result for it. *)
Theorem oversized_file_is_undefined (R : node) (D : path) (depth : Z)
        (out rest : bytes) (c : name) (n : N) :
  entry_name c = true -> codec_name 0 c = true ->
  INT_MAX < Z.of_N n -> (n < 2 ^ 64)%N ->
  unpack_frame {| u_root := R; u_cwd := D;
                  u_fp := print_ld (strlen c) ++ [COLON] ++ c
                          ++ print_ld n ++ [COLON] ++ rest;
                  u_depth := depth; u_stdout := out |}
  = Undefined IntRange.
Proof.
  intros Hname Hcodec Hbig Hlong.
  destruct (entry_name_file c Hname Hcodec) as (H1 & H2 & H3 & H4 & H5).
  unfold unpack_frame. proj. simpl app at 2.
  rewrite next_block_decimal by (apply small_N; lia).
  step.
  rewrite atoi_print_ld by (unfold strlen, NAME_MAX, INT_MAX in *; lia).
  step.
  replace (Z.of_N (strlen c)) with (Z.of_nat (length (@nil ascii) + length c))
    by (unfold strlen; simpl; lia).
  rewrite next_block_exact by (auto; simpl; lia).
  step. simpl app. rewrite (cstr_id c H3).
  replace (_ =? 0) with false
    by (symmetry; apply Z.eqb_neq; destruct c; [congruence|simpl; lia]).
  destruct (rev c) as [|x r] eqn:Erev.
  { apply (f_equal (@rev ascii)) in Erev. rewrite rev_involutive in Erev.
    simpl in Erev. congruence. }
  rewrite (rev_head_last c x NUL r Erev) in H5.
  replace (Ascii.eqb x SLASH) with false by (symmetry; now apply Ascii.eqb_neq).
  proj. rewrite next_block_decimal by exact Hlong.
  step. rewrite cstr_id by (apply print_ld_no; reflexivity).
  unfold atoi. rewrite strtol_print_ld.
  replace (Z.of_N n <=? INT_MAX) with false
    by (symmetry; apply Z.leb_gt; exact Hbig).
  now rewrite andb_false_r.
Qed.

Lemma oversized_file_is_undefined_witness :
  unpack_frame {| u_root := Examples.fs; u_cwd := Examples.dst;
                  u_fp := print_ld (strlen (str "big")) ++ [COLON] ++ str "big"
                          ++ print_ld 3000000000 ++ [COLON] ++ str "data";
                  u_depth := 1; u_stdout := [] |}
  = Undefined IntRange.
Proof.
  apply (oversized_file_is_undefined Examples.fs Examples.dst 1 []
                                     (str "data") (str "big") 3000000000);
    first [vm_compute; reflexivity].
Defined.
